(** * The migration engine of [src/migration/migration.ts]

    A shallow embedding of [MigrationModule]: the four public operations
    ([migrateToLatest], [migrateTo], [migrateUp], [migrateDown]), the
    private methods they are built from, and a model of the collaborators
    they talk to (the database, the dialect adapter, the file system).

    The asynchronous methods become computations in a state-and-exception
    monad over a [World]: the persisted tables, the user's schema, and the
    log of every call made to a collaborator. *)

From Stdlib Require Import ZArith Lia.
From stdpp Require Import base option list sorting strings gmap.

Local Open Scope Z_scope.

(** ** Constants *)

Definition MIGRATION_TABLE : string := "kysely_migration".
Definition MIGRATION_LOCK_TABLE : string := "kysely_migration_lock".
Definition MIGRATION_LOCK_ID : string := "migration_lock".

(** ** Results *)

Inductive Direction := Up | Down.
Inductive Status := Success | Error | NotExecuted.

Record MigrationResult := {
  migrationName : string;
  direction : Direction;
  status : Status
}.

(** What a [throw] can carry.  The two [Corrupted...] cases and
    [MigrationDoesNotExist] are the three [new Error(...)] of the source;
    [TypeError] is what reading a property of [undefined] raises;
    [Failure] is anything a collaborator or a migration action rejects
    with. *)
Inductive Exn :=
  | CorruptedMissing (executed : string)
  | CorruptedOrder (executed : string) (i : nat) (found : string)
  | MigrationDoesNotExist (target : string)
  | TypeError
  | Failure (msg : string).

Record MigrationResultSet := {
  error : option Exn;
  results : option (list MigrationResult)
}.

(** The values that travel up to the [catch] of [#migrate]: an ordinary
    error, or the private [MigrationResultSetError] with its result set. *)
Inductive Thrown :=
  | ThrowExn (e : Exn)
  | MigrationResultSetError (resultSet : MigrationResultSet).

(** [string | NoMigrations], the second argument of [migrateTo]. *)
Inductive Target := NO_MIGRATIONS | TargetName (targetMigrationName : string).

(** ** Calls to collaborators *)

(** The handle a query is issued on: [this.#db], or the [db] that
    [transaction().execute] resp. [connection().execute] pass to [run]. *)
Inductive Db := RootDb | TransactionDb | ConnectionDb.

Inductive Op :=
  | OpGetMetadata
  | OpCreateTable (tableName : string)
  | OpSelectLockRow
  | OpInsertLockRow
  | OpBeginTransaction
  | OpCommit
  | OpRollback
  | OpAcquireConnection
  | OpReleaseConnection
  | OpAcquireMigrationLock (db : Db)
  | OpReleaseMigrationLock (db : Db)
  | OpReaddir (folder : string)
  | OpImport (file : string)
  | OpSelectExecuted (db : Db)
  | OpUp (db : Db) (migration : string)
  | OpDown (db : Db) (migration : string)
  | OpInsertRecord (db : Db) (migration : string)
  | OpDeleteRecord (db : Db) (migration : string).

(** One entry of the call log: the call, and whether it completed. *)
Definition Event : Type := Op * bool.

(** A row of the [kysely_migration] table. *)
Record LedgerRow := {
  row_name : string;
  row_timestamp : string
}.

Definition is_inr {A B} (x : A + B) : bool :=
  match x with inr _ => true | inl _ => false end.

(** ** JavaScript helpers *)

(** [Array.prototype.findIndex], with its [-1]. *)
Fixpoint findIndex {A} (p : A → bool) (l : list A) : Z :=
  match l with
  | [] => -1
  | x :: l' =>
      if p x then 0
      else let r := findIndex p l' in if r <? 0 then -1 else r + 1
  end.

(** [array[i]] for a JavaScript number [i]: [None] is [undefined]. *)
Definition at_index {A} (l : list A) (i : Z) : option A :=
  if i <? 0 then None else l !! Z.to_nat i.

(** [getLast] of [util/object-utils]. *)
Definition getLast {A} (l : list A) : option A := last l.

Definition endsWith (s suffix : string) : bool :=
  let n := String.length s in
  let k := String.length suffix in
  (k <=? n)%nat && bool_decide (String.substring (n - k) k s = suffix).

(** [path.join(folder, file)] for a folder and a plain file name. *)
Definition path_join (folder file : string) : string :=
  folder +:+ "/" +:+ file.

Section Engine.

(** The state of the user's own tables: what the migration actions act on. *)
Variable U : Type.

(** ** Migrations *)

(** [(db) => Promise<void>]: the action changes the schema and resolves or
    rejects. *)
Definition Action : Type := U → (Exn + unit) * U.

Record Migration := {
  up : Action;
  down : option Action
}.

Record NamedMigration := {
  name : string;
  base :> Migration
}.

(** What [import(file)] yields: an object that may or may not have an [up]
    and a [down] function. *)
Record Module := {
  module_up : option Action;
  module_down : option Action
}.

Definition isMigration (obj : Module) : option Migration :=
  match module_up obj with
  | Some u => Some {| up := u; down := module_down obj |}
  | None => None
  end.

Inductive MigrationsOrFolderPath :=
  | Migrations (allMigrations : gmap string Migration)
  | FolderPath (migrationsFolderPath : string).

Record MigrationState := {
  migrations : list NamedMigration;
  currentIndex : Z
}.

(** ** The world *)

Record World := {
  ledger : list LedgerRow;
  schema : U;
  tables : list string;
  lockRow : bool;
  locked : bool;
  trace : list Event
}.

Definition set_ledger (l : list LedgerRow) (w : World) : World :=
  {| ledger := l; schema := schema w; tables := tables w;
     lockRow := lockRow w; locked := locked w; trace := trace w |}.
Definition set_schema (s : U) (w : World) : World :=
  {| ledger := ledger w; schema := s; tables := tables w;
     lockRow := lockRow w; locked := locked w; trace := trace w |}.
Definition set_tables (t : list string) (w : World) : World :=
  {| ledger := ledger w; schema := schema w; tables := t;
     lockRow := lockRow w; locked := locked w; trace := trace w |}.
Definition set_lockRow (b : bool) (w : World) : World :=
  {| ledger := ledger w; schema := schema w; tables := tables w;
     lockRow := b; locked := locked w; trace := trace w |}.
Definition set_locked (b : bool) (w : World) : World :=
  {| ledger := ledger w; schema := schema w; tables := tables w;
     lockRow := lockRow w; locked := b; trace := trace w |}.
Definition log (op : Op) (ok : bool) (w : World) : World :=
  {| ledger := ledger w; schema := schema w; tables := tables w;
     lockRow := lockRow w; locked := locked w;
     trace := trace w ++ [(op, ok)] |}.

(** ** The environment

    Everything the engine does not decide: the adapter's capability, which
    calls to the database fail ([fault], asked with the number of calls
    logged so far and the call about to be made), whether a failed creation
    lost a race against another process that created the object ([raced]),
    the clock, and the file system. *)
Record Env := {
  supportsTransactionalDdl : bool;
  fault : nat → Op → option Exn;
  raced : nat → bool;
  clock : nat → string;
  readdir : string → Exn + list string;
  import_ : string → Exn + Module
}.

Variable env : Env.

(** ** The monad: [await], [throw], [try] *)

Definition M (E A : Type) : Type := World → (E + A) * World.

Definition ret {E A} (a : A) : M E A := λ w, (inr a, w).
Definition throw {E A} (e : E) : M E A := λ w, (inl e, w).
Definition bind {E A B} (m : M E A) (k : A → M E B) : M E B :=
  λ w, match m w with
       | (inr a, w') => k a w'
       | (inl e, w') => (inl e, w')
       end.
(** [try { m } catch (error) { handler }] *)
Definition tryCatch {E E' A} (m : M E A) (handler : E → M E' A) : M E' A :=
  λ w, match m w with
       | (inr a, w') => (inr a, w')
       | (inl e, w') => handler e w'
       end.
(** [try { m } finally { fin }]: a [fin] that throws replaces the outcome
    of [m], be it a value or an exception. *)
Definition tryFinally {E A} (m : M E A) (fin : M E unit) : M E A :=
  λ w, match m w with
       | (r, w') =>
           match fin w' with
           | (inr _, w'') => (r, w'')
           | (inl e, w'') => (inl e, w'')
           end
       end.
(** An ordinary error seen from where result-set errors can travel too. *)
Definition liftExn {A} (m : M Exn A) : M Thrown A :=
  λ w, match m w with
       | (inr a, w') => (inr a, w')
       | (inl e, w') => (inl (ThrowExn e), w')
       end.
Definition liftPure {A} (r : Exn + A) : M Exn A := λ w, (r, w).

Notation "'do' x <- m ; k" := (bind m (λ x, k))
  (at level 20, x name, m at level 100, k at level 200, only parsing).
Notation "m ;; k" := (bind m (λ _, k))
  (at level 100, k at level 200, right associativity, only parsing).

(** ** Primitive calls *)

(** A call to the database or the adapter.  It is logged; it fails when
    the environment says so, and then has no effect. *)
Definition perform {A} (op : Op) (effect : World → A * World) : M Exn A :=
  λ w, match fault env (length (trace w)) op with
       | Some e => (inl e, log op false w)
       | None => let '(a, w') := effect w in (inr a, log op true w')
       end.

(** A creation that other processes may attempt at the same time: when it
    fails, the object may exist all the same. *)
Definition performCreation (op : Op) (effect : World → World) : M Exn unit :=
  λ w, let n := length (trace w) in
       match fault env n op with
       | Some e => (inl e, log op false (if raced env n then effect w else w))
       | None => (inr tt, log op true (effect w))
       end.

(** A call that cannot fail. *)
Definition note {E} (op : Op) (effect : World → World) : M E unit :=
  λ w, (inr tt, log op true (effect w)).

(** [await migration.up(db)] resp. [await migration.down(db)]. *)
Definition runAction (op : Op) (action : Action) : M Exn unit :=
  λ w, let '(r, s) := action (schema w) in
       (r, log op (is_inr r) (set_schema s w)).

(** [adapter.acquireMigrationLock(db)], [adapter.releaseMigrationLock(db)] *)
Definition acquireMigrationLock (db : Db) : M Exn unit :=
  perform (OpAcquireMigrationLock db) (λ w, (tt, set_locked true w)).
Definition releaseMigrationLock (db : Db) : M Exn unit :=
  perform (OpReleaseMigrationLock db) (λ w, (tt, set_locked false w)).

(** [db.insertInto(MIGRATION_TABLE).values({name, timestamp}).execute()];
    [name] is the primary key of the table. *)
Definition insertRecord (db : Db) (migration : string) : M Exn unit :=
  λ w, if bool_decide (migration ∈ row_name <$> ledger w)
       then (inl (Failure "duplicate key"),
             log (OpInsertRecord db migration) false w)
       else perform (OpInsertRecord db migration)
              (λ w, (tt, set_ledger
                           (ledger w ++
                              [{| row_name := migration;
                                  row_timestamp := clock env (length (trace w)) |}])
                           w)) w.

(** [db.deleteFrom(MIGRATION_TABLE).where('name', '=', name).execute()] *)
Definition deleteRecord (db : Db) (migration : string) : M Exn unit :=
  perform (OpDeleteRecord db migration)
    (λ w, (tt, set_ledger
                 (filter (λ row, row_name row ≠ migration) (ledger w)) w)).

(** ** Execution contexts *)

(** Modelled from the spec: [Kysely.transaction().execute] is not among the
    sources.  The whole plan runs inside one database transaction; on any
    failure the ledger updates and the schema changes of the batch are
    rolled back together, leaving both as they were before the call. *)
Definition transaction_execute {A} (run : Db → M Thrown A) : M Thrown A :=
  λ w, match perform OpBeginTransaction (λ w, (tt, w)) w with
       | (inl e, w1) => (inl (ThrowExn e), w1)
       | (inr _, w1) =>
           let rollback w' := set_ledger (ledger w) (set_schema (schema w) w') in
           match run TransactionDb w1 with
           | (inr a, w2) =>
               match perform OpCommit (λ w, (tt, w)) w2 with
               | (inr _, w3) => (inr a, w3)
               | (inl e, w3) => (inl (ThrowExn e), rollback w3)
               end
           | (inl t, w2) => (inl t, log OpRollback true (rollback w2))
           end
       end.

(** Modelled from the spec: [Kysely.connection().execute] is not among the
    sources.  The same sequence runs on a single reserved connection
    without a transaction wrapper; what was applied stays applied. *)
Definition connection_execute {A} (run : Db → M Thrown A) : M Thrown A :=
  liftExn (perform OpAcquireConnection (λ w, (tt, w))) ;;
  tryFinally (run ConnectionDb) (note OpReleaseConnection (λ w, w)).

(** ** Bootstrap of the two tables and the lock row *)

Definition doesTableExists (tableName : string) : M Exn bool :=
  perform OpGetMetadata (λ w, (bool_decide (tableName ∈ tables w), w)).

Definition doesLockRowExists : M Exn bool :=
  perform OpSelectLockRow (λ w, (lockRow w, w)).

(** [createTable(t).ifNotExists()....execute()] *)
Definition createTable (tableName : string) : M Exn unit :=
  performCreation (OpCreateTable tableName)
    (λ w, if bool_decide (tableName ∈ tables w) then w
          else set_tables (tables w ++ [tableName]) w).

(** [insertInto(MIGRATION_LOCK_TABLE).values({ id: MIGRATION_LOCK_ID })] *)
Definition insertLockRow : M Exn unit :=
  performCreation OpInsertLockRow (set_lockRow true).

Definition ensureTableExists (tableName : string) : M Exn unit :=
  do existing <- doesTableExists tableName;
  if negb existing then
    tryCatch (createTable tableName)
      (λ error,
        do existing' <- doesTableExists tableName;
        if negb existing' then throw error else ret tt)
  else ret tt.

Definition ensureMigrationTableExists : M Exn unit :=
  ensureTableExists MIGRATION_TABLE.

Definition ensureMigrationLockTableExists : M Exn unit :=
  ensureTableExists MIGRATION_LOCK_TABLE.

Definition ensureLockRowExists : M Exn unit :=
  do existing <- doesLockRowExists;
  if negb existing then
    tryCatch insertLockRow
      (λ error,
        do existing' <- doesLockRowExists;
        if negb existing' then throw error else ret tt)
  else ret tt.

Definition ensureMigrationTablesExists : M Exn unit :=
  ensureMigrationTableExists ;;
  ensureMigrationLockTableExists ;;
  ensureLockRowExists.

(** ** Migration source *)

Definition readdirM (folder : string) : M Exn (list string) :=
  λ w, let r := readdir env folder in (r, log (OpReaddir folder) (is_inr r) w).

Definition importM (file : string) : M Exn Module :=
  λ w, let r := import_ env file in (r, log (OpImport file) (is_inr r) w).

(** The [for (const file of files)] loop of [#readMigrationsFromFolder]. *)
Fixpoint readMigrationFiles (migrationsFolderPath : string)
    (files : list string) (migrations : gmap string Migration)
    : M Exn (gmap string Migration) :=
  match files with
  | [] => ret migrations
  | file :: files' =>
      if (endsWith file ".js" || endsWith file ".ts")
         && negb (endsWith file ".d.ts")
      then
        do migration <- importM (path_join migrationsFolderPath file);
        match isMigration migration with
        | Some m =>
            readMigrationFiles migrationsFolderPath files'
              (<[String.substring 0 (String.length file - 3) file := m]>
                 migrations)
        | None => readMigrationFiles migrationsFolderPath files' migrations
        end
      else readMigrationFiles migrationsFolderPath files' migrations
  end.

Definition readMigrationsFromFolder (migrationsFolderPath : string)
    : M Exn (gmap string Migration) :=
  do files <- readdirM migrationsFolderPath;
  readMigrationFiles migrationsFolderPath files ∅.

(** [Object.keys(allMigrations).sort()]: the default sort compares strings
    code unit by code unit, [String.le] byte by byte. *)
Definition sortedKeys (allMigrations : gmap string Migration) : list string :=
  merge_sort String.le (map_to_list allMigrations).*1.

Definition resolveMigrations (migrationsOrFolderPath : MigrationsOrFolderPath)
    : M Exn (list NamedMigration) :=
  do allMigrations <-
    match migrationsOrFolderPath with
    | FolderPath p => readMigrationsFromFolder p
    | Migrations m => ret m
    end;
  ret (omap (λ name,
               (λ m, {| name := name; base := m |}) <$> allMigrations !! name)
         (sortedKeys allMigrations)).

(** ** Planner *)

(** [select name from kysely_migration order by name]: the database is
    taken to order names as [sort()] does. *)
Definition getExecutedMigrations (db : Db) : M Exn (list string) :=
  perform (OpSelectExecuted db)
    (λ w, (merge_sort String.le (row_name <$> ledger w), w)).

(** First loop of [#ensureMigrationsNotCorrupted]. *)
Fixpoint ensureExecutedExist (migrations : list NamedMigration)
    (executedMigrations : list string) : Exn + unit :=
  match executedMigrations with
  | [] => inr tt
  | executed :: rest =>
      if existsb (λ it, bool_decide (name it = executed)) migrations
      then ensureExecutedExist migrations rest
      else inl (CorruptedMissing executed)
  end.

(** Second loop: [rest] is [executedMigrations] from index [i] on. *)
Fixpoint ensureExecutedFirst (migrations : list NamedMigration)
    (i : nat) (rest : list string) : Exn + unit :=
  match rest with
  | [] => inr tt
  | executed :: rest' =>
      match migrations !! i with
      | None => inl TypeError
      | Some m =>
          if bool_decide (name m ≠ executed)
          then inl (CorruptedOrder executed i (name m))
          else ensureExecutedFirst migrations (S i) rest'
      end
  end.

Definition ensureMigrationsNotCorrupted (migrations : list NamedMigration)
    (executedMigrations : list string) : Exn + unit :=
  match ensureExecutedExist migrations executedMigrations with
  | inl e => inl e
  | inr _ => ensureExecutedFirst migrations 0 executedMigrations
  end.

Definition getState (db : Db) (migrationsOrFolderPath : MigrationsOrFolderPath)
    : M Exn MigrationState :=
  do migrations <- resolveMigrations migrationsOrFolderPath;
  do executedMigrations <- getExecutedMigrations db;
  liftPure (ensureMigrationsNotCorrupted migrations executedMigrations) ;;
  ret {| migrations := migrations;
         currentIndex :=
           findIndex (λ it, bool_decide (Some (name it) = getLast executedMigrations))
             migrations |}.

(** ** Executor *)

(** [for (let i = 0; i < results.length; ++i)], the indices given as a
    list. *)
Fixpoint forEachIndex {R} (step : nat → R → M Thrown R) (indices : list nat)
    (results : R) : M Thrown R :=
  match indices with
  | [] => ret results
  | i :: indices' =>
      do results' <- step i results;
      forEachIndex step indices' results'
  end.

(** The loop that fills [results] in [#migrateDown],
    [for (let i = currentIndex; i > targetIndex; --i)]: [n] turns, from
    index [i] downwards.  Reading [.name] of a missing entry throws. *)
Fixpoint planDown (migrations : list NamedMigration) (i : Z) (n : nat)
    : Exn + list MigrationResult :=
  match n with
  | O => inr []
  | S n' =>
      match at_index migrations i with
      | None => inl TypeError
      | Some m =>
          match planDown migrations (i - 1) n' with
          | inl e => inl e
          | inr rest =>
              inr ({| migrationName := name m; direction := Down;
                      status := NotExecuted |} :: rest)
          end
      end
  end.

(** The loop that fills [results] in [#migrateUp],
    [for (let i = currentIndex + 1; i <= targetIndex; ++i)]: [n] turns,
    from index [i] upwards. *)
Fixpoint planUp (migrations : list NamedMigration) (i : Z) (n : nat)
    : Exn + list MigrationResult :=
  match n with
  | O => inr []
  | S n' =>
      match at_index migrations i with
      | None => inl TypeError
      | Some m =>
          match planUp migrations (i + 1) n' with
          | inl e => inl e
          | inr rest =>
              inr ({| migrationName := name m; direction := Up;
                      status := NotExecuted |} :: rest)
          end
      end
  end.

Definition findMigration (migrations : list NamedMigration) (n : string)
    : option NamedMigration :=
  find (λ it, bool_decide (name it = n)) migrations.

(** One turn of the second loop of [#migrateDown]. *)
Definition downStep (db : Db) (state : MigrationState) (i : nat)
    (results : list MigrationResult) : M Thrown (list MigrationResult) :=
  match results !! i with
  | None => throw (ThrowExn TypeError)
  | Some r =>
      match findMigration (migrations state) (migrationName r) with
      | None => throw (ThrowExn TypeError)
      | Some migration =>
          tryCatch
            (match down migration with
             | Some action =>
                 runAction (OpDown db (name migration)) action ;;
                 deleteRecord db (name migration) ;;
                 ret (<[i := {| migrationName := name migration;
                                direction := Down; status := Success |}]>
                        results)
             | None => ret results
             end)
            (λ error,
              throw (MigrationResultSetError
                       {| error := Some error;
                          results :=
                            Some (<[i := {| migrationName := name migration;
                                            direction := Down;
                                            status := Error |}]> results) |}))
      end
  end.

Definition private_migrateDown (db : Db) (state : MigrationState)
    (targetIndex : Z) : M Thrown MigrationResultSet :=
  do results <-
    liftExn (liftPure (planDown (migrations state) (currentIndex state)
                         (Z.to_nat (currentIndex state - targetIndex))));
  do results' <-
    forEachIndex (downStep db state) (seq 0 (length results)) results;
  ret {| error := None; results := Some results' |}.

(** One turn of the second loop of [#migrateUp]. *)
Definition upStep (db : Db) (state : MigrationState) (i : nat)
    (results : list MigrationResult) : M Thrown (list MigrationResult) :=
  match results !! i with
  | None => throw (ThrowExn TypeError)
  | Some r =>
      match findMigration (migrations state) (migrationName r) with
      | None => throw (ThrowExn TypeError)
      | Some migration =>
          tryCatch
            (runAction (OpUp db (name migration)) (up migration) ;;
             insertRecord db (name migration) ;;
             ret (<[i := {| migrationName := name migration;
                            direction := Up; status := Success |}]> results))
            (λ error,
              throw (MigrationResultSetError
                       {| error := Some error;
                          results :=
                            Some (<[i := {| migrationName := name migration;
                                            direction := Up;
                                            status := Error |}]> results) |}))
      end
  end.

Definition private_migrateUp (db : Db) (state : MigrationState)
    (targetIndex : Z) : M Thrown MigrationResultSet :=
  do results <-
    liftExn (liftPure (planUp (migrations state) (currentIndex state + 1)
                         (Z.to_nat (targetIndex - currentIndex state))));
  do results' <-
    forEachIndex (upStep db state) (seq 0 (length results)) results;
  ret {| error := None; results := Some results' |}.

(** ** Mode dispatch *)

(** [getTargetMigration]: a number, [undefined], or a [throw]. *)
Definition GetTarget : Type := MigrationState → Exn + option Z.

(** The [try] of [run] from the emptiness test on: what is done once the
    state is known. *)
Definition dispatch (getTargetMigration : GetTarget) (db : Db)
    (state : MigrationState) : M Thrown MigrationResultSet :=
  if bool_decide (length (migrations state) = 0%nat) then
    ret {| error := None; results := Some [] |}
  else
    do targetIndex <- liftExn (liftPure (getTargetMigration state));
    match targetIndex with
    | None => ret {| error := None; results := Some [] |}
    | Some targetIndex =>
        if targetIndex <? currentIndex state then
          private_migrateDown db state targetIndex
        else if targetIndex >? currentIndex state then
          private_migrateUp db state targetIndex
        else ret {| error := None; results := Some [] |}
    end.

(** The body of the [try] in [run]. *)
Definition runLocked (migrationsOrFolderPath : MigrationsOrFolderPath)
    (getTargetMigration : GetTarget) (db : Db) : M Thrown MigrationResultSet :=
  liftExn (acquireMigrationLock db) ;;
  do state <- liftExn (getState db migrationsOrFolderPath);
  dispatch getTargetMigration db state.

Definition run (migrationsOrFolderPath : MigrationsOrFolderPath)
    (getTargetMigration : GetTarget) (db : Db) : M Thrown MigrationResultSet :=
  tryFinally (runLocked migrationsOrFolderPath getTargetMigration db)
    (liftExn (releaseMigrationLock db)).

Definition runMigrations (migrationsOrFolderPath : MigrationsOrFolderPath)
    (getTargetMigration : GetTarget) : M Thrown MigrationResultSet :=
  if supportsTransactionalDdl env
  then transaction_execute (run migrationsOrFolderPath getTargetMigration)
  else connection_execute (run migrationsOrFolderPath getTargetMigration).

(** The [catch] of [#migrate], and the plain [return] of its [try]. *)
Definition toResultSet (outcome : Thrown + MigrationResultSet)
    : MigrationResultSet :=
  match outcome with
  | inr resultSet => resultSet
  | inl (MigrationResultSetError resultSet) => resultSet
  | inl (ThrowExn e) => {| error := Some e; results := None |}
  end.

(** [#migrate]: the [catch] turns whatever was thrown into a result set, so
    the operation is a function from worlds to a result set and a world. *)
Definition migrate (migrationsOrFolderPath : MigrationsOrFolderPath)
    (getTargetMigration : GetTarget) (w : World) : MigrationResultSet * World :=
  let '(outcome, w') :=
    (liftExn ensureMigrationTablesExists ;;
     runMigrations migrationsOrFolderPath getTargetMigration) w in
  (toResultSet outcome, w').

(** ** The four targets and the public operations *)

Definition latestTarget : GetTarget :=
  λ state, inr (Some (Z.of_nat (length (migrations state)) - 1)).

Definition namedTarget (targetMigrationName : Target) : GetTarget :=
  λ state,
    match targetMigrationName with
    | NO_MIGRATIONS => inr (Some (-1))
    | TargetName n =>
        let index :=
          findIndex (λ it, bool_decide (name it = n)) (migrations state) in
        if index =? -1 then inl (MigrationDoesNotExist n)
        else inr (Some index)
    end.

Definition upTarget : GetTarget :=
  λ state, inr (Some (Z.min (currentIndex state + 1)
                        (Z.of_nat (length (migrations state)) - 1))).

Definition downTarget : GetTarget :=
  λ state, inr (Some (Z.max (currentIndex state - 1) (-1))).

Definition migrateToLatest (migrationsOrFolderPath : MigrationsOrFolderPath)
    : World → MigrationResultSet * World :=
  migrate migrationsOrFolderPath latestTarget.

Definition migrateTo (migrationsOrFolderPath : MigrationsOrFolderPath)
    (targetMigrationName : Target) : World → MigrationResultSet * World :=
  migrate migrationsOrFolderPath (namedTarget targetMigrationName).

Definition migrateUp (migrationsOrFolderPath : MigrationsOrFolderPath)
    : World → MigrationResultSet * World :=
  migrate migrationsOrFolderPath upTarget.

Definition migrateDown (migrationsOrFolderPath : MigrationsOrFolderPath)
    : World → MigrationResultSet * World :=
  migrate migrationsOrFolderPath downTarget.

(** ** Vocabulary of the statements *)

(** The calls that make up a migration step. *)
Definition is_step (op : Op) : bool :=
  match op with
  | OpUp _ _ | OpDown _ _ | OpInsertRecord _ _ | OpDeleteRecord _ _ => true
  | _ => false
  end.

Definition is_acquire (op : Op) : bool :=
  match op with
  | OpAcquireMigrationLock _ => true
  | _ => false
  end.

Definition is_bootstrap (op : Op) : bool :=
  match op with
  | OpGetMetadata | OpCreateTable _ | OpSelectLockRow | OpInsertLockRow => true
  | _ => false
  end.

(** The calls of [transaction().execute] and [connection().execute]. *)
Definition is_context (op : Op) : bool :=
  match op with
  | OpBeginTransaction | OpCommit | OpRollback
  | OpAcquireConnection | OpReleaseConnection => true
  | _ => false
  end.

(** The calls of [#getState]. *)
Definition is_planning (op : Op) : bool :=
  match op with
  | OpReaddir _ | OpImport _ | OpSelectExecuted _ => true
  | _ => false
  end.

(** The calls made outside the locked scope. *)
Definition is_outer (op : Op) : bool := is_bootstrap op || is_context op.

(** Lifts a class of calls to the entries of the log. *)
Definition on (f : Op → bool) : Event → Prop := λ ev, f ev.1 = true.

Definition is_corruption (e : Exn) : bool :=
  match e with
  | CorruptedMissing _ | CorruptedOrder _ _ _ => true
  | _ => false
  end.

(** [w'] is [w] after some more calls, all of them in [P]. *)
Definition emits (P : Event → Prop) (w w' : World) : Prop :=
  ∃ evs, trace w' = trace w ++ evs ∧ Forall P evs.

(** The calls logged between [w] and a later [w']. *)
Definition new_events (w w' : World) : list Event :=
  drop (length (trace w)) (trace w').

(** Neither the ledger nor the user's schema differ. *)
Definition untouched (w w' : World) : Prop :=
  ledger w' = ledger w ∧ schema w' = schema w.

(** A computation relates every world to the one it leaves behind. *)
Definition steps {E A} (R : relation World) (m : M E A) : Prop :=
  ∀ w, R w (m w).2.

(** The outcome of a computation does not depend on the world. *)
Definition world_blind {E A} (m : M E A) : Prop :=
  ∀ w w', (m w).1 = (m w').1.

(** Whenever the computation throws, it has logged a failed call. *)
Definition accountable {E A} (m : M E A) : Prop :=
  ∀ w, emits (λ _, True) w (m w).2 ∧
       (is_inr (m w).1 = false → ∃ op, (op, false) ∈ new_events w (m w).2).

(** The state [#getState] builds from the resolved migrations and the
    executed names. *)
Definition stateOf (resolved : list NamedMigration)
    (executedMigrations : list string) : MigrationState :=
  {| migrations := resolved;
     currentIndex :=
       findIndex (λ it, bool_decide (Some (name it) = getLast executedMigrations))
         resolved |}.

(** The names in the ledger as [#getExecutedMigrations] returns them. *)
Definition executedNames (w : World) : list string :=
  merge_sort String.le (row_name <$> ledger w).

(** [{error}] with no [results] field. *)
Definition plain_error (rs : MigrationResultSet) : Prop :=
  ∃ e, rs = {| error := Some e; results := None |}.

(** Planning, as far as it can be told before the run: the errors it ends
    in, if any. *)
Definition planning_error (migrationsOrFolderPath : MigrationsOrFolderPath)
    (getTargetMigration : GetTarget) (w : World) (e : Exn) : Prop :=
  ∃ ms, (resolveMigrations migrationsOrFolderPath w).1 = inr ms ∧
    (ensureMigrationsNotCorrupted ms (executedNames w) = inl e ∨
     (ensureMigrationsNotCorrupted ms (executedNames w) = inr tt ∧
      ms ≠ [] ∧ getTargetMigration (stateOf ms (executedNames w)) = inl e)).

Definition planning_done (migrationsOrFolderPath : MigrationsOrFolderPath)
    (getTargetMigration : GetTarget) (w : World) : Prop :=
  ∃ ms, (resolveMigrations migrationsOrFolderPath w).1 = inr ms ∧
    ensureMigrationsNotCorrupted ms (executedNames w) = inr tt ∧
    (ms = [] ∨ is_inr (getTargetMigration (stateOf ms (executedNames w))) = true).

(** Nothing to do: whenever planning gets as far as a target index, it is
    the current index. *)
Definition no_delta (migrationsOrFolderPath : MigrationsOrFolderPath)
    (getTargetMigration : GetTarget) (w : World) : Prop :=
  ∀ ms, (resolveMigrations migrationsOrFolderPath w).1 = inr ms →
    ensureMigrationsNotCorrupted ms (executedNames w) = inr tt →
    ms ≠ [] →
    match getTargetMigration (stateOf ms (executedNames w)) with
    | inr (Some t) => t = currentIndex (stateOf ms (executedNames w))
    | _ => True
    end.

Definition empty_results : MigrationResultSet :=
  {| error := None; results := Some [] |}.

(** The public operations, by mode. *)
Inductive Mode := Latest | To (targetMigrationName : Target) | StepUp | StepDown.

Definition operation (mode : Mode)
    (migrationsOrFolderPath : MigrationsOrFolderPath)
    : World → MigrationResultSet * World :=
  match mode with
  | Latest => migrateToLatest migrationsOrFolderPath
  | To target => migrateTo migrationsOrFolderPath target
  | StepUp => migrateUp migrationsOrFolderPath
  | StepDown => migrateDown migrationsOrFolderPath
  end.

(** The target function each mode hands to [#migrate]. *)
Definition targetOf (mode : Mode) : GetTarget :=
  match mode with
  | Latest => latestTarget
  | To target => namedTarget target
  | StepUp => upTarget
  | StepDown => downTarget
  end.

(** ** Scenarios *)

(** An action that resolves and one that rejects, both leaving the schema
    alone. *)
Definition succeed : Action := λ u, (inr tt, u).
Definition failWith (e : Exn) : Action := λ u, (inl e, u).

Definition reversible : Migration := {| up := succeed; down := Some succeed |}.
Definition irreversible : Migration := {| up := succeed; down := None |}.
Definition broken (e : Exn) : Migration :=
  {| up := failWith e; down := Some succeed |}.

(** An environment in which no call faults, and one in which a single
    class of calls does. *)
Definition quiet_env (transactional : bool) : Env :=
  {| supportsTransactionalDdl := transactional;
     fault := λ _ _, None;
     raced := λ _, false;
     clock := λ _, "2021-06-01T12:00:00.000Z";
     readdir := λ _, inl (Failure "ENOENT");
     import_ := λ _, inl (Failure "MODULE_NOT_FOUND") |}.

Definition faulty_env (transactional : bool) (faulty : Op → bool) (e : Exn)
    : Env :=
  {| supportsTransactionalDdl := transactional;
     fault := λ _ op, if faulty op then Some e else None;
     raced := λ _, false;
     clock := λ _, "2021-06-01T12:00:00.000Z";
     readdir := λ _, inl (Failure "ENOENT");
     import_ := λ _, inl (Failure "MODULE_NOT_FOUND") |}.

Definition is_release (op : Op) : bool :=
  match op with
  | OpReleaseMigrationLock _ => true
  | _ => false
  end.

(** A database on which no migration has run, and one whose ledger holds
    the given names. *)
Definition world_with (executed : list string) (u0 : U) : World :=
  {| ledger := (λ n, {| row_name := n;
                        row_timestamp := "2021-05-01T12:00:00.000Z" |})
               <$> executed;
     schema := u0;
     tables := [MIGRATION_TABLE; MIGRATION_LOCK_TABLE];
     lockRow := true;
     locked := false;
     trace := [] |}.

Definition fresh_world (u0 : U) : World :=
  {| ledger := []; schema := u0; tables := []; lockRow := false;
     locked := false; trace := [] |}.

(** No call fails by the environment's doing. *)
Definition fault_free : Prop := ∀ n op, fault env n op = None.

(** The shape of a partial result list: one failing step, nothing failed
    before it, nothing attempted after it. *)
Definition truncated (l : list MigrationResult) : Prop :=
  ∃ done r later,
    l = done ++ r :: later ∧ status r = Error ∧
    Forall (λ x, status x ≠ Error) done ∧
    Forall (λ x, status x = NotExecuted) later.

(** A step call that completed. *)
Definition completed_step : Event → Prop :=
  λ ev, is_step ev.1 = true ∧ ev.2 = true.

(** What one turn of an executor loop may do to [results] and the world:
    complete and overwrite entry [i] with a status other than [Error];
    give up before any call; or fail in a step call and throw the result
    set with entry [i] marked [Error]. *)
Definition step_ok
    (step : nat → list MigrationResult → M Thrown (list MigrationResult))
    : Prop :=
  ∀ i results w,
    match step i results w with
    | (inr results', w') =>
        emits completed_step w w' ∧
        ∃ x, results' = <[i:=x]> results ∧
             (status x ≠ Error ∨ results !! i = Some x)
    | (inl (ThrowExn e), w') => w' = w
    | (inl (MigrationResultSetError rs), w') =>
        emits (on is_step) w w' ∧
        (∃ op, (op, false) ∈ new_events w w') ∧
        ∃ e x, rs = {| error := Some e;
                       results := Some (<[i:=x]> results) |} ∧
               status x = Error ∧ (i < length results)%nat
    end.

(** An entry of the log that is not a failed step call. *)
Definition no_failed_step : Event → Prop :=
  λ ev, is_step ev.1 = true → ev.2 = true.

(** How what the locked scope returns or throws relates to the calls it
    made: a result-set error exactly when a step call failed, and then
    with a truncated result list. *)
Definition outcome_spec (evs : list Event)
    (outcome : Thrown + MigrationResultSet) : Prop :=
  match outcome with
  | inr rs =>
      Forall no_failed_step evs ∧ error rs = None ∧ is_Some (results rs)
  | inl (ThrowExn e) => Forall no_failed_step evs
  | inl (MigrationResultSetError rs) =>
      (∃ op, is_step op = true ∧ (op, false) ∈ evs) ∧
      ∃ e l, rs = {| error := Some e; results := Some l |} ∧ truncated l
  end.

(** The result list an executor loop leaves, returned or thrown. *)
Definition loopResults (outcome : Thrown + list MigrationResult)
    : option (list MigrationResult) :=
  match outcome with
  | inr l => Some l
  | inl (MigrationResultSetError rs) => results rs
  | inl (ThrowExn _) => None
  end.

(** Every successful acquisition is followed by a release on the same
    handle. *)
Fixpoint lock_released (evs : list Event) : Prop :=
  match evs with
  | [] => True
  | (OpAcquireMigrationLock db, true) :: rest =>
      (∃ ok, (OpReleaseMigrationLock db, ok) ∈ rest) ∧ lock_released rest
  | _ :: rest => lock_released rest
  end.

(** The same operation called [n] times in a row. *)
Fixpoint callTimes (operation : World → MigrationResultSet * World) (n : nat)
    (w : World) : list MigrationResultSet * World :=
  match n with
  | O => ([], w)
  | S n' =>
      let '(r, w') := operation w in
      let '(rs, w'') := callTimes operation n' w' in
      (r :: rs, w'')
  end.

(** ** Vocabulary of the further properties *)

(** The files [#readMigrationsFromFolder] imports: [.js] or [.ts], but not
    [.d.ts]. *)
Definition isMigrationFile (file : string) : bool :=
  (endsWith file ".js" || endsWith file ".ts") && negb (endsWith file ".d.ts").

(** The key a file's migration is stored under:
    [file.substring(0, file.length - 3)]. *)
Definition migrationKey (file : string) : string :=
  String.substring 0 (String.length file - 3) file.

(** The entry of the log an [import] of a file of the folder leaves. *)
Definition importEvent (env : Env) (migrationsFolderPath file : string)
    : Event :=
  (OpImport (path_join migrationsFolderPath file),
   is_inr (import_ env (path_join migrationsFolderPath file))).

(** The tables and the lock row only ever come into existence. *)
Definition grows (w w' : World) : Prop :=
  (∀ t, t ∈ tables w → t ∈ tables w') ∧
  (lockRow w = true → lockRow w' = true).

(** A call that creates a table or the lock row. *)
Definition is_creation (op : Op) : bool :=
  match op with
  | OpCreateTable _ | OpInsertLockRow => true
  | _ => false
  end.

(** The handle a call of the locked scope is issued on. *)
Definition handle (op : Op) : option Db :=
  match op with
  | OpAcquireMigrationLock db | OpReleaseMigrationLock db
  | OpSelectExecuted db
  | OpUp db _ | OpDown db _ | OpInsertRecord db _ | OpDeleteRecord db _ =>
      Some db
  | _ => None
  end.

(** A call of the locked scope: a planning or step call which, if it
    names a handle, is issued on [db]. *)
Definition scoped (db : Db) (ev : Event) : Prop :=
  (is_planning ev.1 = true ∨ is_step ev.1 = true) ∧
  ∀ d, handle ev.1 = Some d → d = db.

(** The planned range of an up run and of a down run, by name: the
    migrations after the current one up to the target, and the migrations
    from the current one back to the one after the target. *)
Definition upRange (state : MigrationState) (targetIndex : Z) : list string :=
  take (Z.to_nat (targetIndex - currentIndex state))
    (drop (Z.to_nat (currentIndex state + 1)) (name <$> migrations state)).

Definition downRange (state : MigrationState) (targetIndex : Z)
    : list string :=
  reverse (take (Z.to_nat (currentIndex state - targetIndex))
             (drop (Z.to_nat (targetIndex + 1)) (name <$> migrations state))).

(** The results of a list of migration names, all of one direction and one
    status. *)
Definition resultsOf (d : Direction) (s : Status) (names : list string)
    : list MigrationResult :=
  (λ n, {| migrationName := n; direction := d; status := s |}) <$> names.

(** Whether the migration of that name has a [down]. *)
Definition canRevert (migrations : list NamedMigration) (n : string)
    : bool :=
  match findMigration migrations n with
  | Some m => match down m with Some _ => true | None => false end
  | None => false
  end.

(** The result of a migration a down run got past: [Success] when it has a
    [down], the planned [NotExecuted] when it has none. *)
Definition downResult (migrations : list NamedMigration) (n : string)
    : MigrationResult :=
  {| migrationName := n; direction := Down;
     status := if canRevert migrations n then Success else NotExecuted |}.

(** The names, among those a down run got past, whose records it
    deleted. *)
Definition reverted (migrations : list NamedMigration)
    (names : list string) : list string :=
  filter (λ n, canRevert migrations n = true) names.

(** Every [up] resolves, whatever the schema; every migration has a [down]
    and it resolves. *)
Definition ups_succeed (migrations : list NamedMigration) : Prop :=
  ∀ (m : NamedMigration) u, m ∈ migrations → (up m u).1 = inr tt.

Definition downs_succeed (migrations : list NamedMigration) : Prop :=
  ∀ m : NamedMigration, m ∈ migrations →
    ∃ action, down m = Some action ∧ ∀ u, (action u).1 = inr tt.

(** ** Further scenarios *)

(** An environment in which every creation of the bootstrap fails, another
    process having created the object in the meantime. *)
Definition racing_env : Env :=
  {| supportsTransactionalDdl := false;
     fault := λ _ op, if is_creation op then Some (Failure "already exists")
                      else None;
     raced := λ _, true;
     clock := λ _, "2021-06-01T12:00:00.000Z";
     readdir := λ _, inl (Failure "ENOENT");
     import_ := λ _, inl (Failure "MODULE_NOT_FOUND") |}.

(** A folder with two migrations, a declaration file, a module that is no
    migration and a file that is no module. *)
Definition folder_env : Env :=
  {| supportsTransactionalDdl := false;
     fault := λ _ _, None;
     raced := λ _, false;
     clock := λ _, "2021-06-01T12:00:00.000Z";
     readdir := λ _, inr ["001_init.ts"; "001_init.d.ts"; "README.md";
                          "002_users.js"; "helpers.js"];
     import_ := λ file,
       if endsWith file "helpers.js"
       then inr {| module_up := None; module_down := None |}
       else inr {| module_up := Some succeed;
                   module_down := Some succeed |} |}.

End Engine.

Arguments isMigration {U}.
Arguments set_ledger {U}.
Arguments set_schema {U}.
Arguments set_tables {U}.
Arguments set_lockRow {U}.
Arguments set_locked {U}.
Arguments log {U}.
Arguments ret {U E A}.
Arguments throw {U E A}.
Arguments bind {U E A B}.
Arguments tryCatch {U E E' A}.
Arguments tryFinally {U E A}.
Arguments liftExn {U A}.
Arguments liftPure {U A}.
Arguments perform {U} env {A}.
Arguments performCreation {U}.
Arguments note {U E}.
Arguments runAction {U}.
Arguments acquireMigrationLock {U}.
Arguments releaseMigrationLock {U}.
Arguments insertRecord {U}.
Arguments deleteRecord {U}.
Arguments transaction_execute {U} env {A}.
Arguments connection_execute {U} env {A}.
Arguments doesTableExists {U}.
Arguments doesLockRowExists {U}.
Arguments createTable {U}.
Arguments insertLockRow {U}.
Arguments ensureTableExists {U}.
Arguments ensureMigrationTableExists {U}.
Arguments ensureMigrationLockTableExists {U}.
Arguments ensureLockRowExists {U}.
Arguments ensureMigrationTablesExists {U}.
Arguments readdirM {U}.
Arguments importM {U}.
Arguments readMigrationFiles {U}.
Arguments readMigrationsFromFolder {U}.
Arguments sortedKeys {U}.
Arguments resolveMigrations {U}.
Arguments getExecutedMigrations {U}.
Arguments ensureExecutedExist {U}.
Arguments ensureExecutedFirst {U}.
Arguments ensureMigrationsNotCorrupted {U}.
Arguments getState {U}.
Arguments forEachIndex {U R}.
Arguments planDown {U}.
Arguments planUp {U}.
Arguments findMigration {U}.
Arguments downStep {U}.
Arguments private_migrateDown {U}.
Arguments upStep {U}.
Arguments private_migrateUp {U}.
Arguments runLocked {U}.
Arguments run {U}.
Arguments runMigrations {U}.
Arguments migrate {U}.
Arguments fresh_world {U}.
Arguments world_with {U}.
Arguments faulty_env {U}.
Arguments quiet_env {U}.
Arguments broken {U}.
Arguments irreversible {U}.
Arguments reversible {U}.
Arguments failWith {U}.
Arguments succeed {U}.
Arguments planning_error {U}.
Arguments planning_done {U}.
Arguments no_delta {U}.
Arguments operation {U}.
Arguments targetOf {U}.
Arguments accountable {U E A}.
Arguments step_ok {U}.
Arguments dispatch {U}.
Arguments world_blind {U E A}.
Arguments stateOf {U}.
Arguments executedNames {U}.
Arguments latestTarget {U}.
Arguments namedTarget {U}.
Arguments upTarget {U}.
Arguments downTarget {U}.
Arguments migrateToLatest {U}.
Arguments migrateTo {U}.
Arguments migrateUp {U}.
Arguments migrateDown {U}.
Arguments emits {U}.
Arguments new_events {U}.
Arguments untouched {U}.
Arguments steps {U E A}.
Arguments fault_free {U}.
Arguments callTimes {U}.
Arguments up {U}.
Arguments down {U}.
Arguments name {U}.
Arguments base {U}.
Arguments module_up {U}.
Arguments module_down {U}.
Arguments migrations {U}.
Arguments currentIndex {U}.
Arguments ledger {U}.
Arguments schema {U}.
Arguments tables {U}.
Arguments lockRow {U}.
Arguments locked {U}.
Arguments trace {U}.
Arguments supportsTransactionalDdl {U}.
Arguments fault {U}.
Arguments raced {U}.
Arguments clock {U}.
Arguments readdir {U}.
Arguments import_ {U}.
Arguments Migrations {U}.
Arguments FolderPath {U}.
Arguments Build_Migration {U}.
Arguments Build_NamedMigration {U}.
Arguments Build_Module {U}.
Arguments Build_MigrationState {U}.
Arguments Build_World {U}.
Arguments Build_Env {U}.
Arguments importEvent {U}.
Arguments grows {U}.
Arguments upRange {U}.
Arguments downRange {U}.
Arguments canRevert {U}.
Arguments downResult {U}.
Arguments reverted {U}.
Arguments ups_succeed {U}.
Arguments downs_succeed {U}.
Arguments racing_env {U}.
Arguments folder_env {U}.

Notation "'do' x <- m ; k" := (bind m (λ x, k))
  (at level 20, x name, m at level 100, k at level 200, only parsing).
Notation "m ;; k" := (bind m (λ _, k))
  (at level 100, k at level 200, right associativity, only parsing).

(** * Proofs *)

(** ** The monad and world relations *)

Section Proofs.

Context {U : Type} (env : Env U).

Section Steps.
Context (R : relation (World U)) `{!PreOrder R}.

Lemma steps_ret {E A} (a : A) : steps R (ret (U:=U) (E:=E) a).
Proof. intros w. reflexivity. Qed.

Lemma steps_throw {E A} (e : E) : steps R (throw (U:=U) (A:=A) e).
Proof. intros w. reflexivity. Qed.

Lemma steps_bind {E A B} (m : M U E A) (k : A → M U E B) :
  steps R m → (∀ a, steps R (k a)) → steps R (bind m k).
Proof.
  intros Hm Hk w. unfold bind. specialize (Hm w).
  destruct (m w) as [[e|a] w']; simpl in *; [done|].
  etrans; [exact Hm | apply Hk].
Qed.

Lemma steps_tryCatch {E E' A} (m : M U E A) (h : E → M U E' A) :
  steps R m → (∀ e, steps R (h e)) → steps R (tryCatch m h).
Proof.
  intros Hm Hh w. unfold tryCatch. specialize (Hm w).
  destruct (m w) as [[e|a] w']; simpl in *; [|done].
  etrans; [exact Hm | apply Hh].
Qed.

End Steps.

Ltac s_ret := apply steps_ret; apply _.
Ltac s_throw := apply steps_throw; apply _.
Ltac s_bind := apply steps_bind; [apply _ | | ].
Ltac s_catch := apply steps_tryCatch; [apply _ | | ].

Global Instance emits_preorder (P : Event → Prop) : PreOrder (emits (U:=U) P).
Proof.
  split.
  - intros w. exists []. by rewrite app_nil_r.
  - intros w1 w2 w3 (e1 & H1 & F1) (e2 & H2 & F2). exists (e1 ++ e2).
    rewrite H2, H1, app_assoc. split; [done | by apply Forall_app].
Qed.

Global Instance untouched_preorder : PreOrder (untouched (U:=U)).
Proof.
  split.
  - by intros w.
  - intros w1 w2 w3 [H1 H2] [H3 H4]. split; congruence.
Qed.

Lemma emits_mono (P Q : Event → Prop) (w w' : World U) :
  (∀ ev, P ev → Q ev) → emits P w w' → emits Q w w'.
Proof.
  intros HPQ (evs & Ht & HF). exists evs. split; [done|].
  eapply Forall_impl; eauto.
Qed.

Lemma emits_new_events P (w w' : World U) :
  emits P w w' ↔ trace w' = trace w ++ new_events w w' ∧ Forall P (new_events w w').
Proof.
  unfold new_events. split.
  - intros (evs & -> & HF). by rewrite drop_app_length.
  - intros [Ht HF]. eexists; eauto.
Qed.

Lemma emits_log P op ok (w w1 : World U) :
  trace w1 = trace w → P (op, ok) → emits P w (log op ok w1).
Proof.
  intros Ht HP. exists [(op, ok)]. simpl. rewrite Ht.
  split; [done | by constructor].
Qed.

(** ** Lemmas on the primitive calls *)

Lemma perform_emits {A} (P : Event → Prop) op (effect : World U → A * World U) :
  P (op, true) → P (op, false) → (∀ w, trace (effect w).2 = trace w) →
  steps (emits P) (perform env op effect).
Proof.
  intros Ht Hf He w. unfold perform.
  destruct (fault env _ op); simpl; [by apply emits_log|].
  specialize (He w). destruct (effect w) as [a w1]; simpl in *.
  exists [(op, true)]. simpl. rewrite He. split; [done | by constructor].
Qed.

Lemma perform_untouched {A} op (effect : World U → A * World U) :
  (∀ w, untouched w (effect w).2) → steps untouched (perform env op effect).
Proof.
  intros He w. unfold perform. destruct (fault env _ op); simpl; [done|].
  specialize (He w). by destruct (effect w) as [a w1].
Qed.

Lemma performCreation_emits (P : Event → Prop) op (effect : World U → World U) :
  P (op, true) → P (op, false) → (∀ w, trace (effect w) = trace w) →
  steps (emits P) (performCreation env op effect).
Proof.
  intros Ht Hf He w. unfold performCreation.
  destruct (fault env _ op); simpl.
  - exists [(op, false)]. simpl. split; [|by constructor].
    destruct (raced env _); by rewrite ?He.
  - exists [(op, true)]. simpl. rewrite He. split; [done | by constructor].
Qed.

Lemma performCreation_untouched op (effect : World U → World U) :
  (∀ w, untouched w (effect w)) → steps untouched (performCreation env op effect).
Proof.
  intros He w. unfold performCreation.
  destruct (fault env _ op); simpl; [|apply He].
  destruct (raced env _); [apply He | done].
Qed.

(** ** Bootstrap *)

Lemma ensureTableExists_emits t :
  steps (emits (on is_bootstrap)) (ensureTableExists env t).
Proof.
  unfold ensureTableExists, doesTableExists, createTable.
  s_bind; [by apply perform_emits|]. intros [].
  - s_ret.
  - s_catch.
    + apply performCreation_emits; [done..|]. intros w. by case_bool_decide.
    + intros e. s_bind; [by apply perform_emits|].
      intros []; [s_ret | s_throw].
Qed.

Lemma ensureTableExists_untouched t :
  steps untouched (ensureTableExists env t).
Proof.
  unfold ensureTableExists, doesTableExists, createTable.
  s_bind; [by apply perform_untouched|]. intros [].
  - s_ret.
  - s_catch.
    + apply performCreation_untouched. intros w. by case_bool_decide.
    + intros e. s_bind; [by apply perform_untouched|].
      intros []; [s_ret | s_throw].
Qed.

Lemma ensureLockRowExists_emits :
  steps (emits (on is_bootstrap)) (ensureLockRowExists env).
Proof.
  unfold ensureLockRowExists, doesLockRowExists, insertLockRow.
  s_bind; [by apply perform_emits|]. intros [].
  - s_ret.
  - s_catch.
    + by apply performCreation_emits.
    + intros e. s_bind; [by apply perform_emits|].
      intros []; [s_ret | s_throw].
Qed.

Lemma ensureLockRowExists_untouched :
  steps untouched (ensureLockRowExists env).
Proof.
  unfold ensureLockRowExists, doesLockRowExists, insertLockRow.
  s_bind; [by apply perform_untouched|]. intros [].
  - s_ret.
  - s_catch.
    + by apply performCreation_untouched.
    + intros e. s_bind; [by apply perform_untouched|].
      intros []; [s_ret | s_throw].
Qed.

Lemma ensureMigrationTablesExists_emits :
  steps (emits (on is_bootstrap)) (ensureMigrationTablesExists env).
Proof.
  unfold ensureMigrationTablesExists.
  s_bind; [apply ensureTableExists_emits|]. intros _.
  s_bind; [apply ensureTableExists_emits|]. intros _.
  apply ensureLockRowExists_emits.
Qed.

Lemma ensureMigrationTablesExists_untouched :
  steps untouched (ensureMigrationTablesExists env).
Proof.
  unfold ensureMigrationTablesExists.
  s_bind; [apply ensureTableExists_untouched|]. intros _.
  s_bind; [apply ensureTableExists_untouched|]. intros _.
  apply ensureLockRowExists_untouched.
Qed.

(** ** The executor loops *)

Lemma new_events_app (w w' : World U) evs :
  trace w' = trace w ++ evs → new_events w w' = evs.
Proof. intros H. unfold new_events. rewrite H. apply drop_app_length. Qed.

Lemma new_events_trans P Q (w1 w2 w3 : World U) :
  emits P w1 w2 → emits Q w2 w3 →
  new_events w1 w3 = new_events w1 w2 ++ new_events w2 w3.
Proof.
  intros (e1 & H1 & _) (e2 & H2 & _).
  rewrite (new_events_app w1 w2 e1), (new_events_app w2 w3 e2) by done.
  apply new_events_app. by rewrite H2, H1, app_assoc.
Qed.

Lemma completed_is_step ev : completed_step ev → on is_step ev.
Proof. by intros [? _]. Qed.

Lemma upStep_ok db state : step_ok (upStep env db state).
Proof.
  intros i results w. unfold upStep.
  destruct (results !! i) as [r|] eqn:Hi; [|done].
  destruct (findMigration _ _) as [m|]; [|done].
  apply lookup_lt_Some in Hi.
  unfold tryCatch, bind, runAction.
  destruct (up m (schema w)) as [[e|[]] s]; simpl.
  { split; [by apply (emits_log (on is_step))|].
    split; [|by eauto 10].
    exists (OpUp db (name m)). erewrite new_events_app; [|done]. by repeat constructor. }
  unfold insertRecord. case_bool_decide; simpl.
  { split; [|split; [|by eauto 10]].
    - exists [(OpUp db (name m), true); (OpInsertRecord db (name m), false)].
      simpl. rewrite <-app_assoc. split; [done | by repeat constructor].
    - exists (OpInsertRecord db (name m)).
      erewrite new_events_app; [|simpl; by rewrite <-app_assoc]. by repeat constructor. }
  unfold perform. simpl. destruct (fault env _ _); simpl.
  { split; [|split; [|by eauto 10]].
    - exists [(OpUp db (name m), true); (OpInsertRecord db (name m), false)].
      simpl. rewrite <-app_assoc. split; [done | by repeat constructor].
    - exists (OpInsertRecord db (name m)).
      erewrite new_events_app; [|simpl; by rewrite <-app_assoc]. by repeat constructor. }
  split; [|by eauto].
  exists [(OpUp db (name m), true); (OpInsertRecord db (name m), true)].
  simpl. rewrite <-app_assoc. split; [done | by repeat constructor].
Qed.

Lemma downStep_ok db state : step_ok (downStep env db state).
Proof.
  intros i results w. unfold downStep.
  destruct (results !! i) as [r|] eqn:Hi; [|done].
  destruct (findMigration _ _) as [m|]; [|done].
  unfold tryCatch, bind. destruct (down m) as [action|]; simpl.
  2:{ split; [reflexivity|]. exists r. rewrite list_insert_id by done. auto. }
  apply lookup_lt_Some in Hi. unfold runAction.
  destruct (action (schema w)) as [[e|[]] s]; simpl.
  { split; [by apply (emits_log (on is_step))|].
    split; [|by eauto 10].
    exists (OpDown db (name m)). erewrite new_events_app; [|done]. by repeat constructor. }
  unfold deleteRecord, perform. simpl. destruct (fault env _ _); simpl.
  { split; [|split; [|by eauto 10]].
    - exists [(OpDown db (name m), true); (OpDeleteRecord db (name m), false)].
      simpl. rewrite <-app_assoc. split; [done | by repeat constructor].
    - exists (OpDeleteRecord db (name m)).
      erewrite new_events_app; [|simpl; by rewrite <-app_assoc]. by repeat constructor. }
  split; [|by eauto].
  exists [(OpDown db (name m), true); (OpDeleteRecord db (name m), true)].
  simpl. rewrite <-app_assoc. split; [done | by repeat constructor].
Qed.

Lemma truncated_insert (results : list MigrationResult) i x :
  (i < length results)%nat → status x = Error →
  (∀ j y, (j < i)%nat → results !! j = Some y → status y ≠ Error) →
  (∀ j y, (i ≤ j)%nat → results !! j = Some y → status y = NotExecuted) →
  truncated (<[i:=x]> results).
Proof.
  intros Hi Hx Hpre Hpost.
  exists (take i results), x, (drop (S i) results).
  split; [by apply insert_take_drop|]. split; [done|]. split.
  - apply Forall_lookup. intros j y [Hy Hj]%lookup_take_Some. eauto.
  - apply Forall_lookup. intros j y Hy. rewrite lookup_drop in Hy.
    eapply Hpost; [|done]. lia.
Qed.

Lemma forEachIndex_outcome step n :
  step_ok step →
  ∀ i results (w : World U),
    (∀ j y, (j < i)%nat → results !! j = Some y → status y ≠ Error) →
    (∀ j y, (i ≤ j)%nat → results !! j = Some y → status y = NotExecuted) →
    match forEachIndex step (seq i n) results w with
    | (inr results', w') =>
        emits completed_step w w' ∧ length results' = length results ∧
        Forall (λ x, status x ≠ Error) results'
    | (inl (ThrowExn e), w') => emits completed_step w w'
    | (inl (MigrationResultSetError rs), w') =>
        emits (on is_step) w w' ∧
        (∃ op, (op, false) ∈ new_events w w') ∧
        ∃ e l, rs = {| error := Some e; results := Some l |} ∧ truncated l
    end.
Proof.
  intros Hs. induction n as [|n IH]; intros i results w Hpre Hpost; simpl.
  { split; [reflexivity|]. split; [done|].
    apply Forall_lookup. intros j y Hy.
    destruct (decide (j < i)%nat); [by eauto|].
    erewrite Hpost; [done| |done]. lia. }
  unfold bind. specialize (Hs i results w).
  destruct (step i results w) as [[[e|rs]|results1] w1].
  - subst w1. reflexivity.
  - destruct Hs as (He & Hf & e & x & -> & Hx & Hi).
    split; [done|]. split; [done|]. eexists e, _. split; [done|].
    by apply truncated_insert.
  - destruct Hs as (He & x & -> & Hx).
    assert (∀ j y, (j < S i)%nat → <[i:=x]> results !! j = Some y →
                   status y ≠ Error) as Hpre1.
    { intros j y Hj Hy. destruct (decide (j = i)) as [->|Hne].
      - destruct Hx as [Hx|Hx].
        + apply list_lookup_insert_Some in Hy as [(_ & <- & _)|[? _]]; done.
        + rewrite list_insert_id in Hy by done.
          erewrite Hpost; [done| |done]. lia.
      - rewrite list_lookup_insert_ne in Hy by done. eapply Hpre; [|done]. lia. }
    assert (∀ j y, (S i ≤ j)%nat → <[i:=x]> results !! j = Some y →
                   status y = NotExecuted) as Hpost1.
    { intros j y Hj Hy. rewrite list_lookup_insert_ne in Hy by lia.
      eapply Hpost; [|done]. lia. }
    specialize (IH (S i) _ w1 Hpre1 Hpost1).
    destruct (forEachIndex step (seq (S i) n) (<[i:=x]> results) w1)
      as [[[e|rs]|results2] w2].
    + by etrans.
    + destruct IH as (He2 & (op & Hop) & Hrs). split.
      { etrans; [|done]. eapply emits_mono; [apply completed_is_step | done]. }
      split; [|done]. exists op.
      rewrite (new_events_trans _ _ w w1 w2 He He2). apply elem_of_app. by right.
    + destruct IH as (He2 & Hlen & HF). split; [by etrans|].
      split; [|done]. by rewrite Hlen, length_insert.
Qed.

Lemma planUp_NotExecuted (ms : list (NamedMigration U)) n : ∀ i l,
  planUp ms i n = inr l → Forall (λ x, status x = NotExecuted) l.
Proof.
  induction n as [|n IH]; intros i l; simpl.
  - intros [= <-]. constructor.
  - destruct (at_index ms i); [|done].
    destruct (planUp ms (i + 1) n) eqn:Hp; [done|].
    intros [= <-]. constructor; [done | by eapply IH].
Qed.

Lemma planDown_NotExecuted (ms : list (NamedMigration U)) n : ∀ i l,
  planDown ms i n = inr l → Forall (λ x, status x = NotExecuted) l.
Proof.
  induction n as [|n IH]; intros i l; simpl.
  - intros [= <-]. constructor.
  - destruct (at_index ms i); [|done].
    destruct (planDown ms (i - 1) n) eqn:Hp; [done|].
    intros [= <-]. constructor; [done | by eapply IH].
Qed.

Lemma completed_no_failed ev : completed_step ev → no_failed_step ev.
Proof. by intros [_ ?] _. Qed.

Lemma emits_new_Forall P (w w' : World U) :
  emits P w w' → Forall P (new_events w w').
Proof. intros H. by apply emits_new_events in H as [_ ?]. Qed.

Lemma executor_outcome step (results : list MigrationResult) (w : World U) :
  step_ok step → Forall (λ x, status x = NotExecuted) results →
  let r :=
    (do results' <- forEachIndex step (seq 0 (length results)) results;
     ret {| error := None; results := Some results' |}) w in
  emits (on is_step) w r.2 ∧ outcome_spec (new_events w r.2) r.1.
Proof.
  intros Hs HF. unfold bind.
  pose proof (forEachIndex_outcome step (length results) Hs 0%nat results w)
    as H.
  ospecialize* H.
  { intros j y ?. lia. }
  { intros j y _ Hy. eapply Forall_lookup_1 in HF; [exact HF | exact Hy]. }
  destruct (forEachIndex step _ results w) as [[[e|rs]|results'] w']; simpl.
  - split.
    + eapply emits_mono; [apply completed_is_step | done].
    + eapply Forall_impl; [by apply emits_new_Forall|].
      apply completed_no_failed.
  - destruct H as (He & (op & Hop) & Hrs).
    split; [done|]. split; [|done]. exists op. split; [|done].
    apply emits_new_Forall in He. rewrite Forall_forall in He.
    apply (He _ Hop).
  - destruct H as (He & Hlen & HF').
    split.
    + eapply emits_mono; [apply completed_is_step | done].
    + split; [|by eauto].
      eapply Forall_impl; [by apply emits_new_Forall|].
      apply completed_no_failed.
Qed.

Lemma private_migrateUp_eq db state targetIndex (w : World U) :
  private_migrateUp env db state targetIndex w =
  match planUp (migrations state) (currentIndex state + 1)
          (Z.to_nat (targetIndex - currentIndex state)) with
  | inl e => (inl (ThrowExn e), w)
  | inr results =>
      (do results' <-
         forEachIndex (upStep env db state) (seq 0 (length results)) results;
       ret {| error := None; results := Some results' |}) w
  end.
Proof.
  unfold private_migrateUp. unfold bind at 1. unfold liftExn, liftPure.
  by destruct (planUp _ _ _).
Qed.

Lemma private_migrateDown_eq db state targetIndex (w : World U) :
  private_migrateDown env db state targetIndex w =
  match planDown (migrations state) (currentIndex state)
          (Z.to_nat (currentIndex state - targetIndex)) with
  | inl e => (inl (ThrowExn e), w)
  | inr results =>
      (do results' <-
         forEachIndex (downStep env db state) (seq 0 (length results)) results;
       ret {| error := None; results := Some results' |}) w
  end.
Proof.
  unfold private_migrateDown. unfold bind at 1. unfold liftExn, liftPure.
  by destruct (planDown _ _ _).
Qed.

Lemma dispatch_eq g db state (w : World U) :
  dispatch env g db state w =
  if bool_decide (length (migrations state) = 0%nat)
  then (inr {| error := None; results := Some [] |}, w)
  else
    match g state with
    | inl e => (inl (ThrowExn e), w)
    | inr None => (inr {| error := None; results := Some [] |}, w)
    | inr (Some targetIndex) =>
        if targetIndex <? currentIndex state
        then private_migrateDown env db state targetIndex w
        else if targetIndex >? currentIndex state
        then private_migrateUp env db state targetIndex w
        else (inr {| error := None; results := Some [] |}, w)
    end.
Proof.
  unfold dispatch. case_bool_decide; [done|].
  unfold bind, liftExn, liftPure.
  destruct (g state) as [e|[t|]]; [done| |done].
  by repeat case_match.
Qed.

Lemma outcome_still (w : World U) (t : Thrown + MigrationResultSet) :
  outcome_spec [] t →
  emits (on is_step) w (t, w).2 ∧ outcome_spec (new_events w (t, w).2) (t, w).1.
Proof.
  intros H. split; [reflexivity|]. simpl. unfold new_events.
  by rewrite drop_all.
Qed.

Lemma private_migrateUp_outcome db state targetIndex (w : World U) :
  let r := private_migrateUp env db state targetIndex w in
  emits (on is_step) w r.2 ∧ outcome_spec (new_events w r.2) r.1.
Proof.
  rewrite private_migrateUp_eq.
  destruct (planUp _ _ _) as [e|results] eqn:Hp.
  - apply outcome_still. constructor.
  - apply executor_outcome; [apply upStep_ok | by eapply planUp_NotExecuted].
Qed.

Lemma private_migrateDown_outcome db state targetIndex (w : World U) :
  let r := private_migrateDown env db state targetIndex w in
  emits (on is_step) w r.2 ∧ outcome_spec (new_events w r.2) r.1.
Proof.
  rewrite private_migrateDown_eq.
  destruct (planDown _ _ _) as [e|results] eqn:Hp.
  - apply outcome_still. constructor.
  - apply executor_outcome; [apply downStep_ok | by eapply planDown_NotExecuted].
Qed.

Lemma dispatch_outcome g db state (w : World U) :
  let r := dispatch env g db state w in
  emits (on is_step) w r.2 ∧ outcome_spec (new_events w r.2) r.1.
Proof.
  rewrite dispatch_eq.
  case_bool_decide; [apply outcome_still; by repeat split; eauto|].
  destruct (g state) as [e|[t|]].
  - apply outcome_still. constructor.
  - destruct (t <? currentIndex state);
      [apply private_migrateDown_outcome|].
    destruct (t >? currentIndex state);
      [apply private_migrateUp_outcome|].
    apply outcome_still; by repeat split; eauto.
  - apply outcome_still; by repeat split; eauto.
Qed.

(** ** Accountable computations *)

Lemma emits_True P (w w' : World U) : emits P w w' → emits (λ _, True) w w'.
Proof. by apply emits_mono. Qed.

Lemma failed_later P (w1 w2 w3 : World U) op :
  emits (λ _, True) w1 w2 → emits P w2 w3 →
  (op, false) ∈ new_events w2 w3 → (op, false) ∈ new_events w1 w3.
Proof.
  intros H1 H2 Hop. rewrite (new_events_trans _ _ w1 w2 w3 H1 H2).
  apply elem_of_app. by right.
Qed.

Lemma failed_earlier P (w1 w2 w3 : World U) op :
  emits (λ _, True) w1 w2 → emits P w2 w3 →
  (op, false) ∈ new_events w1 w2 → (op, false) ∈ new_events w1 w3.
Proof.
  intros H1 H2 Hop. rewrite (new_events_trans _ _ w1 w2 w3 H1 H2).
  apply elem_of_app. by left.
Qed.

Lemma accountable_ret {E A} (a : A) : accountable (ret (U:=U) (E:=E) a).
Proof. intros w. split; [reflexivity | done]. Qed.

Lemma accountable_bind {E A B} (m : M U E A) (k : A → M U E B) :
  accountable m → (∀ a, accountable (k a)) → accountable (bind m k).
Proof.
  intros Hm Hk w. unfold bind. destruct (Hm w) as [He Hf].
  destruct (m w) as [[e|a] w1]; simpl in *; [by split; auto|].
  destruct (Hk a w1) as [He' Hf']. split; [by etrans|].
  intros Hi. destruct (Hf' Hi) as [op Hop]. exists op.
  by eapply failed_later.
Qed.

Lemma accountable_tryCatch {E E' A} (m : M U E A) (h : E → M U E' A) :
  accountable m → (∀ e, steps (emits (λ _, True)) (h e)) →
  accountable (tryCatch m h).
Proof.
  intros Hm Hh w. unfold tryCatch. destruct (Hm w) as [He Hf].
  destruct (m w) as [[e|a] w1]; simpl in *; [|by split].
  split; [etrans; [done | apply Hh]|].
  intros _. destruct Hf as [op Hop]; [done|]. exists op.
  eapply failed_earlier; [done | apply Hh | done].
Qed.

Lemma accountable_perform {A} op (effect : World U → A * World U) :
  (∀ w, trace (effect w).2 = trace w) → accountable (perform env op effect).
Proof.
  intros He w. split; [by apply perform_emits|].
  unfold perform. destruct (fault env _ op); simpl.
  - intros _. exists op. erewrite new_events_app; [|done]. by left.
  - specialize (He w). by destruct (effect w).
Qed.

Lemma accountable_performCreation op (effect : World U → World U) :
  (∀ w, trace (effect w) = trace w) → accountable (performCreation env op effect).
Proof.
  intros He w. split; [by apply performCreation_emits|].
  unfold performCreation. destruct (fault env _ op); simpl; [|done].
  intros _. exists op. erewrite new_events_app; [by left|].
  simpl. destruct (raced env _); by rewrite ?He.
Qed.

Lemma ensureTableExists_accountable t : accountable (ensureTableExists env t).
Proof.
  unfold ensureTableExists, doesTableExists, createTable.
  apply accountable_bind; [by apply accountable_perform|]. intros [].
  - apply accountable_ret.
  - apply accountable_tryCatch.
    + apply accountable_performCreation. intros w. by case_bool_decide.
    + intros e. s_bind; [by apply perform_emits|].
      intros []; [s_ret | s_throw].
Qed.

Lemma ensureLockRowExists_accountable : accountable (ensureLockRowExists env).
Proof.
  unfold ensureLockRowExists, doesLockRowExists, insertLockRow.
  apply accountable_bind; [by apply accountable_perform|]. intros [].
  - apply accountable_ret.
  - apply accountable_tryCatch.
    + by apply accountable_performCreation.
    + intros e. s_bind; [by apply perform_emits|].
      intros []; [s_ret | s_throw].
Qed.

Lemma ensureMigrationTablesExists_accountable :
  accountable (ensureMigrationTablesExists env).
Proof.
  unfold ensureMigrationTablesExists.
  apply accountable_bind; [apply ensureTableExists_accountable|]. intros _.
  apply accountable_bind; [apply ensureTableExists_accountable|]. intros _.
  apply ensureLockRowExists_accountable.
Qed.

(** ** Migration source *)

Lemma readdirM_emits folder :
  steps (emits (on is_planning)) (readdirM env folder).
Proof. intros w. unfold readdirM. by apply emits_log. Qed.

Lemma importM_emits file : steps (emits (on is_planning)) (importM env file).
Proof. intros w. unfold importM. by apply emits_log. Qed.

Lemma readMigrationFiles_emits folder files : ∀ ms,
  steps (emits (on is_planning)) (readMigrationFiles env folder files ms).
Proof.
  induction files as [|file files IH]; intros ms; simpl; [s_ret|].
  destruct (_ && _); [|apply IH].
  s_bind; [apply importM_emits|]. intros obj.
  destruct (isMigration obj); apply IH.
Qed.

Lemma resolveMigrations_emits input :
  steps (emits (on is_planning)) (resolveMigrations env input).
Proof.
  unfold resolveMigrations. s_bind; [|intros ?; s_ret].
  destruct input; [s_ret|].
  unfold readMigrationsFromFolder. s_bind; [apply readdirM_emits|].
  intros files. apply readMigrationFiles_emits.
Qed.

Lemma readMigrationFiles_untouched folder files : ∀ ms,
  steps untouched (readMigrationFiles env folder files ms).
Proof.
  induction files as [|file files IH]; intros ms; simpl; [s_ret|].
  destruct (_ && _); [|apply IH].
  s_bind; [by intros w|]. intros obj.
  destruct (isMigration obj); apply IH.
Qed.

Lemma resolveMigrations_untouched input :
  steps untouched (resolveMigrations env input).
Proof.
  unfold resolveMigrations. s_bind; [|intros ?; s_ret].
  destruct input; [s_ret|].
  unfold readMigrationsFromFolder. s_bind; [by intros w|].
  intros files. apply readMigrationFiles_untouched.
Qed.

Lemma blind_bind {E A B} (m : M U E A) (k : A → M U E B) :
  world_blind m → (∀ a, world_blind (k a)) → world_blind (bind m k).
Proof.
  intros Hm Hk w w'. unfold bind. specialize (Hm w w').
  destruct (m w) as [[e|a] w1], (m w') as [[e'|a'] w1']; simplify_eq/=;
    [done|]. apply Hk.
Qed.

Lemma readMigrationFiles_blind folder files : ∀ ms,
  world_blind (readMigrationFiles env folder files ms).
Proof.
  induction files as [|file files IH]; intros ms; simpl; [done|].
  destruct (_ && _); [|apply IH].
  apply blind_bind; [done|]. intros obj.
  destruct (isMigration obj); apply IH.
Qed.

Lemma resolveMigrations_blind input : world_blind (resolveMigrations env input).
Proof.
  unfold resolveMigrations. apply blind_bind; [|done].
  destruct input; [done|].
  unfold readMigrationsFromFolder. apply blind_bind; [done|].
  intros files. apply readMigrationFiles_blind.
Qed.

Lemma accountable_logged {A} op (r : Exn + A) :
  accountable (λ w : World U, (r, log op (is_inr r) w)).
Proof.
  intros w. simpl. split; [by apply emits_log|].
  intros ->. exists op. erewrite new_events_app; [|done]. by left.
Qed.

Lemma readMigrationFiles_accountable folder files : ∀ ms,
  accountable (readMigrationFiles env folder files ms).
Proof.
  induction files as [|file files IH]; intros ms; simpl;
    [apply accountable_ret|].
  destruct (_ && _); [|apply IH].
  apply accountable_bind; [apply accountable_logged|]. intros obj.
  destruct (isMigration obj); apply IH.
Qed.

Lemma resolveMigrations_accountable input :
  accountable (resolveMigrations env input).
Proof.
  unfold resolveMigrations.
  apply accountable_bind; [|intros ?; apply accountable_ret].
  destruct input; [apply accountable_ret|].
  unfold readMigrationsFromFolder.
  apply accountable_bind; [apply accountable_logged|].
  intros files. apply readMigrationFiles_accountable.
Qed.

(** ** The locked scope *)

Lemma runLocked_eq db input g (w : World U) :
  runLocked env input g db w =
  match fault env (length (trace w)) (OpAcquireMigrationLock db) with
  | Some e => (inl (ThrowExn e), log (OpAcquireMigrationLock db) false w)
  | None =>
      match resolveMigrations env input
              (log (OpAcquireMigrationLock db) true (set_locked true w)) with
      | (inl e, w2) => (inl (ThrowExn e), w2)
      | (inr ms, w2) =>
          match fault env (length (trace w2)) (OpSelectExecuted db) with
          | Some e => (inl (ThrowExn e), log (OpSelectExecuted db) false w2)
          | None =>
              match ensureMigrationsNotCorrupted ms (executedNames w2) with
              | inl e => (inl (ThrowExn e), log (OpSelectExecuted db) true w2)
              | inr _ =>
                  dispatch env g db (stateOf ms (executedNames w2))
                    (log (OpSelectExecuted db) true w2)
              end
          end
      end
  end.
Proof.
  unfold runLocked, getState, getExecutedMigrations, acquireMigrationLock.
  unfold bind, liftExn, liftPure, perform, ret. simpl.
  destruct (fault env (length (trace w)) _); [done|].
  destruct (resolveMigrations env input _) as [[e|ms] w2]; [done|].
  destruct (fault env (length (trace w2)) _); [done|].
  unfold executedNames, stateOf. simpl.
  by destruct (ensureMigrationsNotCorrupted ms _) as [e|[]].
Qed.

Lemma outcome_spec_prefix pre evs t :
  Forall (λ ev : Event, is_step ev.1 = false) pre →
  outcome_spec evs t → outcome_spec (pre ++ evs) t.
Proof.
  intros Hpre.
  assert (Forall no_failed_step pre) as Hno.
  { eapply Forall_impl; [done|]. intros ev H1 H2. congruence. }
  destruct t as [[e|rs]|rs]; simpl.
  - intros ?. by apply Forall_app.
  - intros [(op & ? & ?) ?]. split; [|done]. exists op. split; [done|].
    apply elem_of_app. by right.
  - intros (? & ? & ?). split; [by apply Forall_app | done].
Qed.

Lemma runLocked_report db input g (w : World U) :
  let r := runLocked env input g db w in
  ∃ okA rest,
    trace r.2 = trace w ++ (OpAcquireMigrationLock db, okA) :: rest ∧
    Forall (λ ev, is_planning ev.1 = true ∨ is_step ev.1 = true) rest ∧
    outcome_spec rest r.1.
Proof.
  rewrite runLocked_eq.
  destruct (fault env (length (trace w)) _).
  { exists false, []. simpl. by repeat split. }
  set (w1 := log _ true _).
  pose proof (resolveMigrations_emits input w1) as (evs & Ht & Hevs).
  assert (Forall (λ ev : Event, is_step ev.1 = false) evs) as Hns.
  { eapply Forall_impl; [done|]. by intros [[] ?]. }
  assert (Forall (λ ev : Event, is_planning ev.1 = true ∨ is_step ev.1 = true)
            evs) as Hpl.
  { eapply Forall_impl; [exact Hevs|]. intros ev ?. by left. }
  destruct (resolveMigrations env input w1) as [[e|ms] w2]; simpl in *.
  { exists true, evs. rewrite Ht. simpl. rewrite <-app_assoc.
    repeat split; [done|]. eapply Forall_impl; [exact Hns|].
    intros ev H1 H2. congruence. }
  destruct (fault env (length (trace w2)) _).
  { exists true, (evs ++ [(OpSelectExecuted db, false)]). simpl.
    rewrite Ht. simpl. rewrite <-!app_assoc. repeat split.
    - apply Forall_app. split; [done|]. repeat constructor.
    - apply Forall_app. split; [|by repeat constructor].
      eapply Forall_impl; [exact Hns|]. intros ev H1 H2. congruence. }
  destruct (ensureMigrationsNotCorrupted ms _) as [e|[]].
  { exists true, (evs ++ [(OpSelectExecuted db, true)]). simpl.
    rewrite Ht. simpl. rewrite <-!app_assoc. repeat split.
    - apply Forall_app. split; [done|]. repeat constructor.
    - apply Forall_app. split; [|by repeat constructor].
      eapply Forall_impl; [exact Hns|]. intros ev H1 H2. congruence. }
  set (w3 := log _ true w2).
  destruct (dispatch_outcome g db (stateOf ms (executedNames w2)) w3)
    as [He Ho].
  apply emits_new_events in He as [Ht3 HF3].
  exists true, ((evs ++ [(OpSelectExecuted db, true)]) ++
                new_events w3 (dispatch env g db (stateOf ms (executedNames w2)) w3).2).
  split; [|split].
  - rewrite Ht3. subst w3. simpl. rewrite Ht. simpl.
    by rewrite <-!app_assoc.
  - apply Forall_app. split.
    + apply Forall_app. split; [done|]. repeat constructor.
    + eapply Forall_impl; [exact HF3|]. intros ev ?. by right.
  - apply outcome_spec_prefix; [|done].
    apply Forall_app. split; [done | by repeat constructor].
Qed.

(** ** The public boundary *)

Lemma run_eq input g db (w : World U) :
  run env input g db w =
  let '(r0, w2) := runLocked env input g db w in
  match fault env (length (trace w2)) (OpReleaseMigrationLock db) with
  | Some e => (inl (ThrowExn e), log (OpReleaseMigrationLock db) false w2)
  | None => (r0, log (OpReleaseMigrationLock db) true (set_locked false w2))
  end.
Proof.
  unfold run, tryFinally, liftExn, releaseMigrationLock, perform.
  destruct (runLocked env input g db w) as [r0 w2].
  by destruct (fault env _ _).
Qed.

Lemma runMigrations_report input g (wb : World U) o w' :
  runMigrations env input g wb = (o, w') →
  (∃ e opB, o = inl (ThrowExn e) ∧ untouched wb w' ∧
            trace w' = trace wb ++ [(opB, false)] ∧ is_context opB = true)
  ∨
  (∃ db opB okR post r0 w2,
     runLocked env input g db (log opB true wb) = (r0, w2) ∧
     is_context opB = true ∧
     trace w' = trace w2 ++ (OpReleaseMigrationLock db, okR) :: post ∧
     Forall (on is_context) post ∧
     ((okR = true ∧ ((OpCommit, false) ∉ post) ∧ o = r0) ∨
      ((okR = false ∨ (OpCommit, false) ∈ post ∧ is_inr r0 = true) ∧
       ∃ e, o = inl (ThrowExn e))) ∧
     ((ledger w' = ledger w2 ∧ schema w' = schema w2) ∨
      (untouched wb w' ∧ is_inr o = false))).
Proof.
  assert (∀ op : Op, (OpCommit, false) ∉ [(op, true)]) as Hnc.
  { by intros op [[=]|[]%elem_of_nil]%elem_of_cons. }
  unfold runMigrations. destruct (supportsTransactionalDdl env).
  - unfold transaction_execute, perform.
    destruct (fault env (length (trace wb)) OpBeginTransaction) eqn:Hb.
    { intros [= <- <-]. left. by eexists _, _. }
    rewrite run_eq.
    destruct (runLocked env input g TransactionDb _) as [r0 w2] eqn:Hr0.
    destruct (fault env (length (trace w2)) _) eqn:Hrel.
    { intros [= <- <-]. right.
      exists TransactionDb, OpBeginTransaction, false, [(OpRollback, true)].
      eexists _, _. split; [done|]. simpl. rewrite <-app_assoc.
      split_and!; [done | done | by repeat constructor | | by right].
      right. eauto. }
    destruct r0 as [t|rs].
    { intros [= <- <-]. right.
      exists TransactionDb, OpBeginTransaction, true, [(OpRollback, true)].
      eexists _, _. split; [done|]. simpl. rewrite <-app_assoc.
      split_and!; [done | done | by repeat constructor | | by right].
      left. eauto. }
    simpl. destruct (fault env _ OpCommit) eqn:Hc.
    { intros [= <- <-]. right.
      exists TransactionDb, OpBeginTransaction, true, [(OpCommit, false)].
      eexists _, _. split; [done|]. simpl. rewrite <-app_assoc.
      split_and!; [done | done | by repeat constructor | | by right].
      right. split; [|by eauto]. right. split; [by left | done]. }
    intros [= <- <-]. right.
    exists TransactionDb, OpBeginTransaction, true, [(OpCommit, true)].
    eexists _, _. split; [done|]. simpl. rewrite <-app_assoc.
    split_and!; [done | done | by repeat constructor | | by left].
    left. eauto.
  - unfold connection_execute, bind, liftExn, perform, tryFinally, note.
    destruct (fault env (length (trace wb)) OpAcquireConnection) eqn:Hb.
    { intros [= <- <-]. left. by eexists _, _. }
    rewrite run_eq.
    destruct (runLocked env input g ConnectionDb _) as [r0 w2] eqn:Hr0.
    destruct (fault env (length (trace w2)) _) eqn:Hrel.
    { intros [= <- <-]. right.
      exists ConnectionDb, OpAcquireConnection, false,
        [(OpReleaseConnection, true)].
      eexists _, _. split; [done|]. simpl. rewrite <-app_assoc.
      split_and!; [done | done | by repeat constructor | | by left].
      right. eauto. }
    intros [= <- <-]. right.
    exists ConnectionDb, OpAcquireConnection, true, [(OpReleaseConnection, true)].
    eexists _, _. split; [done|]. simpl. rewrite <-app_assoc.
    split_and!; [done | done | by repeat constructor | | by left].
    left. eauto.
Qed.

Lemma migrate_eq input g (w : World U) :
  migrate env input g w =
  match ensureMigrationTablesExists env w with
  | (inl e, wb) => ({| error := Some e; results := None |}, wb)
  | (inr _, wb) =>
      let '(o, w') := runMigrations env input g wb in (toResultSet o, w')
  end.
Proof.
  unfold migrate, bind, liftExn.
  by destruct (ensureMigrationTablesExists env w) as [[e|[]] wb].
Qed.

Lemma migrate_report input g (w : World U) rs w' :
  migrate env input g w = (rs, w') →
  (plain_error rs ∧ untouched w w' ∧
   ∃ evs, trace w' = trace w ++ evs ∧ Forall (on is_outer) evs ∧
          ∃ op, (op, false) ∈ evs)
  ∨
  (∃ db w1 pre okR post r0 w2,
     runLocked env input g db w1 = (r0, w2) ∧
     untouched w w1 ∧ trace w1 = trace w ++ pre ∧ Forall (on is_outer) pre ∧
     trace w' = trace w2 ++ (OpReleaseMigrationLock db, okR) :: post ∧
     Forall (on is_context) post ∧
     ((okR = true ∧ ((OpCommit, false) ∉ post) ∧ rs = toResultSet r0) ∨
      ((okR = false ∨ (OpCommit, false) ∈ post ∧ is_inr r0 = true) ∧
       plain_error rs)) ∧
     ((ledger w' = ledger w2 ∧ schema w' = schema w2) ∨
      (untouched w w' ∧ (is_inr r0 = false ∨ plain_error rs)))).
Proof.
  rewrite migrate_eq.
  pose proof (ensureMigrationTablesExists_emits w) as (pre & Hpre & HFpre).
  pose proof (ensureMigrationTablesExists_untouched w) as Hu.
  pose proof (ensureMigrationTablesExists_accountable w) as [_ Hacc].
  rewrite (new_events_app _ _ _ Hpre) in Hacc.
  assert (Forall (on is_outer) pre) as Hout.
  { eapply Forall_impl; [exact HFpre|]. by intros [[] ?]. }
  destruct (ensureMigrationTablesExists env w) as [[e|[]] wb]; simpl in *.
  { intros [= <- <-]. left. split; [by eexists|]. split; [done|].
    exists pre. auto. }
  destruct (runMigrations env input g wb) as [o w''] eqn:Hrun.
  intros [= <- <-].
  apply runMigrations_report in Hrun
    as [(e & opB & -> & Hu' & Ht & Hctx)
       |(db & opB & okR & post & r0 & w2 & Hr0 & Hctx & Ht & HFp & Ho & Hst)].
  - left. split; [by eexists|]. split; [by etrans|].
    exists (pre ++ [(opB, false)]). rewrite Ht, Hpre, app_assoc.
    split; [done|]. split.
    + apply Forall_app. split; [done|]. constructor; [|done].
      unfold on, is_outer. simpl. rewrite Hctx. apply orb_true_r.
    + exists opB. apply elem_of_app. right. by left.
  - right. exists db, (log opB true wb), (pre ++ [(opB, true)]), okR, post.
    exists r0, w2. split_and!; try done.
    + simpl. by rewrite Hpre, app_assoc.
    + apply Forall_app. split; [done|]. constructor; [|done].
      unfold on, is_outer. simpl. rewrite Hctx. apply orb_true_r.
    + destruct Ho as [(-> & Hnc & ->)|[Hf [e ->]]]; [by left|].
      right. split; [done | by eexists].
    + destruct Hst as [?|[Hu' Hi]]; [by left|]. right.
      split; [by etrans|].
      destruct Ho as [(-> & Hnc & ->)|[Hf [e ->]]]; [by left|].
      right. by eexists.
Qed.

Lemma operation_migrate mode input :
  operation env mode input = migrate env input (targetOf mode).
Proof. by destruct mode. Qed.

(** The calls of one operation, laid out: what precedes the locked scope,
    the acquisition, the planning and step calls, the release, and what
    follows; and how the result set relates to what the scope yielded. *)
Lemma migrate_anatomy input g (w : World U) rs w' :
  migrate env input g w = (rs, w') →
  trace w' = trace w ++ new_events w w' ∧
  ((plain_error rs ∧ untouched w w' ∧ Forall (on is_outer) (new_events w w') ∧
    ∃ op, (op, false) ∈ new_events w w')
   ∨
   (∃ db pre okA rest okR post r0,
      new_events w w' =
        pre ++ (OpAcquireMigrationLock db, okA) :: rest ++
        (OpReleaseMigrationLock db, okR) :: post ∧
      Forall (on is_outer) pre ∧
      Forall (λ ev, is_planning ev.1 = true ∨ is_step ev.1 = true) rest ∧
      Forall (on is_context) post ∧
      outcome_spec rest r0 ∧
      ((okR = true ∧ ((OpCommit, false) ∉ post) ∧ rs = toResultSet r0) ∨
       ((okR = false ∨ (OpCommit, false) ∈ post ∧ is_inr r0 = true) ∧
        plain_error rs)))).
Proof.
  intros Hm. apply migrate_report in Hm
    as [(Hpl & Hu & evs & Ht & HF & Hop)
       |(db & w1 & pre & okR & post & r0 & w2 & Hr0 & Hu & Ht1 & HFpre &
         Ht & HFpost & Ho & _)].
  - rewrite (new_events_app _ _ _ Ht). split; [done|]. left. auto.
  - pose proof (runLocked_report db input g w1) as (okA & rest & Ht2 & HFr & Hos).
    rewrite Hr0 in Ht2, Hos. simpl in *.
    assert (trace w' = trace w ++ pre ++ (OpAcquireMigrationLock db, okA) ::
              rest ++ (OpReleaseMigrationLock db, okR) :: post) as Hall.
    { rewrite Ht, Ht2, Ht1. by rewrite <-!app_assoc. }
    rewrite (new_events_app _ _ _ Hall). split; [done|]. right.
    exists db, pre, okA, rest, okR, post, r0. auto 10.
Qed.

(** ** Lock discipline *)

Lemma lock_released_split evs : lock_released evs →
  ∀ pre post db, evs = pre ++ (OpAcquireMigrationLock db, true) :: post →
    ∃ ok, (OpReleaseMigrationLock db, ok) ∈ post.
Proof.
  intros H pre. revert evs H.
  induction pre as [|ev pre IH]; intros evs H post db ->; simpl in H.
  - by destruct H.
  - eapply IH; [|done]. destruct ev as [[] []]; simpl in H; try done.
    by destruct H.
Qed.

Lemma lock_released_quiet evs :
  Forall (λ ev : Event, is_acquire ev.1 = false) evs → lock_released evs.
Proof.
  induction 1 as [|[[] []] evs Hev _ IH]; simpl in *; done.
Qed.

Lemma lock_released_app pre evs :
  Forall (λ ev : Event, is_acquire ev.1 = false) pre →
  lock_released evs → lock_released (pre ++ evs).
Proof.
  induction 1 as [|[[] []] pre Hev _ IH]; simpl in *; done.
Qed.

(** C8: on every exit path of every public operation, successful
    completion, planning failure or step failure alike, a successful
    [acquireMigrationLock] on a handle is followed by a call of
    [releaseMigrationLock] on the same handle. *)
Theorem C8_release_on_every_exit mode input (w : World U) pre post db :
  trace (operation env mode input w).2 =
    trace w ++ pre ++ (OpAcquireMigrationLock db, true) :: post →
  ∃ ok, (OpReleaseMigrationLock db, ok) ∈ post.
Proof.
  rewrite operation_migrate.
  destruct (migrate env input (targetOf mode) w) as [rs w'] eqn:Hm.
  simpl. intros Ht.
  apply migrate_anatomy in Hm as [Hnew Hcases].
  rewrite Hnew in Ht. apply app_inv_head in Ht.
  eapply lock_released_split; [|exact Ht].
  destruct Hcases as [(_ & _ & HF & _)
    |(db0 & pre0 & okA & rest & okR & post0 & r0 & -> & HFpre & HFr & HFpost & _)].
  - apply lock_released_quiet. eapply Forall_impl; [exact HF|].
    intros [[] ?]; done.
  - apply lock_released_app.
    { eapply Forall_impl; [exact HFpre|]. intros [[] ?]; done. }
    assert (lock_released (rest ++ (OpReleaseMigrationLock db0, okR) :: post0))
      as Hrest.
    { apply lock_released_quiet. apply Forall_app. split.
      - eapply Forall_impl; [exact HFr|]. intros [[] ?] [?|?]; done.
      - constructor; [done|].
        eapply Forall_impl; [exact HFpost|]. intros [[] ?]; done. }
    destruct okA; simpl; [|done]. split; [|done].
    exists okR. apply elem_of_app. right. by left.
Qed.

(** ** Result sets *)

Lemma elem_of_anatomy (ev : Event) pre db okA rest okR post :
  ev ∈ pre ++ (OpAcquireMigrationLock db, okA) :: rest ++
       (OpReleaseMigrationLock db, okR) :: post →
  ev ∈ pre ∨ ev = (OpAcquireMigrationLock db, okA) ∨ ev ∈ rest ∨
  ev = (OpReleaseMigrationLock db, okR) ∨ ev ∈ post.
Proof.
  rewrite elem_of_app, elem_of_cons, elem_of_app, elem_of_cons. tauto.
Qed.

Lemma toResultSet_shapes evs r0 :
  outcome_spec evs r0 →
  (error (toResultSet r0) = None ∧ is_Some (results (toResultSet r0))) ∨
  plain_error (toResultSet r0) ∨
  (∃ e l, toResultSet r0 = {| error := Some e; results := Some l |} ∧
          truncated l).
Proof.
  destruct r0 as [[e|rs]|rs]; simpl.
  - intros _. right. left. by eexists.
  - intros [_ H]. by do 2 right.
  - intros (_ & ? & ?). by left.
Qed.


(** ** Runs with nothing to do *)

Lemma untouched_executedNames (w w' : World U) :
  untouched w w' → executedNames w' = executedNames w.
Proof. intros [H _]. unfold executedNames. by rewrite H. Qed.

Lemma runLocked_no_delta db input g (w : World U) r0 w2 :
  no_delta env input g w →
  runLocked env input g db w = (r0, w2) →
  untouched w w2 ∧ emits (λ ev, is_step ev.1 = false) w w2 ∧
  match r0 with
  | inr rs => rs = empty_results ∧ planning_done env input g w
  | inl (ThrowExn e) =>
      (∃ op, (op, false) ∈ new_events w w2) ∨ planning_error env input g w e
  | inl (MigrationResultSetError _) => False
  end.
Proof.
  intros Hnd. rewrite runLocked_eq.
  destruct (fault env (length (trace w)) _).
  { intros [= <- <-]. split; [done|]. split; [by apply emits_log|].
    left. eexists. erewrite new_events_app; [|done]. by left. }
  set (w1 := log _ true _).
  assert (emits (λ ev, is_step ev.1 = false) w w1) as He1 by by apply emits_log.
  pose proof (resolveMigrations_emits input w1) as He2.
  eapply (emits_mono _ (λ ev, is_step ev.1 = false)) in He2;
    [|by intros [[] ?]].
  pose proof (resolveMigrations_untouched input w1) as Hu2.
  pose proof (resolveMigrations_accountable input w1) as [_ Hacc].
  pose proof (resolveMigrations_blind input w w1) as Hbl.
  destruct (resolveMigrations env input w1) as [[e|ms] w3]; simpl in *.
  all: assert (∀ op ok, untouched w (log op ok w3)) as Hu3
    by (intros; destruct Hu2; by split).
  all: assert (untouched w w3) as Hu by (destruct Hu2; by split).
  { intros [= <- <-]. split; [done|]. split; [by etrans|]. left.
    destruct Hacc as [op Hop]; [done|]. exists op.
    eapply failed_later; [eapply emits_True, He1 | exact He2 | done]. }
  assert (executedNames w3 = executedNames w) as HL.
  { by apply untouched_executedNames. }
  rewrite HL.
  destruct (fault env (length (trace w3)) _).
  { intros [= <- <-]. split; [apply Hu3|].
    assert (emits (λ ev, is_step ev.1 = false) w3
              (log (OpSelectExecuted db) false w3)) as He3 by by apply emits_log.
    split; [by etrans; [|etrans]|]. left. eexists.
    eapply failed_later; [by etrans; eapply emits_True | exact He3 |].
    erewrite new_events_app; [|done]. by left. }
  assert (emits (λ ev, is_step ev.1 = false) w
            (log (OpSelectExecuted db) true w3)) as He3.
  { etrans; [exact He1|]. etrans; [exact He2|]. by apply emits_log. }
  destruct (ensureMigrationsNotCorrupted ms (executedNames w)) as [e|[]] eqn:Hc.
  { intros [= <- <-]. split; [apply Hu3|]. split; [done|]. right.
    exists ms. auto. }
  rewrite dispatch_eq.
  change (migrations (stateOf ms (executedNames w))) with ms.
  case_bool_decide as Hlen.
  { intros [= <- <-]. split; [apply Hu3|]. split; [done|]. split; [done|].
    exists ms. split_and!; [done..|]. left. by destruct ms. }
  assert (ms ≠ []) as Hne by (by intros ->).
  specialize (Hnd ms Hbl Hc Hne).
  destruct (g (stateOf ms (executedNames w))) as [e|[t|]] eqn:Hg.
  - intros [= <- <-]. split; [apply Hu3|]. split; [done|]. right.
    exists ms. auto.
  - subst t. rewrite Z.gtb_ltb, Z.ltb_irrefl.
    intros [= <- <-]. split; [apply Hu3|]. split; [done|]. split; [done|].
    exists ms. split_and!; [done..|]. right. by rewrite Hg.
  - intros [= <- <-]. split; [apply Hu3|]. split; [done|]. split; [done|].
    exists ms. split_and!; [done..|]. right. by rewrite Hg.
Qed.

Lemma planning_untouched input g (w w1 : World U) :
  untouched w w1 →
  (no_delta env input g w → no_delta env input g w1) ∧
  (planning_done env input g w1 → planning_done env input g w) ∧
  (∀ e, planning_error env input g w1 e → planning_error env input g w e).
Proof.
  intros Hu. unfold no_delta, planning_done, planning_error.
  rewrite (untouched_executedNames _ _ Hu).
  by rewrite (resolveMigrations_blind input w1 w).
Qed.

Lemma migrate_no_delta input g (w : World U) rs w' :
  no_delta env input g w →
  migrate env input g w = (rs, w') →
  untouched w w' ∧
  emits (λ ev : Event, is_step ev.1 = false) w w' ∧
  ((rs = empty_results ∧ planning_done env input g w) ∨
   (∃ e, rs = {| error := Some e; results := None |} ∧
      ((∃ op, (op, false) ∈ new_events w w') ∨ planning_error env input g w e))).
Proof.
  intros Hnd Hm. apply migrate_report in Hm
    as [([e ->] & Hu & evs & Ht & HF & Hop)
       |(db & w1 & pre & okR & post & r0 & w2 & Hr0 & Hu & Ht1 & HFpre &
         Ht & HFpost & Ho & Hst)].
  { rewrite (new_events_app _ _ _ Ht). split; [done|]. split.
    - exists evs. split; [done|].
      eapply Forall_impl; [exact HF|]. by intros [[] ?].
    - right. eauto. }
  destruct (planning_untouched input g w w1 Hu) as (Hnd1 & Hdone & Herr).
  destruct (runLocked_no_delta db input g w1 r0 w2 (Hnd1 Hnd) Hr0)
    as (Hu2 & He2 & Hr).
  apply emits_new_events in He2 as [Ht2 HF2].
  assert (untouched w w') as Hu'.
  { destruct Hst as [[H1 H2]|[? _]]; [|done].
    destruct Hu as [H3 H4], Hu2 as [H5 H6]. split; congruence. }
  assert (trace w' = trace w ++ pre ++ new_events w1 w2 ++
            (OpReleaseMigrationLock db, okR) :: post) as Hall.
  { rewrite Ht, Ht2, Ht1. by rewrite <-!app_assoc. }
  rewrite (new_events_app _ _ _ Hall).
  split; [done|]. split.
  { eexists. split; [exact Hall|]. apply Forall_app. split.
    { eapply Forall_impl; [exact HFpre|]. by intros [[] ?]. }
    apply Forall_app. split; [done|]. constructor; [done|].
    eapply Forall_impl; [exact HFpost|]. by intros [[] ?]. }
  destruct Ho as [(-> & Hnc & ->)|[Hfail [e ->]]].
  - destruct r0 as [[e|rs0]|rs0]; simpl; [|done|].
    + right. exists e. split; [done|].
      destruct Hr as [[op Hop]|Hpe]; [left|right; by apply Herr].
      exists op. rewrite !elem_of_app. auto.
    + destruct Hr as [-> Hpd]. left. auto.
  - right. exists e. split; [done|]. left.
    destruct Hfail as [->|[Hc _]].
    + eexists. rewrite !elem_of_app, elem_of_cons. eauto.
    + eexists. rewrite !elem_of_app, elem_of_cons. eauto.
Qed.

(** ** Runs in which no call fails *)

Lemma perform_ff {A} op (effect : World U → A * World U) (w : World U) :
  fault_free env →
  perform env op effect w = ((inr (effect w).1), log op true (effect w).2).
Proof. intros Hff. unfold perform. rewrite Hff. by destruct (effect w). Qed.

Lemma ensureTableExists_ff t (w : World U) :
  fault_free env →
  ∃ wb, ensureTableExists env t w = (inr tt, wb) ∧ untouched w wb.
Proof.
  intros Hff. pose proof (ensureTableExists_untouched t w) as Hu.
  unfold ensureTableExists, doesTableExists, createTable in *.
  unfold bind, tryCatch, performCreation in *.
  rewrite perform_ff in * by done. simpl in *.
  case_bool_decide; simpl in *; [by eexists|].
  rewrite Hff in *. by eexists.
Qed.

Lemma ensureLockRowExists_ff (w : World U) :
  fault_free env →
  ∃ wb, ensureLockRowExists env w = (inr tt, wb) ∧ untouched w wb.
Proof.
  intros Hff. pose proof (ensureLockRowExists_untouched w) as Hu.
  unfold ensureLockRowExists, doesLockRowExists, insertLockRow in *.
  unfold bind, tryCatch, performCreation in *.
  rewrite perform_ff in * by done. simpl in *.
  destruct (lockRow w); simpl in *; [by eexists|].
  rewrite Hff in *. by eexists.
Qed.

Lemma ensureMigrationTablesExists_ff (w : World U) :
  fault_free env →
  ∃ wb, ensureMigrationTablesExists env w = (inr tt, wb) ∧ untouched w wb.
Proof.
  intros Hff. unfold ensureMigrationTablesExists, bind.
  unfold ensureMigrationTableExists, ensureMigrationLockTableExists.
  destruct (ensureTableExists_ff MIGRATION_TABLE w Hff) as (w1 & -> & Hu1).
  destruct (ensureTableExists_ff MIGRATION_LOCK_TABLE w1 Hff) as (w2 & -> & Hu2).
  destruct (ensureLockRowExists_ff w2 Hff) as (w3 & -> & Hu3).
  exists w3. split; [done|]. by etrans; [|etrans].
Qed.

(** Without faults, and with a ledger that passes the corruption check, an
    operation is [dispatch] run on the planned state, between calls that
    are no steps; its ledger and schema are what [dispatch] left, unless
    [dispatch] threw inside a transaction, which is then rolled back. *)
Lemma migrate_ff input g (w : World U) ms :
  fault_free env →
  (resolveMigrations env input w).1 = inr ms →
  ensureMigrationsNotCorrupted ms (executedNames w) = inr tt →
  ∃ db w1,
    db = (if supportsTransactionalDdl env then TransactionDb
          else ConnectionDb) ∧
    untouched w w1 ∧ emits (λ ev : Event, is_step ev.1 = false) w w1 ∧
    ∀ r0 w2,
      dispatch env g db (stateOf ms (executedNames w)) w1 = (r0, w2) →
      ∃ w', migrate env input g w = (toResultSet r0, w') ∧
            emits (λ ev : Event, is_step ev.1 = false) w2 w' ∧
            if supportsTransactionalDdl env && negb (is_inr r0)
            then untouched w w'
            else ledger w' = ledger w2 ∧ schema w' = schema w2.
Proof.
  intros Hff Hres Hok. rewrite migrate_eq.
  pose proof (ensureMigrationTablesExists_emits w) as Heb.
  eapply (emits_mono _ (λ ev, is_step ev.1 = false)) in Heb;
    [|by intros [[] ?]].
  destruct (ensureMigrationTablesExists_ff w Hff) as (wb & Hb & Hub).
  rewrite Hb in Heb |- *. simpl in Heb.
  assert (∀ db opB, is_step opB = false →
    ∃ w1, untouched w w1 ∧ emits (λ ev : Event, is_step ev.1 = false) w w1 ∧
      runLocked env input g db (log opB true wb) =
      dispatch env g db (stateOf ms (executedNames w)) w1) as Hrl.
  { intros db opB HopB. rewrite runLocked_eq. rewrite Hff.
    set (wa := log _ true (set_locked true _)).
    assert (untouched w wa) as Hua by (destruct Hub; by split).
    assert (emits (λ ev : Event, is_step ev.1 = false) w wa) as Hea.
    { etrans; [exact Heb|].
      exists [(opB, true); (OpAcquireMigrationLock db, true)]. simpl.
      rewrite <-app_assoc. split; [done|]. by repeat constructor. }
    pose proof (resolveMigrations_untouched input wa) as Hu2.
    pose proof (resolveMigrations_emits input wa) as He2.
    eapply (emits_mono _ (λ ev, is_step ev.1 = false)) in He2;
      [|by intros [[] ?]].
    pose proof (resolveMigrations_blind input wa w) as Hbl.
    rewrite Hres in Hbl.
    destruct (resolveMigrations env input wa) as [r w3]. simpl in *. subst r.
    rewrite Hff.
    assert (untouched w w3) as Hu3 by by etrans.
    rewrite (untouched_executedNames _ _ Hu3), Hok.
    eexists. split_and!; [|etrans; [exact Hea|etrans; [exact He2|]]|done].
    - destruct Hu3. by split.
    - by apply emits_log. }
  unfold runMigrations. destruct (supportsTransactionalDdl env).
  - destruct (Hrl TransactionDb OpBeginTransaction eq_refl)
      as (w1 & Hu1 & He1 & Heq).
    exists TransactionDb, w1. split_and!; [done..|]. intros r0 w2 Hd.
    unfold transaction_execute. rewrite perform_ff by done. simpl.
    rewrite run_eq, Heq, Hd, Hff.
    destruct r0 as [t|rs]; simpl.
    + eexists. split_and!; [done| |destruct Hub; by split].
      exists [(OpReleaseMigrationLock TransactionDb, true); (OpRollback, true)].
      simpl. rewrite <-app_assoc. split; [done|]. by repeat constructor.
    + rewrite perform_ff by done. simpl. eexists. split_and!; [done| |done..].
      exists [(OpReleaseMigrationLock TransactionDb, true); (OpCommit, true)].
      simpl. rewrite <-app_assoc. split; [done|]. by repeat constructor.
  - destruct (Hrl ConnectionDb OpAcquireConnection eq_refl)
      as (w1 & Hu1 & He1 & Heq).
    exists ConnectionDb, w1. split_and!; [done..|]. intros r0 w2 Hd.
    unfold connection_execute, bind, liftExn, tryFinally, note.
    rewrite perform_ff by done. simpl.
    rewrite run_eq, Heq, Hd, Hff. simpl.
    eexists. split_and!; [done| |done..].
    exists [(OpReleaseMigrationLock ConnectionDb, true);
            (OpReleaseConnection, true)].
    simpl. rewrite <-app_assoc. split; [done|]. by repeat constructor.
Qed.

(** ** The corruption check *)

Lemma existsb_name (ms : list (NamedMigration U)) n :
  existsb (λ it, bool_decide (name it = n)) ms = true ↔ n ∈ name <$> ms.
Proof.
  rewrite existsb_exists, list_elem_of_fmap. split.
  - intros (m & Hm & Hn). apply bool_decide_eq_true in Hn.
    exists m. split; [done|]. by apply list_elem_of_In.
  - intros (m & -> & Hm). exists m. split; [by apply list_elem_of_In|].
    by apply bool_decide_eq_true.
Qed.

Lemma ensureExecutedExist_inr (ms : list (NamedMigration U)) L :
  ensureExecutedExist ms L = inr tt ↔ ∀ n, n ∈ L → n ∈ name <$> ms.
Proof.
  induction L as [|e L IH]; simpl.
  - split; [|done]. intros _ n []%elem_of_nil.
  - destruct (existsb _ ms) eqn:He.
    + apply existsb_name in He. rewrite IH. split.
      * intros H n [->|?]%elem_of_cons; auto.
      * intros H n Hn. apply H. by right.
    + split; [done|]. intros H. exfalso.
      assert (e ∈ name <$> ms) as Hin by (apply H; by left).
      apply existsb_name in Hin. congruence.
Qed.

Lemma ensureExecutedExist_inl (ms : list (NamedMigration U)) L e :
  ensureExecutedExist ms L = inl e → is_corruption e = true.
Proof.
  induction L as [|x L IH]; simpl; [done|].
  destruct (existsb _ ms); [done|]. by intros [= <-].
Qed.

Lemma ensureExecutedFirst_inr (ms : list (NamedMigration U)) rest : ∀ i,
  ensureExecutedFirst ms i rest = inr tt ↔
  rest `prefix_of` drop i (name <$> ms).
Proof.
  induction rest as [|e rest IH]; intros i; simpl.
  { split; [|done]. intros _. apply prefix_nil. }
  destruct (ms !! i) as [m|] eqn:Hm.
  - assert (drop i (name <$> ms) = name m :: drop (S i) (name <$> ms)) as ->.
    { apply drop_S. by rewrite list_lookup_fmap, Hm. }
    case_bool_decide as Hne.
    + split; [done|]. intros ?%prefix_cons_inv_1. congruence.
    + subst e. rewrite IH. split.
      * apply prefix_cons.
      * apply prefix_cons_inv_2.
  - split; [done|]. rewrite drop_ge.
    + by intros ?%prefix_nil_not.
    + rewrite length_fmap. by apply lookup_ge_None.
Qed.

Lemma ensureExecutedFirst_inl (ms : list (NamedMigration U)) rest : ∀ i e,
  ensureExecutedFirst ms i rest = inl e →
  (i + length rest ≤ length ms)%nat → is_corruption e = true.
Proof.
  induction rest as [|x rest IH]; intros i e; simpl; [done|].
  destruct (ms !! i) as [m|] eqn:Hm.
  - case_bool_decide; [by intros [= <-]|].
    intros Hrest Hlen. eapply IH; [done|]. lia.
  - intros _ Hlen. apply lookup_ge_None in Hm. lia.
Qed.

Lemma ensureMigrationsNotCorrupted_inr (ms : list (NamedMigration U)) L :
  ensureMigrationsNotCorrupted ms L = inr tt ↔ L `prefix_of` (name <$> ms).
Proof.
  unfold ensureMigrationsNotCorrupted.
  destruct (ensureExecutedExist ms L) as [e|[]] eqn:He.
  - split; [done|]. intros [k Hk]. exfalso.
    assert (ensureExecutedExist ms L = inr tt) as He'; [|congruence].
    apply ensureExecutedExist_inr. intros n Hn. rewrite Hk.
    apply elem_of_app. by left.
  - by rewrite ensureExecutedFirst_inr.
Qed.

Lemma ensureMigrationsNotCorrupted_inl (ms : list (NamedMigration U)) L e :
  ensureMigrationsNotCorrupted ms L = inl e → NoDup L →
  is_corruption e = true.
Proof.
  unfold ensureMigrationsNotCorrupted.
  destruct (ensureExecutedExist ms L) as [e'|[]] eqn:He.
  - intros [= <-] _. by eapply ensureExecutedExist_inl.
  - intros H Hnd. eapply ensureExecutedFirst_inl; [done|]. simpl.
    rewrite <-(length_fmap name ms). apply submseteq_length.
    apply NoDup_submseteq; [done|]. by apply ensureExecutedExist_inr.
Qed.

Lemma executedNames_NoDup (w : World U) :
  NoDup (row_name <$> ledger w) → NoDup (executedNames w).
Proof.
  intros H. unfold executedNames.
  by rewrite (merge_sort_Permutation String.le).
Qed.

Lemma not_prefix_corrupted (ms : list (NamedMigration U)) L :
  ¬ L `prefix_of` (name <$> ms) →
  ∃ e, ensureMigrationsNotCorrupted ms L = inl e ∧
       (NoDup L → is_corruption e = true).
Proof.
  intros Hnp. destruct (ensureMigrationsNotCorrupted ms L) as [e|[]] eqn:He.
  - exists e. split; [done|]. by eapply ensureMigrationsNotCorrupted_inl.
  - by apply ensureMigrationsNotCorrupted_inr in He.
Qed.

(** C2: when the executed names read from the ledger are not a prefix of
    the resolved, sorted migration list, the corruption check throws: a
    corruption error, the ledger's primary key granted.  Every public
    operation then returns an error without results, calls no [up] or
    [down], leaves ledger and schema as they were, and the error it returns
    is the corruption error unless a call to a collaborator failed. *)
Theorem C2_corrupted_ledger_aborts mode input (w : World U) ms :
  (resolveMigrations env input w).1 = inr ms →
  ¬ executedNames w `prefix_of` (name <$> ms) →
  (∃ e, ensureMigrationsNotCorrupted ms (executedNames w) = inl e ∧
        (NoDup (row_name <$> ledger w) → is_corruption e = true)) ∧
  let '(rs, w') := operation env mode input w in
  (∃ e, rs = {| error := Some e; results := None |} ∧
        (NoDup (row_name <$> ledger w) →
         is_corruption e = true ∨ ∃ op, (op, false) ∈ new_events w w')) ∧
  Forall (λ ev : Event, is_step ev.1 = false) (new_events w w') ∧
  untouched w w'.
Proof.
  intros Hres Hnp.
  destruct (not_prefix_corrupted ms _ Hnp) as (e0 & He0 & Hk0).
  split.
  { exists e0. split; [done|]. intros ?. by apply Hk0, executedNames_NoDup. }
  rewrite operation_migrate.
  destruct (migrate env input (targetOf mode) w) as [rs w'] eqn:Hm.
  apply migrate_no_delta in Hm as (Hu & He & Hrs).
  2:{ intros ms' Hres' Hok. congruence. }
  split; [|split; [by apply emits_new_Forall | done]].
  destruct Hrs as [[_ (ms' & Hres' & Hok & _)]|(e & -> & Hwhy)];
    [congruence|].
  exists e. split; [done|]. intros Hnd.
  destruct Hwhy as [?|(ms' & Hres' & [Hc|(Hc & _)])]; [by right| |congruence].
  left. assert (ms' = ms) as -> by congruence.
  assert (e = e0) as -> by congruence.
  by apply Hk0, executedNames_NoDup.
Qed.

(** ** Resolved lists *)

Lemma names_omap (m : gmap string (Migration U)) (keys : list string) :
  (∀ k, k ∈ keys → is_Some (m !! k)) →
  name <$> omap (λ n, (λ mig, {| name := n; base := mig |}) <$> m !! n) keys
  = keys.
Proof.
  induction keys as [|k keys IH]; intros Hk; [done|]. simpl.
  destruct (Hk k) as [v Hv]; [by left|]. rewrite Hv. simpl.
  f_equal. apply IH. intros k' ?. apply Hk. by right.
Qed.

Lemma sortedKeys_spec (m : gmap string (Migration U)) :
  NoDup (sortedKeys m) ∧ Sorted String.le (sortedKeys m) ∧
  ∀ k, k ∈ sortedKeys m → is_Some (m !! k).
Proof.
  unfold sortedKeys. split_and!.
  - rewrite merge_sort_Permutation. apply NoDup_fst_map_to_list.
  - apply (Sorted_merge_sort String.le).
  - intros k. rewrite merge_sort_Permutation.
    intros [[k' v] [-> Hv]]%list_elem_of_fmap.
    apply elem_of_map_to_list in Hv. by eexists.
Qed.

Lemma resolveMigrations_names input (w : World U) ms :
  (resolveMigrations env input w).1 = inr ms →
  NoDup (name <$> ms) ∧ Sorted String.le (name <$> ms).
Proof.
  assert (∀ m : gmap string (Migration U),
    NoDup (name <$> omap (λ n, (λ mig, {| name := n; base := mig |})
                                  <$> m !! n) (sortedKeys m)) ∧
    Sorted String.le (name <$> omap (λ n, (λ mig, {| name := n; base := mig |})
                                          <$> m !! n) (sortedKeys m))) as H.
  { intros m. destruct (sortedKeys_spec m) as (Hnd & Hs & Hk).
    by rewrite names_omap. }
  unfold resolveMigrations, bind, ret. destruct input as [m|folder].
  - simpl. intros [= <-]. apply H.
  - destruct (readMigrationsFromFolder env folder w) as [[e|m] w1]; [done|].
    simpl. intros [= <-]. apply H.
Qed.

(** ** Target selection *)

Lemma findIndex_none {A} (p : A → bool) (l : list A) :
  (∀ x, x ∈ l → p x = false) → findIndex p l = -1.
Proof.
  induction l as [|x l IH]; intros H; simpl; [done|].
  rewrite H by by left. rewrite IH; [done|]. intros y Hy. apply H. by right.
Qed.

Lemma findIndex_first {A} (p : A → bool) (l : list A) : ∀ i x,
  l !! i = Some x → p x = true →
  (∀ j y, (j < i)%nat → l !! j = Some y → p y = false) →
  findIndex p l = Z.of_nat i.
Proof.
  induction l as [|a l IH]; intros i x Hi Hx Hlt; [done|]. simpl.
  destruct i as [|i]; simpl in Hi.
  - simplify_eq. by rewrite Hx.
  - rewrite (Hlt 0%nat a) by (done || lia).
    rewrite (IH i x Hi Hx).
    + destruct (Z.of_nat i <? 0) eqn:Hneg; lia.
    + intros j y Hj Hy. apply (Hlt (S j)); [lia | done].
Qed.

Lemma findIndex_name (ms : list (NamedMigration U)) i m :
  NoDup (name <$> ms) → ms !! i = Some m →
  findIndex (λ it, bool_decide (name it = name m)) ms = Z.of_nat i.
Proof.
  intros Hnd Hi. eapply findIndex_first; [done|by apply bool_decide_eq_true|].
  intros j y Hj Hy. apply bool_decide_eq_false. intros Heq.
  assert (j = i); [|lia].
  eapply NoDup_lookup; [exact Hnd| |].
  - by rewrite list_lookup_fmap, Hy.
  - by rewrite list_lookup_fmap, Hi, Heq.
Qed.

Lemma runLocked_empty input g g' db (w : World U) :
  (resolveMigrations env input w).1 = inr [] →
  runLocked env input g db w = runLocked env input g' db w.
Proof.
  intros Hres. rewrite !runLocked_eq.
  destruct (fault env _ _); [done|].
  set (wa := log _ true _).
  pose proof (resolveMigrations_blind input wa w) as Hbl.
  rewrite Hres in Hbl.
  destruct (resolveMigrations env input wa) as [r w3]. simpl in *. subst r.
  destruct (fault env _ _); [done|].
  destruct (ensureMigrationsNotCorrupted _ _) as [e|[]]; [done|].
  by rewrite !dispatch_eq.
Qed.

(** On an empty resolved list the target function is not consulted: any
    two of them give the same run. *)
Lemma migrate_empty input g g' (w : World U) :
  (resolveMigrations env input w).1 = inr [] →
  migrate env input g w = migrate env input g' w.
Proof.
  intros Hres. rewrite !migrate_eq.
  destruct (ensureMigrationTablesExists env w) as [[e|[]] wb]; [done|].
  assert (∀ db opB, run env input g db (log opB true wb) =
                    run env input g' db (log opB true wb)) as Hrun.
  { intros db opB. rewrite !run_eq.
    rewrite (runLocked_empty input g g'); [done|].
    by rewrite (resolveMigrations_blind input _ w). }
  unfold runMigrations. destruct (supportsTransactionalDdl env).
  - unfold transaction_execute, perform.
    destruct (fault env _ _); [done|]. by rewrite Hrun.
  - unfold connection_execute, bind, liftExn, tryFinally, perform.
    destruct (fault env _ _); [done|]. by rewrite Hrun.
Qed.


(** ** Nothing to do *)

Lemma dispatch_no_delta g db (ms : list (NamedMigration U)) L (w1 : World U) :
  (ms = [] ∨ is_inr (g (stateOf ms L)) = true) →
  (ms ≠ [] →
   match g (stateOf ms L) with
   | inr (Some t) => t = currentIndex (stateOf ms L)
   | _ => True
   end) →
  dispatch env g db (stateOf ms L) w1 = (inr empty_results, w1).
Proof.
  intros Hd Hnd. rewrite dispatch_eq.
  change (migrations (stateOf ms L)) with ms.
  case_bool_decide as Hlen; [done|].
  assert (ms ≠ []) as Hne by (by intros ->).
  specialize (Hnd Hne). destruct Hd as [?|Hd]; [done|].
  destruct (g (stateOf ms L)) as [e|[t|]]; [done| |done].
  subst t. by rewrite Z.gtb_ltb, Z.ltb_irrefl.
Qed.

Lemma migrate_nothing_to_do input g (w : World U) :
  no_delta env input g w →
  let '(rs, w') := migrate env input g w in
  untouched w w' ∧
  emits (λ ev : Event, is_step ev.1 = false) w w' ∧
  (rs = empty_results ∨
   ∃ e, rs = {| error := Some e; results := None |} ∧
     ((∃ op, (op, false) ∈ new_events w w') ∨ planning_error env input g w e)) ∧
  (fault_free env → planning_done env input g w → rs = empty_results).
Proof.
  intros Hnd. destruct (migrate env input g w) as [rs w'] eqn:Hm.
  pose proof Hm as Hm'.
  apply migrate_no_delta in Hm' as (Hu & He & Hrs); [|done].
  split_and!; [done..| |].
  - destruct Hrs as [[-> _]|?]; auto.
  - intros Hff (ms & Hres & Hok & Hd).
    destruct (migrate_ff input g w ms Hff Hres Hok)
      as (db & w1 & _ & Hu1 & _ & Hrun).
    destruct (Hrun (inr empty_results) w1) as (w'' & Heq & _).
    { apply dispatch_no_delta; [done|]. intros Hne. by apply Hnd. }
    rewrite Heq in Hm. by simplify_eq/=.
Qed.

(** C9 (as amended): when the resolved migration list is empty the target
    function is never consulted, whatever the mode and the target: any two
    target functions give the same run.  The operation calls no step and
    returns [{results: []}], or an error without results that comes from a
    failed call or from the corruption check on a ledger that is not empty;
    without faults and with an empty ledger it returns [{results: []}]. *)
Theorem C9_empty_list_skips_target mode input (w : World U) :
  (resolveMigrations env input w).1 = inr [] →
  (∀ g g', migrate env input g w = migrate env input g' w) ∧
  let '(rs, w') := operation env mode input w in
  (rs = empty_results ∨
   ∃ e, rs = {| error := Some e; results := None |} ∧
     ((∃ op, (op, false) ∈ new_events w w') ∨
      ensureMigrationsNotCorrupted (U:=U) [] (executedNames w) = inl e)) ∧
  Forall (λ ev : Event, is_step ev.1 = false) (new_events w w') ∧
  untouched w w' ∧
  (fault_free env → ledger w = [] → rs = empty_results).
Proof.
  intros Hres. split; [intros g g'; by apply migrate_empty|].
  rewrite operation_migrate.
  assert (no_delta env input (targetOf mode) w) as Hnd.
  { intros ms Hres' _ Hne. congruence. }
  pose proof (migrate_nothing_to_do input (targetOf mode) w Hnd) as H.
  destruct (migrate env input (targetOf mode) w) as [rs w'].
  destruct H as (Hu & He & Hrs & Hff).
  split_and!; [|by apply emits_new_Forall|done|].
  - destruct Hrs as [?|(e & -> & [?|(ms & Hres' & Hpe)])]; [by left|..];
      right; exists e; (split; [done|]); [by left|].
    assert (ms = []) as -> by congruence.
    destruct Hpe as [?|(_ & ? & _)]; [by right | done].
  - intros Hf Hl. apply Hff; [done|]. exists []. split; [done|].
    unfold executedNames. rewrite Hl. split; [done | by left].
Qed.

Lemma untouched_sym (w w' : World U) : untouched w w' → untouched w' w.
Proof. intros [??]. by split. Qed.

Lemma callTimes_nothing_to_do input g n : ∀ w : World U,
  no_delta env input g w →
  let '(rss, w') := callTimes (migrate env input g) n w in
  untouched w w' ∧
  emits (λ ev : Event, is_step ev.1 = false) w w' ∧
  Forall (λ rs, rs = empty_results ∨ plain_error rs) rss ∧
  (fault_free env → planning_done env input g w →
   Forall (λ rs, rs = empty_results) rss).
Proof.
  induction n as [|n IH]; intros w Hnd; simpl.
  { split_and!; [done|reflexivity|constructor|by constructor]. }
  pose proof (migrate_nothing_to_do input g w Hnd) as H.
  destruct (migrate env input g w) as [rs w1].
  destruct H as (Hu & He & Hrs & Hff).
  destruct (planning_untouched input g w w1 Hu) as (Hnd1 & _ & _).
  destruct (planning_untouched input g w1 w (untouched_sym _ _ Hu))
    as (_ & Hdone & _).
  specialize (IH w1 (Hnd1 Hnd)).
  destruct (callTimes (migrate env input g) n w1) as [rss w2].
  destruct IH as (Hu2 & He2 & Hrss & Hff2).
  split_and!; [by etrans | by etrans | |].
  - constructor; [|done]. destruct Hrs as [?|(e & -> & _)]; [by left|].
    right. by eexists.
  - intros Hf Hpd. constructor; auto.
Qed.


(** For any target function: when the target index equals
    the current index the operation calls no step, leaves ledger and schema
    untouched and, unless a call fails, returns [{results: []}]. *)
Lemma equal_target_is_noop input g (w : World U) ms :
  (resolveMigrations env input w).1 = inr ms →
  ensureMigrationsNotCorrupted ms (executedNames w) = inr tt →
  g (stateOf ms (executedNames w)) =
    inr (Some (currentIndex (stateOf ms (executedNames w)))) →
  let '(rs, w') := migrate env input g w in
  untouched w w' ∧
  Forall (λ ev : Event, is_step ev.1 = false) (new_events w w') ∧
  (rs = empty_results ∨
   ∃ e, rs = {| error := Some e; results := None |} ∧
        ∃ op, (op, false) ∈ new_events w w') ∧
  (fault_free env → rs = empty_results).
Proof.
  intros Hres Hok Hg.
  assert (no_delta env input g w) as Hnd.
  { intros ms' Hres' _ _. assert (ms' = ms) as -> by congruence.
    by rewrite Hg. }
  pose proof (migrate_nothing_to_do input g w Hnd) as H.
  destruct (migrate env input g w) as [rs w'].
  destruct H as (Hu & He & Hrs & Hff).
  split_and!; [done | by apply emits_new_Forall | |].
  - destruct Hrs as [?|(e & -> & [?|(ms' & Hres' & Hpe)])]; [by left|..];
      right; exists e; (split; [done|]); [done|].
    assert (ms' = ms) as -> by congruence.
    destruct Hpe as [?|(_ & _ & ?)]; congruence.
  - intros Hf. apply Hff; [done|]. exists ms. split_and!; [done..|].
    right. by rewrite Hg.
Qed.

(** ** The up run, step by step *)

Lemma findMigration_name (ms : list (NamedMigration U)) n m :
  findMigration ms n = Some m → name m = n ∧ m ∈ ms.
Proof.
  intros [Hin Hn]%find_some. apply bool_decide_eq_true in Hn.
  split; [done | by apply list_elem_of_In].
Qed.

Lemma findMigration_lookup (ms : list (NamedMigration U)) i m :
  NoDup (name <$> ms) → ms !! i = Some m → findMigration ms (name m) = Some m.
Proof.
  intros Hnd Hi. unfold findMigration.
  destruct (find _ ms) as [m'|] eqn:Hf.
  - apply find_some in Hf as [Hin Hn]. apply bool_decide_eq_true in Hn.
    apply list_elem_of_In, list_elem_of_lookup in Hin as [j Hj].
    assert (j = i) as ->; [|congruence].
    eapply NoDup_lookup; [exact Hnd| |].
    + by rewrite list_lookup_fmap, Hj.
    + by rewrite list_lookup_fmap, Hi, Hn.
  - eapply find_none in Hf; [|by eapply list_elem_of_In, list_elem_of_lookup_2].
    by apply bool_decide_eq_false in Hf.
Qed.

Lemma at_index_Some {A} (l : list A) i x :
  at_index l i = Some x ↔ 0 ≤ i ∧ l !! Z.to_nat i = Some x.
Proof.
  unfold at_index. destruct (i <? 0) eqn:Hi.
  - apply Z.ltb_lt in Hi. split; [done|]. lia.
  - apply Z.ltb_ge in Hi. tauto.
Qed.

Lemma planUp_names (ms : list (NamedMigration U)) n : ∀ i results,
  planUp ms i n = inr results →
  migrationName <$> results = take n (drop (Z.to_nat i) (name <$> ms)) ∧
  length results = n.
Proof.
  induction n as [|n IH]; intros i results; simpl.
  { by intros [= <-]. }
  destruct (at_index ms i) as [m|] eqn:Hm; [|done].
  apply at_index_Some in Hm as [Hi Hm].
  destruct (planUp ms (i + 1) n) as [e|rest] eqn:Hp; [done|].
  intros [= <-]. destruct (IH _ _ Hp) as [Hn Hl].
  replace (Z.to_nat (i + 1)) with (S (Z.to_nat i)) in Hn by lia.
  split; [|simpl; by rewrite Hl].
  erewrite drop_S; [|by rewrite list_lookup_fmap, Hm].
  rewrite fmap_cons, Hn. done.
Qed.

Lemma upStep_success db state i results (w : World U) results1 w1 :
  upStep env db state i results w = (inr results1, w1) →
  ∃ r x, results !! i = Some r ∧ results1 = <[i:=x]> results ∧
    row_name <$> ledger w1 = (row_name <$> ledger w) ++ [migrationName r].
Proof.
  unfold upStep. destruct (results !! i) as [r|]; [|done].
  destruct (findMigration _ _) as [m|] eqn:Hf; [|done].
  apply findMigration_name in Hf as [Hn _].
  unfold tryCatch, bind, runAction.
  destruct (up m (schema w)) as [[e|[]] s]; [done|].
  unfold insertRecord. case_bool_decide; [done|].
  unfold perform. simpl. destruct (fault env _ _); [done|]. simpl.
  intros [= <- <-]. eexists r, _. split_and!; [done..|].
  simpl. by rewrite fmap_app, Hn.
Qed.

Lemma upLoop_success db state n : ∀ i results (w : World U) results' w',
  forEachIndex (upStep env db state) (seq i n) results w = (inr results', w') →
  row_name <$> ledger w' =
    (row_name <$> ledger w) ++ (migrationName <$> take n (drop i results)).
Proof.
  induction n as [|n IH]; intros i results w results' w'; simpl.
  { intros [= <- <-]. by rewrite app_nil_r. }
  unfold bind.
  destruct (upStep env db state i results w) as [[t|results1] w1] eqn:Hs;
    [done|].
  apply upStep_success in Hs as (r & x & Hr & -> & Hl).
  intros H. apply IH in H. rewrite H, Hl.
  rewrite drop_insert_lt by lia.
  rewrite (drop_S results r i Hr).
  rewrite firstn_cons, fmap_cons, <-app_assoc. done.
Qed.

Lemma private_migrateUp_success db state t (w : World U) rs w' :
  private_migrateUp env db state t w = (inr rs, w') →
  row_name <$> ledger w' =
    (row_name <$> ledger w) ++
    take (Z.to_nat (t - currentIndex state))
      (drop (Z.to_nat (currentIndex state + 1)) (name <$> migrations state)).
Proof.
  rewrite private_migrateUp_eq.
  destruct (planUp _ _ _) as [e|results] eqn:Hp; [done|].
  apply planUp_names in Hp as [Hn Hl]. unfold bind.
  destruct (forEachIndex _ _ _ _) as [[e|results'] w1] eqn:Hloop; [done|].
  intros [= _ <-]. apply upLoop_success in Hloop.
  rewrite Hloop, <-Hn. by rewrite drop_0, take_ge by lia.
Qed.

(** ** Sorted ledgers *)

Lemma sort_unique (X Y : list string) :
  X ≡ₚ Y → Sorted String.le Y → merge_sort String.le X = Y.
Proof.
  intros HP HS. apply (Sorted_unique String.le); [|done|].
  - apply (Sorted_merge_sort String.le).
  - by rewrite merge_sort_Permutation.
Qed.

Lemma currentIndex_prefix (ms : list (NamedMigration U)) L :
  NoDup (name <$> ms) → L `prefix_of` (name <$> ms) →
  currentIndex (stateOf ms L) = Z.of_nat (length L) - 1.
Proof.
  intros Hnd [k Hk]. unfold stateOf, getLast. simpl.
  destruct (last L) as [x|] eqn:Hlast.
  - apply last_Some in Hlast as [L' ->].
    assert ((name <$> ms) !! length L' = Some x) as Hx.
    { rewrite Hk, <-app_assoc. by apply list_lookup_middle. }
    apply list_lookup_fmap_Some in Hx as (m & -> & Hm).
    rewrite length_app. simpl.
    erewrite findIndex_first; [|exact Hm|by apply bool_decide_eq_true|];
      [lia|].
    intros j y Hj Hy. apply bool_decide_eq_false. intros [= Heq].
    assert (j = length L'); [|lia].
    eapply NoDup_lookup; [exact Hnd| |].
    + by rewrite list_lookup_fmap, Hy.
    + by rewrite list_lookup_fmap, Hm, Heq.
  - apply last_None in Hlast as ->. simpl.
    by rewrite findIndex_none.
Qed.

(** ** Idempotence of "migrate to latest" *)

Lemma prefix_take {A} (l k : list A) : l `prefix_of` k → l = take (length l) k.
Proof. intros [r ->]. by rewrite take_app_length. Qed.

(** After a fault-free "migrate to latest" that reported no error, the
    ledger holds exactly the resolved names. *)
Lemma migrateToLatest_settles input (w : World U) rs1 w1 :
  fault_free env →
  migrateToLatest env input w = (rs1, w1) → error rs1 = None →
  ∃ ms, (resolveMigrations env input w).1 = inr ms ∧
        executedNames w1 = name <$> ms.
Proof.
  intros Hff Hm Herr. unfold migrateToLatest in Hm.
  destruct ((resolveMigrations env input w).1) as [e|ms] eqn:Hres.
  { apply migrate_no_delta in Hm as (_ & _ & [[_ (? & ? & _)]|(? & -> & _)]);
      [congruence | done | intros ??; congruence]. }
  destruct (ensureMigrationsNotCorrupted ms (executedNames w)) as [e|[]] eqn:Hok.
  { apply migrate_no_delta in Hm as (_ & _ & [[_ (? & ? & ? & _)]|(? & -> & _)]);
      [congruence | done | intros ???; congruence]. }
  exists ms. split; [done|].
  destruct (resolveMigrations_names input w ms Hres) as [Hnd Hsorted].
  pose proof Hok as Hpre. apply ensureMigrationsNotCorrupted_inr in Hpre.
  pose proof (currentIndex_prefix ms _ Hnd Hpre) as Hc.
  pose proof (prefix_length _ _ Hpre) as Hlen. rewrite length_fmap in Hlen.
  destruct (migrate_ff input latestTarget w ms Hff Hres Hok)
    as (db & wd & _ & Hud & _ & Hrun).
  destruct (dispatch env latestTarget db (stateOf ms (executedNames w)) wd)
    as [r0 w2] eqn:Hd.
  destruct (Hrun r0 w2 eq_refl) as (w' & Heq & _ & Hst).
  rewrite Heq in Hm. injection Hm as <- <-.
  pose proof (dispatch_outcome latestTarget db
                (stateOf ms (executedNames w)) wd) as [_ Hos].
  rewrite Hd in Hos. simpl in Hos.
  destruct r0 as [[e|rs0]|rs0]; simpl in Herr; [done| |].
  { by destruct Hos as (_ & ? & ? & -> & _). }
  simpl in Hst. rewrite andb_false_r in Hst. destruct Hst as [Hl _].
  unfold executedNames at 1. rewrite Hl.
  rewrite dispatch_eq in Hd.
  change (migrations (stateOf ms (executedNames w))) with ms in Hd.
  unfold latestTarget in Hd.
  change (migrations (stateOf ms (executedNames w))) with ms in Hd.
  assert (row_name <$> ledger wd = row_name <$> ledger w) as Hwd.
  { destruct Hud as [-> _]. done. }
  assert (merge_sort String.le (row_name <$> ledger w) = executedNames w)
    as Hsort by done.
  case_bool_decide as Hempty.
  { simplify_eq. rewrite Hwd, Hsort. destruct ms; [|done].
    by apply prefix_nil_inv in Hpre. }
  destruct (_ <? _) eqn:Hlt; [apply Z.ltb_lt in Hlt; lia|].
  destruct (_ >? _) eqn:Hgt.
  - apply private_migrateUp_success in Hd. rewrite Hd, Hwd.
    apply sort_unique; [|done].
    rewrite Hc.
    replace (Z.to_nat (Z.of_nat (length ms) - 1 -
                       (Z.of_nat (length (executedNames w)) - 1)))
      with (length ms - length (executedNames w))%nat by lia.
    replace (Z.to_nat (Z.of_nat (length (executedNames w)) - 1 + 1))
      with (length (executedNames w)) by lia.
    change (migrations (stateOf ms (executedNames w))) with ms.
    rewrite take_ge by (rewrite length_drop, length_fmap; lia).
    rewrite <-(take_drop (length (executedNames w)) (name <$> ms)) at 2.
    apply Permutation_app_tail.
    rewrite <-(prefix_take _ _ Hpre).
    symmetry. apply (merge_sort_Permutation String.le).
  - simplify_eq. rewrite Hwd, Hsort.
    assert (length (executedNames w) = length (name <$> ms)) as Hfull.
    { rewrite length_fmap. rewrite Z.gtb_ltb in Hgt.
      apply Z.ltb_ge in Hgt. lia. }
    rewrite (prefix_take _ _ Hpre), Hfull. by rewrite take_ge.
Qed.


(** ** The down run, step by step *)

Lemma planDown_spec (ms : list (NamedMigration U)) n : ∀ i,
  (n = 0%nat ∨ Z.of_nat n ≤ i + 1 ∧ i < Z.of_nat (length ms)) →
  ∃ results,
    planDown ms i n = inr results ∧ length results = n ∧
    ∀ k, (k < n)%nat →
      ∃ m, at_index ms (i - Z.of_nat k) = Some m ∧
           results !! k = Some {| migrationName := name m; direction := Down;
                                  status := NotExecuted |}.
Proof.
  induction n as [|n IH]; intros i Hb; simpl.
  { exists []. split_and!; [done..|]. lia. }
  destruct Hb as [|[Hlo Hhi]]; [done|].
  destruct (at_index ms i) as [m|] eqn:Hm.
  2:{ unfold at_index in Hm. destruct (i <? 0) eqn:Hneg.
      - apply Z.ltb_lt in Hneg. lia.
      - apply lookup_ge_None in Hm. lia. }
  destruct (IH (i - 1)) as (rest & -> & Hlen & Hrest); [lia|].
  eexists. split_and!; [done|simpl; by rewrite Hlen|].
  intros [|k] Hk.
  - exists m. by rewrite Z.sub_0_r.
  - destruct (Hrest k) as (m' & Hm' & Hk'); [lia|]. exists m'.
    split; [|done]. by replace (i - Z.of_nat (S k)) with (i - 1 - Z.of_nat k) by lia.
Qed.

Lemma downStep_skip db state i results (w : World U) r m :
  results !! i = Some r →
  findMigration (migrations state) (migrationName r) = Some m →
  down m = None →
  downStep env db state i results w = (inr results, w).
Proof.
  intros Hr Hf Hd. unfold downStep. rewrite Hr, Hf. unfold tryCatch.
  by rewrite Hd.
Qed.

Lemma downStep_run db state i results (w : World U) r m action :
  results !! i = Some r →
  findMigration (migrations state) (migrationName r) = Some m →
  down m = Some action →
  let '(o, w') := downStep env db state i results w in
  emits (λ ev, ev.1 = OpDown db (name m) ∨ ev.1 = OpDeleteRecord db (name m))
    w w' ∧
  (∀ row, row ∈ ledger w → row_name row ≠ name m → row ∈ ledger w') ∧
  ∃ x, migrationName x = name m ∧
       (o = inr (<[i:=x]> results) ∨
        ∃ e, o = inl (MigrationResultSetError
                        {| error := Some e;
                           results := Some (<[i:=x]> results) |})).
Proof.
  intros Hr Hf Hd. unfold downStep. rewrite Hr, Hf. unfold tryCatch.
  rewrite Hd. unfold bind, runAction.
  destruct (action (schema w)) as [[e|[]] s]; simpl.
  { split; [apply emits_log; [done | by left]|]. split; [done|].
    eexists. split; [|right; by eexists]. done. }
  unfold deleteRecord, perform. simpl. destruct (fault env _ _); simpl.
  { split; [|split; [done|]].
    - exists [(OpDown db (name m), true); (OpDeleteRecord db (name m), false)].
      simpl. rewrite <-app_assoc. split; [done|].
      constructor; [by left|]. constructor; [by right|]. constructor.
    - eexists. split; [|right; by eexists]. done. }
  split; [|split].
  - exists [(OpDown db (name m), true); (OpDeleteRecord db (name m), true)].
    simpl. rewrite <-app_assoc. split; [done|].
      constructor; [by left|]. constructor; [by right|]. constructor.
  - intros row Hrow Hne. by apply list_elem_of_filter.
  - eexists. split; [|by left]. done.
Qed.

Lemma downLoop_frame db state n : ∀ i results (w : World U),
  (i + n ≤ length results)%nat →
  (∀ j r, (i ≤ j)%nat → results !! j = Some r →
          is_Some (findMigration (migrations state) (migrationName r))) →
  let '(o, w') :=
    forEachIndex (downStep env db state) (seq i n) results w in
  ∃ l, loopResults o = Some l ∧
    ∀ x, (∀ m, findMigration (migrations state) x = Some m → down m = None) →
      emits (λ ev, ev.1 ≠ OpDown db x ∧ ev.1 ≠ OpDeleteRecord db x) w w' ∧
      (∀ row, row ∈ ledger w → row_name row = x → row ∈ ledger w') ∧
      (∀ j r, results !! j = Some r → migrationName r = x → l !! j = Some r).
Proof.
  induction n as [|n IH]; intros i results w Hlen Hfind; simpl.
  { exists results. split; [done|]. intros x Hx. split; [reflexivity|]. auto. }
  unfold bind.
  destruct (results !! i) as [r|] eqn:Hr.
  2:{ apply lookup_ge_None in Hr. lia. }
  destruct (Hfind i r) as [m Hm]; [lia|done|].
  pose proof (findMigration_name _ _ _ Hm) as [Hname _].
  destruct (down m) as [action|] eqn:Hd.
  - pose proof (downStep_run db state i results w r m action Hr Hm Hd) as H.
    destruct (downStep env db state i results w) as [o1 w1].
    destruct H as (He & Hl & x & Hx & Ho).
    assert (∀ y, (∀ m, findMigration (migrations state) y = Some m →
                       down m = None) → y ≠ name m) as Hother.
    { intros y Hy ->. rewrite <-Hname in Hm. apply Hy in Hm. congruence. }
    destruct Ho as [->|[e ->]].
    + specialize (IH (S i) (<[i:=x]> results) w1).
      destruct (forEachIndex _ (seq (S i) n) _ w1) as [o2 w2].
      destruct IH as (l & Hlr & Hframe).
      { rewrite length_insert. lia. }
      { intros j r' Hj. rewrite list_lookup_insert_ne by lia.
        apply Hfind. lia. }
      exists l. split; [done|]. intros y Hy.
      destruct (Hframe y Hy) as (He2 & Hl2 & Hres2).
      pose proof (Hother y Hy) as Hne.
      split_and!.
      * etrans; [|exact He2]. eapply emits_mono; [|exact He].
        intros ev [->| ->]; split; congruence.
      * intros row Hrow Hrn. apply Hl2; [|done]. apply Hl; [done|congruence].
      * intros j r' Hj Hrn. apply Hres2; [|done].
        rewrite list_lookup_insert_ne; [done|]. intros <-.
        rewrite Hr in Hj. congruence.
    + eexists. split; [done|]. intros y Hy.
      pose proof (Hother y Hy) as Hne.
      split_and!.
      * eapply emits_mono; [|exact He].
        intros ev [->| ->]; split; congruence.
      * intros row Hrow Hrn. apply Hl; [done|congruence].
      * intros j r' Hj Hrn.
        rewrite list_lookup_insert_ne; [done|]. intros <-.
        rewrite Hr in Hj. congruence.
  - rewrite (downStep_skip db state i results w r m Hr Hm Hd).
    specialize (IH (S i) results w).
    destruct (forEachIndex _ (seq (S i) n) _ w) as [o2 w2].
    apply IH; [lia|]. intros j r' Hj. apply Hfind. lia.
Qed.

(** C6: in a down run, a migration of the range that defines no [down]
    keeps its planned result (direction Down, status NotExecuted) in the
    result list the run returns or throws; neither its [down] nor a
    deletion of its ledger record is ever called, so no error stems from
    it; and its ledger record stays. *)
Theorem C6_no_down_is_skipped db state targetIndex (w : World U) :
  NoDup (name <$> migrations state) →
  -1 ≤ targetIndex →
  currentIndex state < Z.of_nat (length (migrations state)) →
  let '(o, w') := private_migrateDown env db state targetIndex w in
  ∃ l, results (toResultSet o) = Some l ∧
    ∀ i m,
      targetIndex < i ≤ currentIndex state →
      at_index (migrations state) i = Some m → down m = None →
      l !! Z.to_nat (currentIndex state - i) =
        Some {| migrationName := name m; direction := Down;
                status := NotExecuted |} ∧
      (∀ ok, ((OpDown db (name m), ok) ∉ new_events w w') ∧
             ((OpDeleteRecord db (name m), ok) ∉ new_events w w')) ∧
      (∀ row, row ∈ ledger w → row_name row = name m → row ∈ ledger w').
Proof.
  intros Hnd Ht Hc. rewrite private_migrateDown_eq.
  set (c := currentIndex state) in *.
  destruct (planDown_spec (migrations state) (Z.to_nat (c - targetIndex)) c)
    as (planned & -> & Hlen & Hplan); [lia|].
  pose proof (downLoop_frame db state (length planned) 0%nat planned w) as H.
  unfold bind.
  destruct (forEachIndex (downStep env db state) _ planned w) as [o w'].
  destruct H as (l & Hl & Hframe); [lia| |].
  { intros j r _ Hj. assert (j < length planned)%nat as Hjl
      by by eapply lookup_lt_Some.
    destruct (Hplan j) as (m & Hm & Hj'); [lia|].
    apply at_index_Some in Hm as [_ Hm].
    rewrite Hj in Hj'. injection Hj' as ->. cbn [migrationName].
    rewrite (findMigration_lookup _ _ m Hnd Hm). by eexists. }
  assert (∃ o', match o with
                | inl e => (inl e, w')
                | inr a => ret {| error := None; results := Some a |} w'
                end = (o', w') ∧ results (toResultSet o') = Some l)
    as (o' & -> & Ho').
  { destruct o as [[e|rs]|l']; simpl in *; [done|by eexists..]. }
  exists l. split; [done|].
  intros i m Hi Hm Hd.
  pose proof Hm as Hm'. apply at_index_Some in Hm' as [_ Hm'].
  destruct (Hframe (name m)) as (He & Hled & Hres).
  { intros m' Hm''. rewrite (findMigration_lookup _ _ m Hnd Hm') in Hm''.
    congruence. }
  split_and!.
  - destruct (Hplan (Z.to_nat (c - i))) as (m' & Hm'' & Hk); [lia|].
    replace (c - Z.of_nat (Z.to_nat (c - i))) with i in Hm'' by lia.
    assert (m' = m) as -> by congruence.
    by apply Hres.
  - intros ok. apply emits_new_Forall in He. rewrite Forall_forall in He.
    split; intros Hin; apply He in Hin as [? ?]; done.
  - done.
Qed.

Lemma downStep_success db state i results (w : World U) r m action :
  fault_free env →
  results !! i = Some r →
  findMigration (migrations state) (migrationName r) = Some m →
  down m = Some action → (∀ u, (action u).1 = inr tt) →
  ∃ w1,
    downStep env db state i results w =
      (inr (<[i:={| migrationName := name m; direction := Down;
                    status := Success |}]> results), w1) ∧
    trace w1 = trace w ++ [(OpDown db (name m), true);
                           (OpDeleteRecord db (name m), true)] ∧
    ledger w1 = filter (λ row, row_name row ≠ name m) (ledger w).
Proof.
  intros Hff Hr Hf Hd Hok. unfold downStep. rewrite Hr, Hf.
  unfold tryCatch. rewrite Hd. unfold bind, runAction.
  specialize (Hok (schema w)).
  destruct (action (schema w)) as [[e|[]] s]; simpl in Hok; [done|].
  unfold deleteRecord. rewrite perform_ff by done. simpl.
  eexists. split; [done|]. simpl. by rewrite <-app_assoc.
Qed.

Lemma new_earlier P Q (w1 w2 w3 : World U) ev :
  emits P w1 w2 → emits Q w2 w3 →
  ev ∈ new_events w1 w2 → ev ∈ new_events w1 w3.
Proof.
  intros H1 H2 Hev. rewrite (new_events_trans _ _ w1 w2 w3 H1 H2).
  apply elem_of_app. by left.
Qed.

Lemma new_later P Q (w1 w2 w3 : World U) ev :
  emits P w1 w2 → emits Q w2 w3 →
  ev ∈ new_events w2 w3 → ev ∈ new_events w1 w3.
Proof.
  intros H1 H2 Hev. rewrite (new_events_trans _ _ w1 w2 w3 H1 H2).
  apply elem_of_app. by right.
Qed.

Lemma downLoop_success db state n :
  fault_free env →
  (∀ (m : NamedMigration U) action u,
     m ∈ migrations state → down m = Some action → (action u).1 = inr tt) →
  ∀ i results (w : World U),
    (i + n ≤ length results)%nat →
    (∀ j r, (i ≤ j)%nat → results !! j = Some r →
            is_Some (findMigration (migrations state) (migrationName r))) →
    ∃ l w',
      forEachIndex (downStep env db state) (seq i n) results w = (inr l, w') ∧
      emits (λ _, True) w w' ∧
      (∀ row, row ∈ ledger w' → row ∈ ledger w) ∧
      (∀ j, (j < i)%nat → l !! j = results !! j) ∧
      ∀ j r m,
        (i ≤ j < i + n)%nat → results !! j = Some r →
        findMigration (migrations state) (migrationName r) = Some m →
        match down m with
        | Some _ =>
            l !! j = Some {| migrationName := name m; direction := Down;
                             status := Success |} ∧
            (OpDown db (name m), true) ∈ new_events w w' ∧
            (OpDeleteRecord db (name m), true) ∈ new_events w w' ∧
            ∀ row, row ∈ ledger w' → row_name row ≠ name m
        | None => l !! j = Some r
        end.
Proof.
  intros Hff Hok. induction n as [|n IH]; intros i results w Hlen Hfind.
  { exists results, w. split_and!; [done|reflexivity|done..|]. intros; lia. }
  simpl. unfold bind.
  destruct (results !! i) as [r|] eqn:Hr.
  2:{ apply lookup_ge_None in Hr. lia. }
  destruct (Hfind i r) as [m Hm]; [lia|done|].
  pose proof (findMigration_name _ _ _ Hm) as [Hname Hin].
  assert (∀ x, ∀ j r', (S i ≤ j)%nat → <[i:=x]> results !! j = Some r' →
            is_Some (findMigration (migrations state) (migrationName r')))
    as Hfind'.
  { intros x j r' Hj. rewrite list_lookup_insert_ne by lia. apply Hfind. lia. }
  destruct (down m) as [action|] eqn:Hd.
  - destruct (downStep_success db state i results w r m action)
      as (w1 & -> & Ht1 & Hl1); [done..|by eauto|].
    destruct (IH (S i)
                (<[i:={| migrationName := name m; direction := Down;
                         status := Success |}]> results) w1)
      as (l & w' & -> & He & Hsub & Hpre & Hall);
      [rewrite length_insert; lia | by apply Hfind' |].
    assert (emits (λ _, True) w w1) as He1.
    { eexists. split; [exact Ht1|]. by repeat constructor. }
    exists l, w'. split_and!; [done|by etrans| | |].
    { intros row Hrow. apply Hsub in Hrow. rewrite Hl1 in Hrow.
      by apply list_elem_of_filter in Hrow as [_ ?]. }
    { intros j Hj. rewrite Hpre by lia. by rewrite list_lookup_insert_ne by lia. }
    intros j r' m' Hj Hr' Hm'.
    destruct (decide (j = i)) as [->|Hne].
    + assert (r' = r) as -> by congruence.
      assert (m' = m) as -> by congruence. rewrite Hd.
      split_and!.
      * rewrite Hpre by lia. apply list_lookup_insert_eq.
        by eapply lookup_lt_Some.
      * eapply new_earlier; [exact He1|exact He|].
        rewrite (new_events_app _ _ _ Ht1). by left.
      * eapply new_earlier; [exact He1|exact He|].
        rewrite (new_events_app _ _ _ Ht1). right. by left.
      * intros row Hrow. apply Hsub in Hrow. rewrite Hl1 in Hrow.
        by apply list_elem_of_filter in Hrow as [? _].
    + specialize (Hall j r' m'). rewrite list_lookup_insert_ne in Hall by done.
      ospecialize* Hall; [lia|done..|].
      destruct (down m'); [|done].
      destruct Hall as (? & ? & ? & ?). split_and!; [done| | |done].
      * eapply new_later; [exact He1|exact He|done].
      * eapply new_later; [exact He1|exact He|done].
  - rewrite (downStep_skip db state i results w r m Hr Hm Hd).
    destruct (IH (S i) results w) as (l & w' & -> & He & Hsub & Hpre & Hall);
      [lia|intros j r' ??; apply (Hfind j); [lia|done]|].
    exists l, w'. split_and!; [done..| |].
    { intros j Hj. apply Hpre. lia. }
    intros j r' m' Hj Hr' Hm'.
    destruct (decide (j = i)) as [->|Hne].
    + assert (r' = r) as -> by congruence.
      assert (m' = m) as -> by congruence. rewrite Hd.
      rewrite Hpre by lia. done.
    + apply Hall; [lia|done..].
Qed.


(** ** Partial failure *)

Lemma filter_no_steps (evs : list Event) :
  Forall (λ ev : Event, is_step ev.1 = false) evs →
  filter (λ ev : Event, is_step ev.1 = true) evs = [].
Proof.
  induction 1 as [|ev evs Hev _ IH]; [done|].
  rewrite filter_cons_False; [done | congruence].
Qed.

(** C3 (as amended): migrations ["a"], ["b"], ["c"], nothing executed yet,
    no call faulting, the [up] of ["a"] succeeding and the [up] of ["b"]
    failing.  "Migrate to latest" returns the error of ["b"] with the
    results a: Success, b: Error, c: NotExecuted, all of direction Up.  The
    only step calls are the [up] of ["a"], the insertion of its record and
    the [up] of ["b"]: nothing is attempted for ["c"].  On a connection
    (no transactional DDL) the ledger afterwards holds exactly the record
    of ["a"]; in a transaction it is rolled back and holds nothing. *)
Theorem C3_partial_failure (ma mb mc : Migration U) (w : World U) e s1 s2 :
  fault_free env →
  ledger w = [] →
  up ma (schema w) = (inr tt, s1) →
  up mb s1 = (inl e, s2) →
  let db := if supportsTransactionalDdl env then TransactionDb
            else ConnectionDb in
  let '(rs, w') :=
    migrateToLatest env
      (Migrations {[ "a" := ma; "b" := mb; "c" := mc ]}) w in
  rs = {| error := Some e;
          results :=
            Some [ {| migrationName := "a"; direction := Up;
                      status := Success |};
                   {| migrationName := "b"; direction := Up;
                      status := Error |};
                   {| migrationName := "c"; direction := Up;
                      status := NotExecuted |} ] |} ∧
  filter (λ ev : Event, is_step ev.1 = true) (new_events w w') =
    [ (OpUp db "a", true); (OpInsertRecord db "a", true);
      (OpUp db "b", false) ] ∧
  if supportsTransactionalDdl env
  then ledger w' = [] ∧ schema w' = schema w
  else row_name <$> ledger w' = ["a"] ∧ schema w' = s2.
Proof.
  intros Hff Hl Ha Hb db. unfold migrateToLatest.
  set (ms := [ {| name := "a"; base := ma |}; {| name := "b"; base := mb |};
               {| name := "c"; base := mc |} ]).
  assert ((resolveMigrations env
             (Migrations {[ "a" := ma; "b" := mb; "c" := mc ]}) w).1 = inr ms)
    as Hres by (vm_compute; reflexivity).
  assert (executedNames w = []) as HL by (unfold executedNames; by rewrite Hl).
  assert (ensureMigrationsNotCorrupted ms (executedNames w) = inr tt) as Hok
    by by rewrite HL.
  destruct (migrate_ff _ latestTarget w ms Hff Hres Hok)
    as (db' & w1 & Hdb & Hu1 & He1 & Hrun).
  fold db in Hdb. subst db'.
  rewrite HL in Hrun.
  destruct Hu1 as [Hl1 Hs1]. rewrite Hl in Hl1.
  rewrite dispatch_eq in Hrun. simpl in Hrun.
  rewrite private_migrateUp_eq in Hrun. simpl in Hrun.
  unfold bind, upStep in Hrun. simpl in Hrun.
  unfold tryCatch, bind, runAction in Hrun.
  rewrite Hs1, Ha in Hrun. simpl in Hrun.
  unfold insertRecord in Hrun. simpl in Hrun. rewrite Hl1 in Hrun.
  simpl in Hrun. rewrite perform_ff in Hrun by done. simpl in Hrun.
  rewrite Hb in Hrun. simpl in Hrun.
  destruct (Hrun _ _ eq_refl) as (w' & -> & He2 & Hst). clear Hrun.
  split; [done|]. split.
  - set (w2 := log (OpUp db "b") false _) in *.
    assert (emits (on is_step) w1 w2) as He12.
    { exists [ (OpUp db "a", true); (OpInsertRecord db "a", true);
               (OpUp db "b", false) ].
      split; [|by repeat constructor].
      subst w2. simpl. by rewrite <-!app_assoc. }
    rewrite (new_events_trans _ _ w w1 w' He1 (transitivity
               (emits_True _ _ _ He12) (emits_True _ _ _ He2))).
    rewrite (new_events_trans _ _ w1 w2 w' He12 He2).
    rewrite !filter_app.
    rewrite (filter_no_steps (new_events w w1)) by by apply emits_new_Forall.
    rewrite (filter_no_steps (new_events w2 w')) by by apply emits_new_Forall.
    rewrite app_nil_r. simpl.
    erewrite (new_events_app w1 w2);
      [|subst w2; simpl; by rewrite <-!app_assoc].
    done.
  - destruct (supportsTransactionalDdl env); simpl in Hst.
    + destruct Hst as [-> ->]. done.
    + destruct Hst as [-> ->]. simpl. by rewrite Hl1.
Qed.

End Proofs.

(** * Further properties of the engine *)

Section Bootstrap.

Context {U : Type} (env : Env U).

(** ** The bootstrap, object by object *)

Ltac run_bootstrap :=
  unfold ensureMigrationTablesExists, ensureMigrationTableExists,
    ensureMigrationLockTableExists, ensureTableExists, ensureLockRowExists,
    doesTableExists, doesLockRowExists, createTable, insertLockRow, bind,
    tryCatch, perform, performCreation, throw, ret.

Ltac new_log :=
  cbv beta iota; unfold new_events; cbn [trace log set_tables set_lockRow];
  rewrite <-?app_assoc, ?drop_app_length; cbn [app].

Global Instance grows_preorder : PreOrder (grows (U:=U)).
Proof.
  split.
  - by intros w.
  - intros w1 w2 w3 [H1 H1'] [H2 H2']. split; auto.
Qed.

Lemma ensureTableExists_post t (w w' : World U) :
  ensureTableExists env t w = (inr tt, w') → t ∈ tables w'.
Proof.
  run_bootstrap. intros H.
  repeat case_match; simplify_eq/=; repeat case_bool_decide; try done;
    apply elem_of_app; right; by left.
Qed.

Lemma ensureLockRowExists_post (w w' : World U) :
  ensureLockRowExists env w = (inr tt, w') → lockRow w' = true.
Proof.
  run_bootstrap. intros H.
  repeat case_match; simplify_eq/=; try done; by destruct (lockRow w).
Qed.

Lemma ensureTableExists_grows t : steps grows (ensureTableExists env t).
Proof.
  intros w. run_bootstrap.
  repeat case_match; simplify_eq/=; split; simpl; try done;
    intros t' Ht'; repeat case_bool_decide; simpl; try done;
    apply elem_of_app; by left.
Qed.

Lemma ensureLockRowExists_grows : steps grows (ensureLockRowExists env).
Proof.
  intros w. run_bootstrap.
  repeat case_match; simplify_eq/=; split; simpl; done.
Qed.

(** X1: when the bootstrap returns normally, the ledger table, the lock
    table and the lock row all exist, whichever calls failed on the way;
    no table that existed is lost, and ledger and schema are as before. *)
Theorem X1_bootstrap_establishes (w w' : World U) :
  ensureMigrationTablesExists env w = (inr tt, w') →
  MIGRATION_TABLE ∈ tables w' ∧ MIGRATION_LOCK_TABLE ∈ tables w' ∧
  lockRow w' = true ∧ grows w w' ∧ untouched w w'.
Proof.
  intros H.
  pose proof (ensureMigrationTablesExists_untouched env w) as Hu.
  rewrite H in Hu. simpl in Hu.
  unfold ensureMigrationTablesExists, ensureMigrationTableExists,
    ensureMigrationLockTableExists, bind in H.
  destruct (ensureTableExists env MIGRATION_TABLE w) as [[e|[]] w1] eqn:H1;
    [done|].
  destruct (ensureTableExists env MIGRATION_LOCK_TABLE w1)
    as [[e|[]] w2] eqn:H2; [done|].
  pose proof (ensureTableExists_grows MIGRATION_TABLE w) as G1.
  pose proof (ensureTableExists_grows MIGRATION_LOCK_TABLE w1) as G2.
  pose proof (ensureLockRowExists_grows w2) as G3.
  rewrite H1 in G1. rewrite H2 in G2. rewrite H in G3. simpl in *.
  apply ensureTableExists_post in H1, H2.
  apply ensureLockRowExists_post in H.
  split_and!; [by apply G3, G2|by apply G3|done| |done].
  by etrans; [|etrans].
Qed.

Lemma ensureTableExists_existing t (w : World U) :
  t ∈ tables w →
  ensureTableExists env t w =
  match fault env (length (trace w)) OpGetMetadata with
  | Some e => (inl e, log OpGetMetadata false w)
  | None => (inr tt, log OpGetMetadata true w)
  end.
Proof.
  intros Ht. run_bootstrap.
  destruct (fault env _ _); [done|]. by rewrite bool_decide_eq_true_2.
Qed.

Lemma ensureLockRowExists_existing (w : World U) :
  lockRow w = true →
  ensureLockRowExists env w =
  match fault env (length (trace w)) OpSelectLockRow with
  | Some e => (inl e, log OpSelectLockRow false w)
  | None => (inr tt, log OpSelectLockRow true w)
  end.
Proof.
  intros Ht. run_bootstrap.
  destruct (fault env _ _); [done|]. by rewrite Ht.
Qed.

(** X2: on a database that has both tables and the lock row, the bootstrap
    only reads: it issues no creation and changes nothing; when it returns
    normally it has made exactly three calls, two reads of the metadata and
    one of the lock row.  It fails only if one of these reads does. *)
Theorem X2_bootstrap_reads_only (w : World U) :
  MIGRATION_TABLE ∈ tables w → MIGRATION_LOCK_TABLE ∈ tables w →
  lockRow w = true →
  let '(r, w') := ensureMigrationTablesExists env w in
  Forall (λ ev : Event, is_creation ev.1 = false) (new_events w w') ∧
  tables w' = tables w ∧ lockRow w' = true ∧ untouched w w' ∧
  (r = inr tt →
   new_events w w' =
     [(OpGetMetadata, true); (OpGetMetadata, true); (OpSelectLockRow, true)]) ∧
  (∀ e, r = inl e →
     ∃ n op, fault env n op = Some e ∧ is_creation op = false) ∧
  (fault_free env → r = inr tt).
Proof.
  intros H1 H2 H3.
  unfold ensureMigrationTablesExists, ensureMigrationTableExists,
    ensureMigrationLockTableExists, bind.
  rewrite (ensureTableExists_existing _ _ H1).
  destruct (fault env (length (trace w)) OpGetMetadata) as [e1|] eqn:F1.
  { new_log. split_and!; [by repeat constructor|done..| |].
    - intros e [= <-]. by eauto.
    - intros Hff. by rewrite Hff in F1. }
  rewrite (ensureTableExists_existing _ (log OpGetMetadata true w) H2).
  destruct (fault env (length (trace (log _ _ _))) OpGetMetadata)
    as [e2|] eqn:F2.
  { new_log. split_and!; [by repeat constructor|done..| |].
    - intros e [= <-]. by eauto.
    - intros Hff. by rewrite Hff in F2. }
  rewrite ensureLockRowExists_existing by done.
  destruct (fault env _ OpSelectLockRow) as [e3|] eqn:F3.
  { new_log. split_and!; [by repeat constructor|done..| |].
    - intros e [= <-]. by eauto.
    - intros Hff. by rewrite Hff in F3. }
  new_log. split_and!; [by repeat constructor|done..].
Qed.

(** X3: a creation that fails is forgiven when the object is there at the
    second look.  [#ensureMigrationTableExists] and its sibling return
    normally whenever no read of the metadata failed and the table exists in
    the end; when they throw, either a read failed or the creation failed,
    the table is still missing, and the error thrown is the creation's own.
    Likewise [#ensureLockRowExists] for the lock row. *)
Theorem X3_creation_race_tolerated tableName (w : World U) :
  (let '(r, w') := ensureTableExists env tableName w in
   (((OpGetMetadata, false) ∉ new_events w w') → tableName ∈ tables w' →
    r = inr tt) ∧
   (∀ e, r = inl e →
      (OpGetMetadata, false) ∈ new_events w w' ∨
      ((OpCreateTable tableName, false) ∈ new_events w w' ∧
       (tableName ∉ tables w') ∧
       ∃ n, fault env n (OpCreateTable tableName) = Some e))) ∧
  (let '(r, w') := ensureLockRowExists env w in
   (((OpSelectLockRow, false) ∉ new_events w w') → lockRow w' = true →
    r = inr tt) ∧
   (∀ e, r = inl e →
      (OpSelectLockRow, false) ∈ new_events w w' ∨
      ((OpInsertLockRow, false) ∈ new_events w w' ∧ lockRow w' = false ∧
       ∃ n, fault env n OpInsertLockRow = Some e))).
Proof.
  split.
  - run_bootstrap.
    repeat case_match; simplify_eq/=; new_log;
      (split; [intros Hno Hin; try done|intros e' He'; simplify_eq]).
    all: try (exfalso; apply Hno; by repeat constructor).
    all: try (left; by repeat constructor).
    all: try (repeat case_bool_decide; simplify_eq/=; done).
    all: right; split_and!; [by repeat constructor| |by eauto].
    all: repeat case_bool_decide; simplify_eq/=; done.
  - run_bootstrap.
    repeat case_match; simplify_eq/=; new_log;
      (split; [intros Hno Hin; try done|intros e' He'; simplify_eq]).
    all: try (exfalso; apply Hno; by repeat constructor).
    all: try (left; by repeat constructor).
    all: try (right; split_and!; [by repeat constructor| |by eauto]).
    all: try (by destruct (lockRow w)).
Qed.

End Bootstrap.

Section Source.

Context {U : Type} (env : Env U).

(** ** Reading the folder *)

Lemma readMigrationFiles_cons folder file files acc (w : World U) :
  readMigrationFiles env folder (file :: files) acc w =
  if isMigrationFile file then
    match import_ env (path_join folder file) with
    | inl e => (inl e, log (OpImport (path_join folder file)) false w)
    | inr migration =>
        readMigrationFiles env folder files
          (match isMigration migration with
           | Some m => <[migrationKey file := m]> acc
           | None => acc
           end)
          (log (OpImport (path_join folder file)) true w)
    end
  else readMigrationFiles env folder files acc w.
Proof.
  cbn [readMigrationFiles]. unfold isMigrationFile.
  destruct (_ && _); [|done].
  unfold bind, importM, migrationKey.
  destruct (import_ env _) as [e|migration]; [done|]. simpl.
  by destruct (isMigration migration).
Qed.

Lemma readMigrationFiles_log folder files : ∀ acc (w : World U),
  let '(r, w') := readMigrationFiles env folder files acc w in
  ∃ imported,
    trace w' = trace w ++ (importEvent env folder <$> imported) ∧
    imported `prefix_of` filter (λ f, isMigrationFile f = true) files ∧
    match r with
    | inr _ =>
        imported = filter (λ f, isMigrationFile f = true) files ∧
        Forall (λ f, is_inr (import_ env (path_join folder f)) = true) imported
    | inl e =>
        ∃ pre f, imported = pre ++ [f] ∧
          import_ env (path_join folder f) = inl e ∧
          Forall (λ f, is_inr (import_ env (path_join folder f)) = true) pre
    end.
Proof.
  induction files as [|file files IH]; intros acc w.
  { exists []. simpl. by rewrite app_nil_r. }
  rewrite readMigrationFiles_cons.
  destruct (isMigrationFile file) eqn:Hf.
  2:{ specialize (IH acc w). destruct (readMigrationFiles _ _ _ _ _) as [r w'].
      destruct IH as (imported & Ht & Hp & Hr). exists imported.
      rewrite filter_cons_False by congruence. done. }
  rewrite filter_cons_True by done.
  destruct (import_ env (path_join folder file)) as [e|migration] eqn:Hi.
  { exists [file]. split_and!.
    - simpl. unfold importEvent. by rewrite Hi.
    - by apply prefix_cons, prefix_nil.
    - by exists [], file. }
  match goal with |- context [readMigrationFiles env folder files ?a ?w1] =>
    specialize (IH a w1); destruct (readMigrationFiles env folder files a w1)
      as [r w'] end.
  destruct IH as (imported & Ht & Hp & Hr). exists (file :: imported).
  split_and!.
  - rewrite Ht. simpl. rewrite <-app_assoc. simpl. unfold importEvent at 2.
    by rewrite Hi.
  - by apply prefix_cons.
  - destruct r as [e|m].
    + destruct Hr as (pre & f & -> & Hf' & Hpre). exists (file :: pre), f.
      split_and!; [done..|]. constructor; [by rewrite Hi|done].
    + destruct Hr as [-> Hall]. split; [done|].
      constructor; [by rewrite Hi|done].
Qed.

(** X4: [#readMigrationsFromFolder] imports, in the order of the directory
    listing, the files that end in [.js] or [.ts] but not in [.d.ts], and no
    others.  It stops at the first import that fails and throws its error;
    an error of [readdir] is thrown before anything is imported. *)
Theorem X4_folder_imports migrationsFolderPath (w : World U) :
  let '(r, w') := readMigrationsFromFolder env migrationsFolderPath w in
  match readdir env migrationsFolderPath with
  | inl e =>
      r = inl e ∧ new_events w w' = [(OpReaddir migrationsFolderPath, false)]
  | inr files =>
      let candidates := filter (λ f, isMigrationFile f = true) files in
      ∃ imported,
        new_events w w' =
          (OpReaddir migrationsFolderPath, true) ::
          (importEvent env migrationsFolderPath <$> imported) ∧
        match r with
        | inr _ =>
            imported = candidates ∧
            Forall (λ ev : Event, ev.2 = true) (new_events w w')
        | inl e =>
            ∃ pre f post, candidates = pre ++ f :: post ∧
              imported = pre ++ [f] ∧
              import_ env (path_join migrationsFolderPath f) = inl e ∧
              Forall (λ f, is_inr (import_ env
                                     (path_join migrationsFolderPath f)) = true)
                pre
        end
  end.
Proof.
  unfold readMigrationsFromFolder, bind, readdirM.
  destruct (readdir env migrationsFolderPath) as [e|files]; simpl.
  { split; [done|]. unfold new_events. simpl. by rewrite drop_app_length. }
  pose proof (readMigrationFiles_log migrationsFolderPath files ∅
                (log (OpReaddir migrationsFolderPath) true w)) as H.
  destruct (readMigrationFiles _ _ _ _ _) as [r w'].
  destruct H as (imported & Ht & Hp & Hr). exists imported.
  assert (new_events w w' =
            (OpReaddir migrationsFolderPath, true) ::
            (importEvent env migrationsFolderPath <$> imported)) as Hn.
  { unfold new_events. rewrite Ht. simpl. rewrite <-app_assoc.
    by rewrite drop_app_length. }
  split; [done|]. destruct r as [e|m].
  - destruct Hr as (pre & f & -> & Hf & Hpre).
    destruct Hp as [post Hp]. exists pre, f, post.
    rewrite Hp, <-app_assoc. done.
  - destruct Hr as [-> Hall]. split; [done|]. rewrite Hn.
    constructor; [done|]. apply Forall_fmap.
    eapply Forall_impl; [exact Hall|]. by intros f Hf.
Qed.

Lemma readMigrationFiles_keep folder k files : ∀ acc (w : World U) m w',
  readMigrationFiles env folder files acc w = (inr m, w') →
  (∀ g module mig, g ∈ files → isMigrationFile g = true →
     migrationKey g = k → import_ env (path_join folder g) = inr module →
     isMigration module = Some mig → False) →
  m !! k = acc !! k.
Proof.
  induction files as [|file files IH]; intros acc w m w' H Hno.
  { by injection H as <- _. }
  rewrite readMigrationFiles_cons in H.
  assert (∀ g module mig, g ∈ files → isMigrationFile g = true →
     migrationKey g = k → import_ env (path_join folder g) = inr module →
     isMigration module = Some mig → False) as Hno'.
  { intros g module mig Hg. apply Hno. by right. }
  destruct (isMigrationFile file) eqn:Hf; [|by eapply IH].
  destruct (import_ env (path_join folder file)) as [e|module] eqn:Hi; [done|].
  rewrite (IH _ _ _ _ H Hno').
  destruct (isMigration module) as [mig|] eqn:Hm; [|done].
  apply lookup_insert_ne. intros Hk.
  eapply (Hno file); [by left|done..].
Qed.

Lemma readMigrationFiles_dom folder k files : ∀ acc (w : World U) m w',
  readMigrationFiles env folder files acc w = (inr m, w') →
  is_Some (m !! k) ↔
  is_Some (acc !! k) ∨
  ∃ f module mig, f ∈ files ∧ isMigrationFile f = true ∧
    migrationKey f = k ∧
    import_ env (path_join folder f) = inr module ∧
    isMigration module = Some mig.
Proof.
  induction files as [|file files IH]; intros acc w m w' H.
  { injection H as <- _. split; [by left|].
    intros [?|(f & ? & ? & Hf & _)]; [done|]. by apply elem_of_nil in Hf. }
  rewrite readMigrationFiles_cons in H.
  destruct (isMigrationFile file) eqn:Hf.
  2:{ rewrite (IH _ _ _ _ H). split.
      - intros [?|(f & module & mig & ? & ?)]; [by left|].
        right. exists f, module, mig. split; [by right|done].
      - intros [?|(f & module & mig & Hin & Hf' & ?)]; [by left|].
        apply elem_of_cons in Hin as [->|Hin]; [congruence|].
        right. by exists f, module, mig. }
  destruct (import_ env (path_join folder file)) as [e|module] eqn:Hi; [done|].
  rewrite (IH _ _ _ _ H). split.
  - intros [Hacc|(f & module' & mig & ? & ?)].
    + destruct (isMigration module) as [mig|] eqn:Hm; [|by left].
      destruct (decide (migrationKey file = k)) as [Hk|Hk].
      * right. exists file, module, mig. split; [by left|done].
      * rewrite lookup_insert_ne in Hacc by done. by left.
    + right. exists f, module', mig. split; [by right|done].
  - intros [Hacc|(f & module' & mig & Hin & Hf' & Hk & Hi' & Hm')].
    + left. destruct (isMigration module); [|done].
      destruct (decide (migrationKey file = k)) as [<-|Hk].
      * rewrite lookup_insert_eq. by eexists.
      * by rewrite lookup_insert_ne.
    + apply elem_of_cons in Hin as [->|Hin].
      * left. assert (module' = module) as -> by congruence.
        rewrite Hm', <-Hk, lookup_insert_eq. by eexists.
      * right. by exists f, module', mig.
Qed.

Lemma readMigrationFiles_last folder pre f post module mig :
  ∀ acc (w : World U) m w',
  readMigrationFiles env folder (pre ++ f :: post) acc w = (inr m, w') →
  isMigrationFile f = true →
  import_ env (path_join folder f) = inr module →
  isMigration module = Some mig →
  (∀ g module' mig', g ∈ post → isMigrationFile g = true →
     migrationKey g = migrationKey f →
     import_ env (path_join folder g) = inr module' →
     isMigration module' = Some mig' → False) →
  m !! migrationKey f = Some mig.
Proof.
  induction pre as [|file pre IH]; intros acc w m w' H Hf Hi Hm Hno.
  - rewrite app_nil_l, readMigrationFiles_cons, Hf, Hi, Hm in H.
    rewrite (readMigrationFiles_keep _ _ _ _ _ _ _ H Hno).
    apply lookup_insert_eq.
  - rewrite <-app_comm_cons, readMigrationFiles_cons in H.
    destruct (isMigrationFile file); [|by eapply IH].
    destruct (import_ env (path_join folder file)); [done|]. by eapply IH.
Qed.


(** ** The resolved list *)

Lemma elem_of_sortedKeys (m : gmap string (Migration U)) k :
  k ∈ sortedKeys m ↔ is_Some (m !! k).
Proof.
  unfold sortedKeys. rewrite (merge_sort_Permutation String.le).
  rewrite list_elem_of_fmap. split.
  - intros ([k' mig] & -> & Hin). apply elem_of_map_to_list in Hin. by eexists.
  - intros [mig Hk]. exists (k, mig). split; [done|].
    by apply elem_of_map_to_list.
Qed.


End Source.

Section Planner.

Context {U : Type} (env : Env U).

(** ** The state the planner builds *)

Lemma getState_eq db input (w : World U) :
  getState env db input w =
  match resolveMigrations env input w with
  | (inl e, w2) => (inl e, w2)
  | (inr ms, w2) =>
      match fault env (length (trace w2)) (OpSelectExecuted db) with
      | Some e => (inl e, log (OpSelectExecuted db) false w2)
      | None =>
          match ensureMigrationsNotCorrupted ms (executedNames w2) with
          | inl e => (inl e, log (OpSelectExecuted db) true w2)
          | inr _ =>
              (inr (stateOf ms (executedNames w2)),
               log (OpSelectExecuted db) true w2)
          end
      end
  end.
Proof.
  unfold getState, bind, getExecutedMigrations, perform, liftPure, ret.
  destruct (resolveMigrations env input w) as [[e|ms] w2]; [done|].
  destruct (fault env _ _); [done|]. simpl.
  fold (executedNames w2).
  by destruct (ensureMigrationsNotCorrupted ms (executedNames w2)) as [e|[]].
Qed.

Lemma length_executedNames (w : World U) :
  length (executedNames w) = length (ledger w).
Proof.
  unfold executedNames.
  by rewrite (merge_sort_Permutation String.le), length_fmap.
Qed.

(** X7: the state [#getState] returns.  The names in the ledger are exactly
    the first [currentIndex + 1] names of the sorted migration list, so
    [currentIndex] is the number of ledger rows less one ([-1] on an empty
    ledger) and lies between [-1] and the last index of the list.  Neither
    the ledger nor the schema is changed by computing it. *)
Theorem X7_state_invariant db input (w w' : World U) state :
  getState env db input w = (inr state, w') →
  (resolveMigrations env input w).1 = inr (migrations state) ∧
  executedNames w =
    take (Z.to_nat (currentIndex state + 1)) (name <$> migrations state) ∧
  currentIndex state = Z.of_nat (length (ledger w)) - 1 ∧
  -1 ≤ currentIndex state < Z.of_nat (length (migrations state)) ∧
  untouched w w'.
Proof.
  rewrite getState_eq. intros H.
  pose proof (resolveMigrations_untouched env input w) as Hu.
  destruct (resolveMigrations env input w) as [[e|ms] w2] eqn:Hres; [done|].
  simpl in Hu.
  destruct (fault env _ _); [done|].
  rewrite (untouched_executedNames _ _ Hu) in H.
  destruct (ensureMigrationsNotCorrupted ms (executedNames w))
    as [e|[]] eqn:Hok; [done|].
  injection H as <- <-.
  apply ensureMigrationsNotCorrupted_inr in Hok.
  destruct (resolveMigrations_names env input w ms) as [Hnd _].
  { by rewrite Hres. }
  pose proof (currentIndex_prefix ms _ Hnd Hok) as Hc.
  pose proof (prefix_length _ _ Hok) as Hlen.
  rewrite length_fmap in Hlen.
  change (migrations (stateOf ms (executedNames w))) with ms.
  rewrite Hc, <-length_executedNames.
  split_and!; [done| |done|lia|lia|by destruct Hu].
  replace (Z.to_nat (Z.of_nat (length (executedNames w)) - 1 + 1))
    with (length (executedNames w)) by lia.
  by apply prefix_take.
Qed.

(** ** Which corruption error *)

Lemma ensureExecutedExist_missing (ms : list (NamedMigration U)) x post :
  ∀ pre, (∀ n, n ∈ pre → n ∈ name <$> ms) → x ∉ name <$> ms →
    ensureExecutedExist ms (pre ++ x :: post) = inl (CorruptedMissing x).
Proof.
  induction pre as [|n pre IH]; intros Hpre Hx; simpl.
  - destruct (existsb _ ms) eqn:He; [|done].
    by apply existsb_name in He.
  - destruct (existsb _ ms) eqn:He.
    + apply IH; [|done]. intros n' Hn'. apply Hpre. by right.
    + assert (existsb (λ it : NamedMigration U, bool_decide (name it = n)) ms
              = true) as He'.
      { apply existsb_name, Hpre. by left. }
      congruence.
Qed.

Lemma ensureExecutedFirst_aligned (ms : list (NamedMigration U)) rest k :
  ∀ j, (j + k ≤ length ms)%nat →
    ensureExecutedFirst ms j (take k (drop j (name <$> ms)) ++ rest) =
    ensureExecutedFirst ms (j + k) rest.
Proof.
  induction k as [|k IH]; intros j Hj.
  { by rewrite Nat.add_0_r. }
  destruct (ms !! j) as [m|] eqn:Hm.
  2:{ apply lookup_ge_None in Hm. lia. }
  assert ((name <$> ms) !! j = Some (name m)) as Hn
    by by rewrite list_lookup_fmap, Hm.
  rewrite (drop_S _ _ _ Hn). simpl. rewrite Hm.
  rewrite bool_decide_eq_false_2 by (intros H; by apply H).
  rewrite IH by lia. f_equal. lia.
Qed.

(** X8: the outcome of the corruption check in full.  It passes exactly
    when the executed names are a prefix of the sorted migration names.  A
    first executed name that is in no migration is reported as missing,
    even if names before it are out of place; when every executed name is
    known, the first one that is not at its position is reported, with the
    position and the name found there. *)
Theorem X8_corruption_errors (ms : list (NamedMigration U)) :
  (∀ L, ensureMigrationsNotCorrupted ms L = inr tt ↔
        L `prefix_of` (name <$> ms)) ∧
  (∀ pre x post,
     (∀ n, n ∈ pre → n ∈ name <$> ms) → x ∉ name <$> ms →
     ensureMigrationsNotCorrupted ms (pre ++ x :: post)
     = inl (CorruptedMissing x)) ∧
  (∀ i x m post,
     (∀ n, n ∈ take i (name <$> ms) ++ x :: post → n ∈ name <$> ms) →
     ms !! i = Some m → name m ≠ x →
     ensureMigrationsNotCorrupted ms (take i (name <$> ms) ++ x :: post)
     = inl (CorruptedOrder x i (name m))).
Proof.
  split_and!.
  - apply ensureMigrationsNotCorrupted_inr.
  - intros pre x post Hpre Hx. unfold ensureMigrationsNotCorrupted.
    by rewrite ensureExecutedExist_missing.
  - intros i x m post Hall Hm Hx. unfold ensureMigrationsNotCorrupted.
    assert (ensureExecutedExist ms (take i (name <$> ms) ++ x :: post) = inr tt)
      as -> by by apply ensureExecutedExist_inr.
    assert (i < length ms)%nat as Hi by by eapply lookup_lt_Some.
    rewrite <-(drop_0 (name <$> ms)) at 1.
    rewrite ensureExecutedFirst_aligned by lia. simpl. rewrite Hm.
    by rewrite bool_decide_eq_true_2.
Qed.

End Planner.

Section UpRun.

Context {U : Type} (env : Env U).

(** ** The shape of an up run *)

Lemma findMigration_Some (ms : list (NamedMigration U)) n :
  n ∈ name <$> ms → ∃ m, findMigration ms n = Some m ∧ name m = n.
Proof.
  intros Hn. destruct (findMigration ms n) as [m|] eqn:Hf.
  { exists m. split; [done|]. by apply findMigration_name in Hf as [? _]. }
  exfalso. unfold findMigration in Hf.
  apply list_elem_of_fmap in Hn as (m & -> & Hm).
  apply list_elem_of_In in Hm.
  pose proof (find_none _ _ Hf m Hm) as Hb. simpl in Hb.
  by rewrite bool_decide_eq_true_2 in Hb.
Qed.

Lemma results_lookup_middle d s (finished : list MigrationResult)
    (done : list string) x later :
  length finished = length done →
  (finished ++ resultsOf d s (x :: later)) !! length done =
  Some {| migrationName := x; direction := d; status := s |}.
Proof. intros Hl. by apply list_lookup_middle. Qed.

Lemma results_insert_middle d s (finished : list MigrationResult)
    (done : list string) x later r :
  length finished = length done →
  <[length done := r]> (finished ++ resultsOf d s (x :: later)) =
  finished ++ r :: resultsOf d s later.
Proof.
  intros Hl. rewrite <-Hl.
  replace (length finished) with (length finished + 0)%nat by lia.
  by rewrite insert_app_r.
Qed.

Lemma resultsOf_snoc d s done x :
  resultsOf d s (done ++ [x]) =
  resultsOf d s done ++ [{| migrationName := x; direction := d; status := s |}].
Proof. unfold resultsOf. by rewrite fmap_app. Qed.

Lemma upStep_shape db state done x later m (w : World U) :
  findMigration (migrations state) x = Some m →
  match upStep env db state (length done)
          (resultsOf Up Success done ++ resultsOf Up NotExecuted (x :: later))
          w with
  | (inr l, w') =>
      l = resultsOf Up Success (done ++ [x]) ++
          resultsOf Up NotExecuted later ∧
      row_name <$> ledger w' = (row_name <$> ledger w) ++ [x]
  | (inl (MigrationResultSetError rs), w') =>
      ledger w' = ledger w ∧
      ∃ e, rs = {| error := Some e;
                   results :=
                     Some (resultsOf Up Success done ++
                           {| migrationName := x; direction := Up;
                              status := Error |} ::
                           resultsOf Up NotExecuted later) |} ∧
           ((up m (schema w)).1 = inl e ∨
            x ∈ row_name <$> ledger w ∨
            ∃ n, fault env n (OpInsertRecord db x) = Some e)
  | (inl (ThrowExn _), _) => False
  end.
Proof.
  intros Hm. pose proof (findMigration_name _ _ _ Hm) as [Hname _].
  assert (length (resultsOf Up Success done) = length done) as Hl
    by apply length_fmap.
  unfold upStep. rewrite (results_lookup_middle _ _ _ _ _ _ Hl).
  cbn [migrationName]. rewrite Hm, Hname.
  rewrite !(results_insert_middle _ _ _ _ _ _ _ Hl).
  unfold tryCatch, bind, runAction, throw, ret.
  destruct (up m (schema w)) as [[e|[]] s] eqn:Hup; simpl.
  { split; [done|]. exists e. split; [done|]. by left. }
  unfold insertRecord. cbn [ledger set_schema log].
  case_bool_decide as Hdup.
  { split; [done|]. eexists. split; [done|]. right. by left. }
  unfold perform. cbn [trace log set_schema].
  destruct (fault env _ _) as [e|] eqn:Hf.
  { split; [done|]. exists e. split; [done|]. right. right. by eauto. }
  cbn [ledger log set_ledger set_schema]. split.
  - by rewrite resultsOf_snoc, <-app_assoc.
  - by rewrite fmap_app.
Qed.

Lemma upLoop_shape db state L0 : ∀ later done (w : World U),
  (∀ n, n ∈ later → is_Some (findMigration (migrations state) n)) →
  row_name <$> ledger w = L0 ++ done →
  match forEachIndex (upStep env db state)
          (seq (length done) (length later))
          (resultsOf Up Success done ++ resultsOf Up NotExecuted later) w with
  | (inr l, w') =>
      l = resultsOf Up Success (done ++ later) ∧
      row_name <$> ledger w' = L0 ++ done ++ later
  | (inl (MigrationResultSetError rs), w') =>
      ∃ e done' x later' m,
        done ++ later = done' ++ x :: later' ∧
        rs = {| error := Some e;
                results :=
                  Some (resultsOf Up Success done' ++
                        {| migrationName := x; direction := Up;
                           status := Error |} ::
                        resultsOf Up NotExecuted later') |} ∧
        row_name <$> ledger w' = L0 ++ done' ∧
        findMigration (migrations state) x = Some m ∧
        ((∃ u, (up m u).1 = inl e) ∨ x ∈ L0 ++ done' ∨
         ∃ n, fault env n (OpInsertRecord db x) = Some e)
  | (inl (ThrowExn _), _) => False
  end.
Proof.
  induction later as [|x later IH]; intros done w Hfind Hled.
  { simpl. by rewrite !app_nil_r. }
  destruct (Hfind x) as [m Hm]; [by left|].
  cbn [length seq forEachIndex]. unfold bind.
  pose proof (upStep_shape db state done x later m w Hm) as Hstep.
  destruct (upStep env db state _ _ w) as [[[e|rs]|l] w1]; [done| |].
  - destruct Hstep as (Hl & e & -> & Hwhy).
    exists e, done, x, later, m. split_and!; [done..|by rewrite Hl| |]; [done|].
    destruct Hwhy as [?|[?|?]]; [left; by eauto|right; left|by auto].
    by rewrite <-Hled.
  - destruct Hstep as [-> Hl1].
    specialize (IH (done ++ [x]) w1).
    rewrite length_app, Nat.add_1_r in IH.
    ospecialize* IH.
    { intros n Hn. apply Hfind. by right. }
    { by rewrite Hl1, Hled, <-app_assoc. }
    by rewrite <-!app_assoc in IH.
Qed.

Lemma planUp_shape (ms : list (NamedMigration U)) n : ∀ i,
  (n = 0%nat ∨ 0 ≤ i ∧ i + Z.of_nat n ≤ Z.of_nat (length ms)) →
  planUp ms i n =
  inr (resultsOf Up NotExecuted (take n (drop (Z.to_nat i) (name <$> ms)))).
Proof.
  induction n as [|n IH]; intros i Hi; [done|].
  destruct Hi as [?|[Hi0 Hi]]; [done|].
  simpl. destruct (at_index ms i) as [m|] eqn:Hm.
  2:{ unfold at_index in Hm. destruct (i <? 0) eqn:Hneg; [lia|].
      apply lookup_ge_None in Hm. lia. }
  apply at_index_Some in Hm as [_ Hm].
  rewrite IH by (right; lia).
  assert ((name <$> ms) !! Z.to_nat i = Some (name m)) as Hn
    by by rewrite list_lookup_fmap, Hm.
  rewrite (drop_S _ _ _ Hn). simpl.
  by replace (Z.to_nat (i + 1)) with (S (Z.to_nat i)) by lia.
Qed.

Lemma upRange_known (state : MigrationState U) t n :
  n ∈ upRange state t → n ∈ name <$> migrations state.
Proof.
  unfold upRange. intros Hn. by apply subseteq_take, subseteq_drop in Hn.
Qed.

Lemma private_migrateUp_planned db state targetIndex (w : World U) :
  -1 ≤ currentIndex state →
  targetIndex < Z.of_nat (length (migrations state)) →
  private_migrateUp env db state targetIndex w =
  (do results' <-
     forEachIndex (upStep env db state)
       (seq 0 (length (upRange state targetIndex)))
       (resultsOf Up NotExecuted (upRange state targetIndex));
   ret {| error := None; results := Some results' |}) w.
Proof.
  intros Hc Ht. rewrite private_migrateUp_eq, planUp_shape by lia.
  fold (upRange state targetIndex).
  assert (length (resultsOf Up NotExecuted (upRange state targetIndex))
          = length (upRange state targetIndex)) as -> by apply length_fmap.
  done.
Qed.

Lemma upRange_find (state : MigrationState U) t n :
  n ∈ upRange state t → is_Some (findMigration (migrations state) n).
Proof.
  intros Hn. apply upRange_known in Hn.
  destruct (findMigration_Some _ _ Hn) as (m & -> & _). by eexists.
Qed.

(** X9: what an up run returns and leaves, in full.  With the current index
    at least [-1] and the target inside the list, [#migrateUp] plans the
    migrations after the current one up to the target, in order.  Either it
    returns all of them marked Success and the ledger has gained their
    names in that order; or it throws a result set in which the migrations
    before the failing one are marked Success, the failing one Error and
    the later ones NotExecuted, and the ledger has gained exactly the names
    marked Success.  The error is that of the failing [up] or of the
    insertion of its record. *)
Theorem X9_up_run_shape db state targetIndex (w : World U) :
  -1 ≤ currentIndex state →
  targetIndex < Z.of_nat (length (migrations state)) →
  let range := upRange state targetIndex in
  let '(o, w') := private_migrateUp env db state targetIndex w in
  match o with
  | inr rs =>
      rs = {| error := None; results := Some (resultsOf Up Success range) |} ∧
      row_name <$> ledger w' = (row_name <$> ledger w) ++ range
  | inl (MigrationResultSetError rs) =>
      ∃ e done x later m,
        range = done ++ x :: later ∧
        rs = {| error := Some e;
                results :=
                  Some (resultsOf Up Success done ++
                        {| migrationName := x; direction := Up;
                           status := Error |} ::
                        resultsOf Up NotExecuted later) |} ∧
        row_name <$> ledger w' = (row_name <$> ledger w) ++ done ∧
        findMigration (migrations state) x = Some m ∧
        ((∃ u, (up m u).1 = inl e) ∨
         x ∈ (row_name <$> ledger w) ++ done ∨
         ∃ n, fault env n (OpInsertRecord db x) = Some e)
  | inl (ThrowExn _) => False
  end.
Proof.
  intros Hc Ht range. rewrite private_migrateUp_planned by done.
  fold range.
  pose proof (upLoop_shape db state (row_name <$> ledger w) range [] w) as H.
  unfold bind, ret. cbn [length resultsOf fmap list_fmap app] in H.
  ospecialize* H; [apply upRange_find|by rewrite app_nil_r|].
  fold (resultsOf Up NotExecuted range) in H.
  destruct (forEachIndex _ _ _ w) as [[[e|rs]|l] w']; [done| |].
  - destruct H as (e & done' & x & later & m & Hr & -> & Hl & Hm & Hwhy).
    by exists e, done', x, later, m.
  - by destruct H as [-> Hl].
Qed.

(** An up run in which nothing fails. *)
Lemma private_migrateUp_succeeds db state targetIndex (w : World U) :
  fault_free env → ups_succeed (migrations state) →
  -1 ≤ currentIndex state →
  targetIndex < Z.of_nat (length (migrations state)) →
  NoDup ((row_name <$> ledger w) ++ upRange state targetIndex) →
  ∃ w',
    private_migrateUp env db state targetIndex w =
      (inr {| error := None;
              results :=
                Some (resultsOf Up Success (upRange state targetIndex)) |},
       w') ∧
    row_name <$> ledger w' =
      (row_name <$> ledger w) ++ upRange state targetIndex.
Proof.
  intros Hff Hups Hc Ht Hnd. rewrite private_migrateUp_planned by done.
  set (range := upRange state targetIndex) in *.
  pose proof (upLoop_shape db state (row_name <$> ledger w) range [] w) as H.
  unfold bind, ret. cbn [length resultsOf fmap list_fmap app] in H.
  ospecialize* H; [apply upRange_find|by rewrite app_nil_r|].
  fold (resultsOf Up NotExecuted range) in H.
  destruct (forEachIndex _ _ _ w) as [[[e|rs]|l] w']; [done| |].
  - exfalso.
    destruct H as (e & done' & x & later & m & Hr & _ & _ & Hm & Hwhy).
    apply findMigration_name in Hm as [_ Hin].
    destruct Hwhy as [[u Hu]|[Hx|[n Hn]]].
    + by rewrite (Hups m u Hin) in Hu.
    + rewrite Hr in Hnd. rewrite app_assoc in Hnd.
      apply NoDup_app in Hnd as (_ & Hnd & _).
      apply (Hnd x Hx). by left.
    + by rewrite Hff in Hn.
  - destruct H as [-> Hl]. by exists w'.
Qed.

End UpRun.

Section DownRun.

Context {U : Type} (env : Env U).

(** ** The shape of a down run *)

Lemma filter_all {A} (P : A → Prop) `{!∀ x, Decision (P x)} (l : list A) :
  Forall P l → filter P l = l.
Proof.
  induction 1 as [|x l Hx _ IH]; [done|].
  by rewrite filter_cons_True, IH.
Qed.

Lemma reverted_snoc (ms : list (NamedMigration U)) done x :
  reverted ms (done ++ [x]) =
  reverted ms done ++ (if canRevert ms x then [x] else []).
Proof.
  unfold reverted. rewrite filter_app. f_equal.
  destruct (canRevert ms x) eqn:Hx.
  - by rewrite filter_cons_True.
  - rewrite filter_cons_False; [done|congruence].
Qed.

Lemma filter_kept (ms : list (NamedMigration U)) done x (l : list LedgerRow) :
  filter (λ row, row_name row ≠ x)
    (filter (λ row, row_name row ∉ reverted ms done) l) =
  filter (λ row, row_name row ∉ reverted ms done ++ [x]) l.
Proof.
  rewrite list_filter_filter. apply list_filter_iff. intros row.
  rewrite not_elem_of_app, not_elem_of_cons. split.
  - intros [? ?]. split_and!; [done..|]. apply not_elem_of_nil.
  - intros (? & ? & _). done.
Qed.

Lemma downStep_shape db state (finished : list MigrationResult)
    (done : list string) x later m (w : World U) :
  length finished = length done →
  findMigration (migrations state) x = Some m →
  match downStep env db state (length done)
          (finished ++ resultsOf Down NotExecuted (x :: later)) w with
  | (inr l, w') =>
      l = finished ++ downResult (migrations state) x ::
          resultsOf Down NotExecuted later ∧
      ledger w' =
        if canRevert (migrations state) x
        then filter (λ row, row_name row ≠ x) (ledger w) else ledger w
  | (inl (MigrationResultSetError rs), w') =>
      ledger w' = ledger w ∧
      ∃ e, rs = {| error := Some e;
                   results :=
                     Some (finished ++
                           {| migrationName := x; direction := Down;
                              status := Error |} ::
                           resultsOf Down NotExecuted later) |} ∧
           ((∃ action, down m = Some action ∧
                       (action (schema w)).1 = inl e) ∨
            ∃ n, fault env n (OpDeleteRecord db x) = Some e)
  | (inl (ThrowExn _), _) => False
  end.
Proof.
  intros Hl Hm. pose proof (findMigration_name _ _ _ Hm) as [Hname _].
  unfold downStep. rewrite (results_lookup_middle _ _ _ _ _ _ Hl).
  cbn [migrationName]. rewrite Hm, Hname.
  rewrite !(results_insert_middle _ _ _ _ _ _ _ Hl).
  unfold downResult, canRevert. rewrite Hm.
  unfold tryCatch, bind, throw, ret.
  destruct (down m) as [action|] eqn:Hd; [|done].
  unfold runAction.
  destruct (action (schema w)) as [[e|[]] s] eqn:Ha; simpl.
  { split; [done|]. exists e. split; [done|]. left. exists action.
    by rewrite Ha. }
  unfold deleteRecord, perform. cbn [trace log set_schema].
  destruct (fault env _ _) as [e|] eqn:Hf.
  { split; [done|]. exists e. split; [done|]. right. by eauto. }
  done.
Qed.

Lemma downLoop_shape db state (w0 : World U) : ∀ later done (w : World U),
  (∀ n, n ∈ later → is_Some (findMigration (migrations state) n)) →
  ledger w =
    filter (λ row, row_name row ∉ reverted (migrations state) done)
      (ledger w0) →
  match forEachIndex (downStep env db state)
          (seq (length done) (length later))
          ((downResult (migrations state) <$> done) ++
           resultsOf Down NotExecuted later) w with
  | (inr l, w') =>
      l = downResult (migrations state) <$> (done ++ later) ∧
      ledger w' =
        filter (λ row, row_name row ∉
                       reverted (migrations state) (done ++ later))
          (ledger w0)
  | (inl (MigrationResultSetError rs), w') =>
      ∃ e done' x later' m,
        done ++ later = done' ++ x :: later' ∧
        rs = {| error := Some e;
                results :=
                  Some ((downResult (migrations state) <$> done') ++
                        {| migrationName := x; direction := Down;
                           status := Error |} ::
                        resultsOf Down NotExecuted later') |} ∧
        ledger w' =
          filter (λ row, row_name row ∉ reverted (migrations state) done')
            (ledger w0) ∧
        findMigration (migrations state) x = Some m ∧
        ((∃ action u, down m = Some action ∧ (action u).1 = inl e) ∨
         ∃ n, fault env n (OpDeleteRecord db x) = Some e)
  | (inl (ThrowExn _), _) => False
  end.
Proof.
  induction later as [|x later IH]; intros done w Hfind Hled.
  { simpl. by rewrite !app_nil_r. }
  destruct (Hfind x) as [m Hm]; [by left|].
  cbn [length seq forEachIndex]. unfold bind.
  pose proof (downStep_shape db state (downResult (migrations state) <$> done)
                done x later m w (length_fmap _ _) Hm) as Hstep.
  destruct (downStep env db state _ _ w) as [[[e|rs]|l] w1]; [done| |].
  - destruct Hstep as (Hl & e & -> & Hwhy).
    exists e, done, x, later, m. split_and!; [done..|by rewrite Hl| |]; [done|].
    destruct Hwhy as [(action & ? & ?)|?]; [left; by eauto|by right].
  - destruct Hstep as [-> Hl1].
    specialize (IH (done ++ [x]) w1).
    rewrite length_app, Nat.add_1_r, fmap_app in IH. cbn [fmap list_fmap] in IH.
    rewrite <-!app_assoc in IH. cbn [app] in IH.
    apply IH.
    { intros n Hn. apply Hfind. by right. }
    rewrite Hl1, reverted_snoc.
    destruct (canRevert (migrations state) x).
    + by rewrite Hled, filter_kept.
    + by rewrite app_nil_r.
Qed.

Lemma planDown_shape (ms : list (NamedMigration U)) n : ∀ i,
  (n = 0%nat ∨ Z.of_nat n ≤ i + 1 ∧ i < Z.of_nat (length ms)) →
  planDown ms i n =
  inr (resultsOf Down NotExecuted
         (reverse (take n (drop (Z.to_nat (i + 1) - n) (name <$> ms))))).
Proof.
  induction n as [|n IH]; intros i Hi; [done|].
  destruct Hi as [?|[Hi0 Hi]]; [done|].
  simpl. destruct (at_index ms i) as [m|] eqn:Hm.
  2:{ unfold at_index in Hm. destruct (i <? 0) eqn:Hneg; [lia|].
      apply lookup_ge_None in Hm. lia. }
  apply at_index_Some in Hm as [_ Hm].
  rewrite IH by (destruct n; [by left|right; lia]).
  replace (Z.to_nat (i - 1 + 1) - n)%nat with (Z.to_nat (i + 1) - S n)%nat
    by lia.
  erewrite (take_S_r _ n (name m)).
  2:{ rewrite lookup_drop, list_lookup_fmap.
      replace (Z.to_nat (i + 1) - S n + n)%nat with (Z.to_nat i) by lia.
      by rewrite Hm. }
  by rewrite reverse_snoc.
Qed.

Lemma downRange_known (state : MigrationState U) t n :
  n ∈ downRange state t → n ∈ name <$> migrations state.
Proof.
  unfold downRange. rewrite elem_of_reverse. intros Hn.
  by apply subseteq_take, subseteq_drop in Hn.
Qed.

Lemma private_migrateDown_planned db state targetIndex (w : World U) :
  -1 ≤ targetIndex →
  currentIndex state < Z.of_nat (length (migrations state)) →
  private_migrateDown env db state targetIndex w =
  (do results' <-
     forEachIndex (downStep env db state)
       (seq 0 (length (downRange state targetIndex)))
       (resultsOf Down NotExecuted (downRange state targetIndex));
   ret {| error := None; results := Some results' |}) w.
Proof.
  intros Ht Hc. rewrite private_migrateDown_eq, planDown_shape by lia.
  assert (reverse (take (Z.to_nat (currentIndex state - targetIndex))
                     (drop (Z.to_nat (currentIndex state + 1) -
                            Z.to_nat (currentIndex state - targetIndex))
                        (name <$> migrations state)))
          = downRange state targetIndex) as ->.
  { unfold downRange.
    destruct (decide (targetIndex ≤ currentIndex state)).
    - do 3 f_equal. lia.
    - by replace (Z.to_nat (currentIndex state - targetIndex)) with 0%nat
        by lia. }
  assert (length (resultsOf Down NotExecuted (downRange state targetIndex))
          = length (downRange state targetIndex)) as -> by apply length_fmap.
  done.
Qed.

Lemma downRange_find (state : MigrationState U) t n :
  n ∈ downRange state t → is_Some (findMigration (migrations state) n).
Proof.
  intros Hn. apply downRange_known in Hn.
  destruct (findMigration_Some _ _ Hn) as (m & -> & _). by eexists.
Qed.

Lemma reverted_nil_kept (ms : list (NamedMigration U)) (l : list LedgerRow) :
  l = filter (λ row, row_name row ∉ reverted ms []) l.
Proof.
  symmetry. apply filter_all, Forall_forall. intros row _.
  apply not_elem_of_nil.
Qed.

(** X10: what a down run returns and leaves, in full.  With the target at
    least [-1] and the current index inside the list, [#migrateDown] plans
    the migrations from the current one back to the one after the target,
    latest first.  Either it returns every one of them, marked Success if it
    has a [down] and still NotExecuted if it has none, and the ledger has
    lost exactly the records of those with a [down]; or it throws a result
    set that is the same up to the failing migration, marks that one Error
    and the rest NotExecuted, and the ledger has lost only the records of
    the migrations before the failing one that have a [down].  The error is
    that of the failing [down] or of the deletion of its record. *)
Theorem X10_down_run_shape db state targetIndex (w : World U) :
  -1 ≤ targetIndex →
  currentIndex state < Z.of_nat (length (migrations state)) →
  let range := downRange state targetIndex in
  let '(o, w') := private_migrateDown env db state targetIndex w in
  match o with
  | inr rs =>
      rs = {| error := None;
              results := Some (downResult (migrations state) <$> range) |} ∧
      ledger w' =
        filter (λ row, row_name row ∉ reverted (migrations state) range)
          (ledger w)
  | inl (MigrationResultSetError rs) =>
      ∃ e done x later m,
        range = done ++ x :: later ∧
        rs = {| error := Some e;
                results :=
                  Some ((downResult (migrations state) <$> done) ++
                        {| migrationName := x; direction := Down;
                           status := Error |} ::
                        resultsOf Down NotExecuted later) |} ∧
        ledger w' =
          filter (λ row, row_name row ∉ reverted (migrations state) done)
            (ledger w) ∧
        findMigration (migrations state) x = Some m ∧
        ((∃ action u, down m = Some action ∧ (action u).1 = inl e) ∨
         ∃ n, fault env n (OpDeleteRecord db x) = Some e)
  | inl (ThrowExn _) => False
  end.
Proof.
  intros Ht Hc range. rewrite private_migrateDown_planned by done.
  fold range.
  pose proof (downLoop_shape db state w range [] w) as H.
  unfold bind, ret. cbn [length fmap list_fmap app] in H.
  ospecialize* H; [apply downRange_find|apply reverted_nil_kept|].
  destruct (forEachIndex _ _ _ w) as [[[e|rs]|l] w']; [done| |].
  - destruct H as (e & done' & x & later & m & Hr & -> & Hl & Hm & Hwhy).
    by exists e, done', x, later, m.
  - by destruct H as [-> Hl].
Qed.

(** A down run in which nothing fails and nothing is skipped. *)
Lemma private_migrateDown_succeeds db state targetIndex (w : World U) :
  fault_free env → downs_succeed (migrations state) →
  -1 ≤ targetIndex →
  currentIndex state < Z.of_nat (length (migrations state)) →
  ∃ w',
    private_migrateDown env db state targetIndex w =
      (inr {| error := None;
              results :=
                Some (resultsOf Down Success (downRange state targetIndex)) |},
       w') ∧
    ledger w' =
      filter (λ row, row_name row ∉ downRange state targetIndex) (ledger w).
Proof.
  intros Hff Hdowns Ht Hc. rewrite private_migrateDown_planned by done.
  set (range := downRange state targetIndex) in *.
  assert (∀ n, n ∈ range → canRevert (migrations state) n = true) as Hcan.
  { intros n Hn. apply downRange_find in Hn as [m Hm]. unfold canRevert.
    rewrite Hm. apply findMigration_name in Hm as [_ Hin].
    by destruct (Hdowns m Hin) as (action & -> & _). }
  assert (reverted (migrations state) range = range) as Hrev.
  { by apply filter_all, Forall_forall. }
  assert (downResult (migrations state) <$> range
          = resultsOf Down Success range) as Hres.
  { apply list_fmap_ext. intros i n Hn. unfold downResult.
    rewrite Hcan; [done|]. by eapply list_elem_of_lookup_2. }
  pose proof (downLoop_shape db state w range [] w) as H.
  unfold bind, ret. cbn [length fmap list_fmap app] in H.
  ospecialize* H; [apply downRange_find|apply reverted_nil_kept|].
  destruct (forEachIndex _ _ _ w) as [[[e|rs]|l] w']; [done| |].
  - exfalso.
    destruct H as (e & done' & x & later & m & Hr & _ & _ & Hm & Hwhy).
    apply findMigration_name in Hm as [_ Hin].
    destruct (Hdowns m Hin) as (action & Hd & Hok).
    destruct Hwhy as [(action' & u & Hd' & Hu)|[n Hn]].
    + assert (action' = action) as -> by congruence. by rewrite Hok in Hu.
    + by rewrite Hff in Hn.
  - destruct H as [-> Hl]. exists w'. by rewrite Hres, Hl, Hrev.
Qed.

End DownRun.

Section Targets.

Context {U : Type} (env : Env U).

(** ** Runs that reach their target *)

Lemma Sorted_take_le (l : list string) n :
  Sorted String.le l → Sorted String.le (take n l).
Proof.
  intros Hs. apply (Sorted_StronglySorted _) in Hs.
  apply StronglySorted_Sorted.
  rewrite <-(take_drop n l) in Hs. by apply StronglySorted_app_1_l in Hs.
Qed.

Lemma fmap_filter_names (S : list string) (l : list LedgerRow) :
  row_name <$> filter (λ row, row_name row ∉ S) l =
  filter (λ n, n ∉ S) (row_name <$> l).
Proof.
  induction l as [|row l IH]; [done|]. rewrite fmap_cons.
  destruct (decide (row_name row ∈ S)) as [Hin|Hin].
  - rewrite !filter_cons_False by (intros H; by apply H). done.
  - rewrite !filter_cons_True by done. by rewrite fmap_cons, IH.
Qed.

Lemma filter_out_suffix (A B : list string) :
  NoDup (A ++ B) → filter (λ n, n ∉ reverse B) (A ++ B) = A.
Proof.
  intros (_ & Hdis & _)%NoDup_app. rewrite filter_app.
  rewrite (filter_all _ A).
  2:{ apply Forall_forall. intros n Hn. rewrite elem_of_reverse.
      by apply Hdis. }
  assert (filter (λ n, n ∉ reverse B) B = []) as ->; [|by rewrite app_nil_r].
  assert (∀ l : list string, (∀ n, n ∈ l → n ∈ reverse B) →
            filter (λ n, n ∉ reverse B) l = []) as Hall.
  { induction l as [|n l IH]; intros Hl; [done|].
    rewrite filter_cons_False.
    - apply IH. intros n' Hn'. apply Hl. by right.
    - intros Hn. apply Hn, Hl. by left. }
  apply Hall. intros n Hn. by rewrite elem_of_reverse.
Qed.

Lemma names_upto (l : list string) c t :
  -1 ≤ c ≤ t →
  take (Z.to_nat (c + 1)) l ++
    take (Z.to_nat (t - c)) (drop (Z.to_nat (c + 1)) l) =
  take (Z.to_nat (t + 1)) l.
Proof. intros Hc. rewrite take_take_drop. f_equal. lia. Qed.

Lemma executedNames_perm (w : World U) :
  executedNames w ≡ₚ row_name <$> ledger w.
Proof. apply (merge_sort_Permutation String.le). Qed.

Lemma migrate_reaches input g (w : World U) ms t :
  fault_free env →
  (resolveMigrations env input w).1 = inr ms →
  executedNames w `prefix_of` (name <$> ms) →
  g (stateOf ms (executedNames w)) = inr (Some t) →
  -1 ≤ t < Z.of_nat (length ms) →
  (currentIndex (stateOf ms (executedNames w)) < t → ups_succeed ms) →
  (t < currentIndex (stateOf ms (executedNames w)) → downs_succeed ms) →
  ∃ w',
    migrate env input g w =
      ({| error := None;
          results :=
            Some (if currentIndex (stateOf ms (executedNames w)) <? t
                  then resultsOf Up Success
                         (upRange (stateOf ms (executedNames w)) t)
                  else resultsOf Down Success
                         (downRange (stateOf ms (executedNames w)) t)) |},
       w') ∧
    executedNames w' = take (Z.to_nat (t + 1)) (name <$> ms).
Proof.
  intros Hff Hres Hpre Hg Ht Hups Hdowns.
  destruct (resolveMigrations_names env input w ms Hres) as [Hnd Hsorted].
  pose proof (proj2 (ensureMigrationsNotCorrupted_inr ms _) Hpre) as Hok.
  pose proof (currentIndex_prefix ms _ Hnd Hpre) as Hc.
  pose proof (prefix_length _ _ Hpre) as Hlen. rewrite length_fmap in Hlen.
  pose proof (prefix_take _ _ Hpre) as HL.
  destruct (migrate_ff env input g w ms Hff Hres Hok)
    as (db & w1 & _ & [Hl1 _] & _ & Hrun).
  set (state := stateOf ms (executedNames w)) in *.
  assert (migrations state = ms) as Hms by done.
  rewrite dispatch_eq, Hms, Hg in Hrun.
  destruct (Z.ltb_spec t (currentIndex state)) as [Hlt|Hge].
  - (* down *)
    case_bool_decide as Hempty; [destruct ms; simpl in *; [lia|done]|].
    destruct (private_migrateDown_succeeds env db state t w1)
      as (w2 & Hd & Hl2); [done|by apply Hdowns|lia|rewrite Hms; lia|].
    rewrite Hd in Hrun. destruct (Hrun _ _ eq_refl) as (w' & -> & _ & Hst).
    rewrite andb_false_r in Hst. destruct Hst as [Hl' _].
    exists w'. split.
    { cbn [toResultSet].
      destruct (Z.ltb_spec (currentIndex state) t); [lia|done]. }
    unfold executedNames at 1. rewrite Hl', Hl2, Hl1, fmap_filter_names.
    apply sort_unique; [|by apply Sorted_take_le].
    assert (executedNames w =
              take (Z.to_nat (t + 1)) (name <$> ms) ++
              take (Z.to_nat (currentIndex state - t))
                (drop (Z.to_nat (t + 1)) (name <$> ms))) as Hsplit.
    { rewrite names_upto by lia. rewrite HL at 1. f_equal. lia. }
    rewrite <-executedNames_perm, Hsplit. unfold downRange. rewrite Hms.
    rewrite filter_out_suffix; [done|].
    rewrite names_upto by lia.
    eapply sublist_NoDup; [exact Hnd|apply sublist_take].
  - destruct (Z.ltb_spec (currentIndex state) t) as [Hgt|Hle].
    + (* up *)
      case_bool_decide as Hempty; [destruct ms; simpl in *; [lia|done]|].
      replace (t >? currentIndex state) with true in Hrun by lia.
      assert (row_name <$> ledger w1
              ≡ₚ take (Z.to_nat (currentIndex state + 1)) (name <$> ms))
        as Hperm.
      { rewrite Hl1, <-executedNames_perm.
        replace (Z.to_nat (currentIndex state + 1))
          with (length (executedNames w)) by lia.
        by rewrite <-HL. }
      destruct (private_migrateUp_succeeds env db state t w1)
        as (w2 & Hd & Hl2); [done|by apply Hups|lia|rewrite Hms; lia| |].
      { rewrite Hperm. unfold upRange. rewrite Hms, names_upto by lia.
        eapply sublist_NoDup; [exact Hnd|apply sublist_take]. }
      rewrite Hd in Hrun. destruct (Hrun _ _ eq_refl) as (w' & -> & _ & Hst).
      rewrite andb_false_r in Hst. destruct Hst as [Hl' _].
      exists w'. split; [done|].
      unfold executedNames at 1. rewrite Hl', Hl2.
      apply sort_unique; [|by apply Sorted_take_le].
      rewrite Hperm. unfold upRange. by rewrite Hms, names_upto by lia.
    + (* nothing to do *)
      assert (t = currentIndex state) as -> by lia.
      assert ((if bool_decide (length ms = 0%nat)
               then (inr {| error := None; results := Some [] |}, w1)
               else if currentIndex state >? currentIndex state
                    then private_migrateUp env db state (currentIndex state) w1
                    else (inr {| error := None; results := Some [] |}, w1))
              = (inr {| error := None; results := Some [] |}, w1)) as Heq.
      { case_bool_decide; [done|].
        by replace (currentIndex state >? currentIndex state) with false
          by lia. }
      rewrite Heq in Hrun.
      destruct (Hrun _ _ eq_refl) as (w' & -> & _ & Hst).
      rewrite andb_false_r in Hst. destruct Hst as [Hl' _].
      exists w'. split.
      { cbn [toResultSet]. unfold downRange. by rewrite Z.sub_diag. }
      unfold executedNames at 1. rewrite Hl', Hl1.
      fold (executedNames w). rewrite HL at 1. f_equal. lia.
Qed.

Lemma findIndex_bounds {A} (p : A → bool) (l : list A) :
  -1 ≤ findIndex p l < Z.of_nat (length l).
Proof.
  induction l as [|x l IH]; simpl; [lia|].
  destruct (p x); [lia|]. destruct (findIndex p l <? 0) eqn:Hneg; lia.
Qed.

Lemma targetOf_bounds mode (state : MigrationState U) t :
  -1 ≤ currentIndex state < Z.of_nat (length (migrations state)) →
  targetOf mode state = inr (Some t) →
  -1 ≤ t < Z.of_nat (length (migrations state)).
Proof.
  intros Hc. destruct mode as [|[|n]| |]; simpl.
  - intros [= <-]. lia.
  - intros [= <-]. lia.
  - pose proof (findIndex_bounds
                  (λ it : NamedMigration U, bool_decide (name it = n))
                  (migrations state)) as Hb.
    destruct (_ =? -1) eqn:Heq; [done|]. intros [= <-]. lia.
  - unfold upTarget. intros [= <-]. lia.
  - unfold downTarget. intros [= <-]. lia.
Qed.

Lemma state_bounds (ms : list (NamedMigration U)) L :
  NoDup (name <$> ms) → L `prefix_of` (name <$> ms) →
  -1 ≤ currentIndex (stateOf ms L) < Z.of_nat (length ms).
Proof.
  intros Hnd Hpre. rewrite (currentIndex_prefix ms L Hnd Hpre).
  apply prefix_length in Hpre. rewrite length_fmap in Hpre. lia.
Qed.


Lemma take_prefix_of {A} (l : list A) n : take n l `prefix_of` l.
Proof. exists (drop n l). by rewrite take_drop. Qed.



End Targets.

Section Scope.

Context {U : Type} (env : Env U).

(** ** The calls of the locked scope *)

Lemma steps_liftExn (R : relation (World U)) {A} (m : M U Exn A) :
  steps R m → steps R (liftExn m).
Proof.
  intros H w. specialize (H w). unfold liftExn.
  by destruct (m w) as [[e|a] w'].
Qed.

Lemma runAction_emits (P : Event → Prop) op action :
  (∀ ok, P (op, ok)) → steps (emits P) (runAction (U:=U) op action).
Proof.
  intros HP w. unfold runAction.
  destruct (action (schema w)) as [r s]. by apply emits_log.
Qed.

Lemma insertRecord_emits (P : Event → Prop) db n :
  (∀ ok, P (OpInsertRecord db n, ok)) →
  steps (emits P) (insertRecord env db n).
Proof.
  intros HP w. unfold insertRecord. case_bool_decide.
  - by apply emits_log.
  - by apply perform_emits.
Qed.

Lemma deleteRecord_emits (P : Event → Prop) db n :
  (∀ ok, P (OpDeleteRecord db n, ok)) →
  steps (emits P) (deleteRecord env db n).
Proof. intros HP. by apply perform_emits. Qed.

Lemma upStep_emits (P : Event → Prop) db state i results :
  (∀ op ok, is_step op = true → handle op = Some db → P (op, ok)) →
  steps (emits P) (upStep env db state i results).
Proof.
  intros HP. unfold upStep.
  destruct (results !! i) as [r|]; [|apply steps_throw; apply _].
  destruct (findMigration _ _) as [m|]; [|apply steps_throw; apply _].
  apply steps_tryCatch; [apply _| |intros e; apply steps_throw; apply _].
  apply steps_bind; [apply _|apply runAction_emits; by auto|intros _].
  apply steps_bind; [apply _|apply insertRecord_emits; by auto|intros _].
  apply steps_ret; apply _.
Qed.

Lemma downStep_emits (P : Event → Prop) db state i results :
  (∀ op ok, is_step op = true → handle op = Some db → P (op, ok)) →
  steps (emits P) (downStep env db state i results).
Proof.
  intros HP. unfold downStep.
  destruct (results !! i) as [r|]; [|apply steps_throw; apply _].
  destruct (findMigration _ _) as [m|]; [|apply steps_throw; apply _].
  apply steps_tryCatch; [apply _| |intros e; apply steps_throw; apply _].
  destruct (down m) as [action|]; [|apply steps_ret; apply _].
  apply steps_bind; [apply _|apply runAction_emits; by auto|intros _].
  apply steps_bind; [apply _|apply deleteRecord_emits; by auto|intros _].
  apply steps_ret; apply _.
Qed.

Lemma forEachIndex_steps (R : relation (World U)) `{!PreOrder R}
    (step : nat → list MigrationResult → M U Thrown (list MigrationResult))
    indices :
  (∀ i results, steps R (step i results)) →
  ∀ results, steps R (forEachIndex step indices results).
Proof.
  intros Hstep. induction indices as [|i indices IH]; intros results; simpl.
  - by apply steps_ret.
  - by apply steps_bind.
Qed.

Lemma dispatch_emits (P : Event → Prop) g db state :
  (∀ op ok, is_step op = true → handle op = Some db → P (op, ok)) →
  steps (emits P) (dispatch env g db state).
Proof.
  intros HP w. rewrite dispatch_eq.
  case_bool_decide; [reflexivity|].
  destruct (g state) as [e|[t|]]; [reflexivity| |reflexivity].
  destruct (t <? currentIndex state).
  - rewrite private_migrateDown_eq. destruct (planDown _ _ _); [reflexivity|].
    apply steps_bind; [apply _| |intros ?; apply steps_ret; apply _].
    apply forEachIndex_steps; [apply _|]. intros. by apply downStep_emits.
  - destruct (t >? currentIndex state); [|reflexivity].
    rewrite private_migrateUp_eq. destruct (planUp _ _ _); [reflexivity|].
    apply steps_bind; [apply _| |intros ?; apply steps_ret; apply _].
    apply forEachIndex_steps; [apply _|]. intros. by apply upStep_emits.
Qed.

Lemma readMigrationFiles_source (P : Event → Prop) folder files :
  (∀ file ok, P (OpImport file, ok)) →
  ∀ ms, steps (emits P) (readMigrationFiles env folder files ms).
Proof.
  intros HP. induction files as [|file files IH]; intros ms; simpl.
  { apply steps_ret; apply _. }
  destruct (_ && _); [|apply IH].
  apply steps_bind; [apply _| |].
  - intros w. unfold importM. by apply emits_log.
  - intros obj. destruct (isMigration obj); apply IH.
Qed.

Lemma resolveMigrations_source (P : Event → Prop) input :
  (∀ file ok, P (OpImport file, ok)) →
  (∀ folder ok, P (OpReaddir folder, ok)) →
  steps (emits P) (resolveMigrations env input).
Proof.
  intros HPi HPr. unfold resolveMigrations.
  apply steps_bind; [apply _| |intros ?; apply steps_ret; apply _].
  destruct input; [apply steps_ret; apply _|].
  unfold readMigrationsFromFolder. apply steps_bind; [apply _| |].
  - intros w. unfold readdirM. by apply emits_log.
  - intros files. by apply readMigrationFiles_source.
Qed.

Lemma scoped_step db op ok :
  is_step op = true → handle op = Some db → scoped db (op, ok).
Proof.
  intros Hs Hh. split; [by right|]. simpl. intros d. rewrite Hh. congruence.
Qed.

Lemma runLocked_scope db input g (w : World U) :
  let r := runLocked env input g db w in
  ∃ okA rest,
    trace r.2 = trace w ++ (OpAcquireMigrationLock db, okA) :: rest ∧
    Forall (scoped db) rest ∧ (okA = false → rest = []).
Proof.
  rewrite runLocked_eq.
  destruct (fault env (length (trace w)) _).
  { exists false, []. simpl. by repeat split. }
  set (w1 := log _ true _).
  assert (steps (emits (scoped db)) (resolveMigrations env input)) as Hsrc.
  { apply resolveMigrations_source; intros; by split; [left|]. }
  destruct (Hsrc w1) as (evs & Ht & Hevs).
  assert (scoped db (OpSelectExecuted db, true) ∧
          scoped db (OpSelectExecuted db, false)) as [Hsel Hsel'].
  { split; (split; [by left|]); simpl; congruence. }
  destruct (resolveMigrations env input w1) as [[e|ms] w2]; simpl in *.
  { exists true, evs. rewrite Ht. simpl. rewrite <-app_assoc. by split. }
  destruct (fault env (length (trace w2)) _).
  { exists true, (evs ++ [(OpSelectExecuted db, false)]). simpl.
    rewrite Ht. simpl. rewrite <-!app_assoc.
    split; [done|]. split; [|done].
    apply Forall_app. split; [done|]. by constructor. }
  destruct (ensureMigrationsNotCorrupted ms _) as [e|[]].
  { exists true, (evs ++ [(OpSelectExecuted db, true)]). simpl.
    rewrite Ht. simpl. rewrite <-!app_assoc.
    split; [done|]. split; [|done].
    apply Forall_app. split; [done|]. by constructor. }
  set (w3 := log _ true w2).
  destruct (dispatch_emits (scoped db) g db (stateOf ms (executedNames w2))
              (scoped_step db) w3) as (evs3 & Ht3 & HF3).
  exists true, ((evs ++ [(OpSelectExecuted db, true)]) ++ evs3).
  split; [|split; [|done]].
  - rewrite Ht3. subst w3. simpl. rewrite Ht. simpl.
    by rewrite <-!app_assoc.
  - apply Forall_app. split; [|done].
    apply Forall_app. split; [done|]. by constructor.
Qed.

(** X14: the calls of a public operation come in three phases.  First the
    bootstrap and the opening of the transaction or connection; then one
    call of [acquireMigrationLock], the planning and step calls, and one
    call of [releaseMigrationLock]; last the closing of the transaction or
    connection.  Every planning and step call lies between the acquisition
    and the release and is issued on the handle the lock was taken on; when
    the acquisition fails nothing is planned or run, and the release is
    called all the same.  An operation that fails before the second phase
    has made no planning or step call at all. *)
Theorem X14_steps_under_lock mode input (w : World U) :
  let '(rs, w') := operation env mode input w in
  Forall (on is_outer) (new_events w w') ∨
  ∃ db pre okA rest okR post,
    new_events w w' =
      pre ++ (OpAcquireMigrationLock db, okA) :: rest ++
      (OpReleaseMigrationLock db, okR) :: post ∧
    Forall (on is_outer) pre ∧ Forall (scoped db) rest ∧
    Forall (on is_context) post ∧ (okA = false → rest = []).
Proof.
  rewrite operation_migrate.
  destruct (migrate env input (targetOf mode) w) as [rs w'] eqn:Hm.
  apply migrate_report in Hm
    as [(_ & _ & evs & Ht & Hout & _)
       |(db & w1 & pre & okR & post & r0 & w2 & Hrun & _ & Ht1 & Hpre & Ht' &
         Hpost & _)].
  { left. by rewrite (new_events_app _ _ _ Ht). }
  right. pose proof (runLocked_scope db input (targetOf mode) w1) as Hs.
  rewrite Hrun in Hs. destruct Hs as (okA & rest & Ht2 & Hrest & Hfail).
  cbn [snd] in Ht2.
  exists db, pre, okA, rest, okR, post. split_and!; [|done..].
  apply new_events_app. rewrite Ht', Ht2, Ht1. simpl.
  by rewrite <-!app_assoc.
Qed.

End Scope.

Section Prefix.

Context {U : Type} (env : Env U).

(** ** The ledger stays a prefix *)

Lemma private_migrateUp_gains db state t (w : World U) :
  -1 ≤ currentIndex state → t < Z.of_nat (length (migrations state)) →
  ∃ k, row_name <$> ledger (private_migrateUp env db state t w).2 =
       (row_name <$> ledger w) ++ take k (upRange state t).
Proof.
  intros Hc Ht. rewrite private_migrateUp_planned by done.
  set (range := upRange state t).
  pose proof (upLoop_shape env db state (row_name <$> ledger w) range [] w)
    as H.
  unfold bind, ret. cbn [length resultsOf fmap list_fmap app] in H.
  ospecialize* H; [apply upRange_find|by rewrite app_nil_r|].
  fold (resultsOf Up NotExecuted range) in H.
  destruct (forEachIndex _ _ _ w) as [[[e|rs]|l] w']; [done| |].
  - destruct H as (e & done' & x & later & m & Hr & _ & Hl & _).
    exists (length done'). cbn [snd]. by rewrite Hl, Hr, take_app_length.
  - destruct H as [_ Hl]. exists (length range). cbn [snd].
    by rewrite Hl, take_ge.
Qed.

Lemma private_migrateDown_loses db state t (w : World U) :
  -1 ≤ t → currentIndex state < Z.of_nat (length (migrations state)) →
  (∀ n, n ∈ downRange state t → canRevert (migrations state) n = true) →
  ∃ k, ledger (private_migrateDown env db state t w).2 =
       filter (λ row, row_name row ∉ take k (downRange state t)) (ledger w).
Proof.
  intros Ht Hc Hcan. rewrite private_migrateDown_planned by done.
  set (range := downRange state t) in *.
  pose proof (downLoop_shape env db state w range [] w) as H.
  unfold bind, ret. cbn [length fmap list_fmap app] in H.
  ospecialize* H; [apply downRange_find|apply reverted_nil_kept|].
  destruct (forEachIndex _ _ _ w) as [[[e|rs]|l] w']; [done| |].
  - destruct H as (e & done' & x & later & m & Hr & _ & Hl & _).
    exists (length done'). cbn [snd]. rewrite Hl, Hr, take_app_length.
    assert (reverted (migrations state) done' = done') as ->; [|done].
    apply filter_all, Forall_forall. intros n Hn. apply Hcan. rewrite Hr.
    apply elem_of_app. by left.
  - destruct H as [_ Hl]. exists (length range). cbn [snd].
    rewrite Hl, take_ge by done.
    assert (reverted (migrations state) range = range) as ->; [|done].
    by apply filter_all, Forall_forall.
Qed.

Lemma sorted_after_up (names X : list string) c t k :
  NoDup names → Sorted String.le names → -1 ≤ c →
  X ≡ₚ take (Z.to_nat (c + 1)) names →
  merge_sort String.le
    (X ++ take k (take (Z.to_nat (t - c)) (drop (Z.to_nat (c + 1)) names)))
  `prefix_of` names.
Proof.
  intros Hnd Hs Hc HX. rewrite take_take.
  erewrite sort_unique; [apply take_prefix_of| |by apply Sorted_take_le].
  rewrite HX. by rewrite take_take_drop.
Qed.

Lemma sorted_after_down (names X : list string) c t k :
  NoDup names → Sorted String.le names → -1 ≤ t ≤ c →
  X ≡ₚ take (Z.to_nat (c + 1)) names →
  merge_sort String.le
    (filter (λ n, n ∉ take k (reverse (take (Z.to_nat (c - t))
                                         (drop (Z.to_nat (t + 1)) names))))
       X)
  `prefix_of` names.
Proof.
  intros Hnd Hs Ht HX.
  set (B := take (Z.to_nat (c - t)) (drop (Z.to_nat (t + 1)) names)).
  set (j := (length B - k)%nat).
  rewrite take_reverse. fold j.
  assert (take (Z.to_nat (c + 1)) names =
          (take (Z.to_nat (t + 1)) names ++ take j B) ++ drop j B) as Hsplit.
  { rewrite <-app_assoc, take_drop. unfold B.
    rewrite take_take_drop. f_equal. lia. }
  erewrite sort_unique; [apply take_prefix_of| |by apply Sorted_take_le].
  rewrite HX, Hsplit. rewrite filter_out_suffix.
  - unfold B. rewrite take_take, take_take_drop. done.
  - rewrite <-Hsplit. eapply sublist_NoDup; [exact Hnd|apply sublist_take].
Qed.

Lemma executedNames_log op ok (w : World U) :
  executedNames (log op ok w) = executedNames w.
Proof. done. Qed.

Lemma runLocked_prefix mode db input (w1 : World U) ms :
  (resolveMigrations env input w1).1 = inr ms →
  executedNames w1 `prefix_of` (name <$> ms) →
  (∀ t, targetOf mode (stateOf ms (executedNames w1)) = inr (Some t) →
        t < currentIndex (stateOf ms (executedNames w1)) →
        ∀ m : NamedMigration U, m ∈ ms → is_Some (down m)) →
  executedNames (runLocked env input (targetOf mode) db w1).2
  `prefix_of` (name <$> ms).
Proof.
  intros Hres Hpre Hdowns.
  destruct (resolveMigrations_names env input w1 ms Hres) as [Hnd Hsorted].
  rewrite runLocked_eq.
  destruct (fault env (length (trace w1)) _); [done|].
  set (wA := log _ true _).
  pose proof (resolveMigrations_untouched env input wA) as Hu.
  pose proof (resolveMigrations_blind env input wA w1) as Hb.
  destruct (resolveMigrations env input wA) as [[e|ms'] w2]; cbn [fst snd] in *.
  { by rewrite (untouched_executedNames _ _ Hu). }
  assert (ms' = ms) as -> by congruence.
  assert (executedNames w2 = executedNames w1) as HL.
  { by rewrite (untouched_executedNames _ _ Hu). }
  destruct (fault env (length (trace w2)) _).
  { cbn [snd]. by rewrite executedNames_log, HL. }
  rewrite HL.
  destruct (ensureMigrationsNotCorrupted ms (executedNames w1)).
  { cbn [snd]. by rewrite executedNames_log, HL. }
  set (w3 := log _ true w2).
  assert (executedNames w3 = executedNames w1) as HL3 by done.
  set (state := stateOf ms (executedNames w1)) in *.
  pose proof (state_bounds ms _ Hnd Hpre) as Hc. fold state in Hc.
  pose proof (currentIndex_prefix ms _ Hnd Hpre) as Hci. fold state in Hci.
  assert (row_name <$> ledger w3
          ≡ₚ take (Z.to_nat (currentIndex state + 1)) (name <$> ms))
    as Hperm.
  { rewrite <-executedNames_perm, HL3.
    rewrite (prefix_take _ _ Hpre) at 1.
    by replace (Z.to_nat (currentIndex state + 1))
      with (length (executedNames w1)) by lia. }
  rewrite dispatch_eq. case_bool_decide; [cbn [snd]; by rewrite HL3|].
  destruct (targetOf mode state) as [e|[t|]] eqn:Hg;
    [cbn [snd]; by rewrite HL3| |cbn [snd]; by rewrite HL3].
  pose proof (targetOf_bounds mode state t Hc Hg) as Ht.
  change (migrations state) with ms in Ht.
  destruct (Z.ltb_spec t (currentIndex state)) as [Hlt|Hge].
  - destruct (private_migrateDown_loses db state t w3) as [k Hk];
      [lia|by apply Hc| |].
    { intros n Hn. apply downRange_find in Hn as [m Hm]. unfold canRevert.
      rewrite Hm. apply findMigration_name in Hm as [_ Hin].
      by destruct (Hdowns t eq_refl Hlt m Hin) as [action ->]. }
    unfold executedNames at 1. rewrite Hk, fmap_filter_names.
    unfold downRange. change (migrations state) with ms.
    apply sorted_after_down; [done|done|lia|done].
  - destruct (Z.gtb_spec t (currentIndex state)) as [Hgt|Hle];
      [|cbn [snd]; by rewrite HL3].
    destruct (private_migrateUp_gains db state t w3) as [k Hk];
      [lia|by apply Ht|].
    unfold executedNames at 1. rewrite Hk.
    unfold upRange. change (migrations state) with ms.
    apply sorted_after_up; [done|done|lia|done].
Qed.


End Prefix.

Section Failure.

Context {U : Type} (env : Env U).

(** ** Partial failure in general *)

(** X16: the first failing [up] decides the outcome of a run upwards.  On
    a ledger that is a prefix of the migration list, with no collaborator
    call faulting and a target above the current index, a public operation
    either succeeds as in X11, or returns the error some [up] rejected
    with, together with a result list in which the pending migrations
    before that one are marked Success, that one Error and the later ones
    NotExecuted.  Without transactional DDL the ledger has then gained the
    records of the migrations marked Success, in order; with it, ledger and
    schema are as before the call (the rollback being the one the
    transaction is modelled with). *)
Theorem X16_first_failure_decides mode input (w : World U) ms t :
  fault_free env →
  (resolveMigrations env input w).1 = inr ms →
  executedNames w `prefix_of` (name <$> ms) →
  targetOf mode (stateOf ms (executedNames w)) = inr (Some t) →
  currentIndex (stateOf ms (executedNames w)) < t →
  let range := upRange (stateOf ms (executedNames w)) t in
  let '(rs, w') := operation env mode input w in
  (rs = {| error := None; results := Some (resultsOf Up Success range) |} ∧
   row_name <$> ledger w' = (row_name <$> ledger w) ++ range) ∨
  (∃ e done x later m,
     range = done ++ x :: later ∧
     rs = {| error := Some e;
             results :=
               Some (resultsOf Up Success done ++
                     {| migrationName := x; direction := Up;
                        status := Error |} ::
                     resultsOf Up NotExecuted later) |} ∧
     findMigration ms x = Some m ∧ (∃ u, (up m u).1 = inl e) ∧
     if supportsTransactionalDdl env then untouched w w'
     else row_name <$> ledger w' = (row_name <$> ledger w) ++ done).
Proof.
  intros Hff Hres Hpre Hg Hlt range.
  destruct (resolveMigrations_names env input w ms Hres) as [Hnd _].
  pose proof (proj2 (ensureMigrationsNotCorrupted_inr ms _) Hpre) as Hok.
  pose proof (state_bounds ms _ Hnd Hpre) as Hc.
  pose proof (targetOf_bounds mode _ t Hc Hg) as Ht.
  pose proof (currentIndex_prefix ms _ Hnd Hpre) as Hci.
  rewrite operation_migrate.
  destruct (migrate_ff env input (targetOf mode) w ms Hff Hres Hok)
    as (db & w1 & _ & [Hl1 _] & _ & Hrun).
  set (state := stateOf ms (executedNames w)) in *.
  change (migrations state) with ms in Hc, Ht.
  rewrite dispatch_eq, Hg in Hrun.
  case_bool_decide as Hempty; [destruct ms; simpl in *; [lia|done]|].
  replace (t <? currentIndex state) with false in Hrun by lia.
  replace (t >? currentIndex state) with true in Hrun by lia.
  rewrite private_migrateUp_planned in Hrun
    by (change (migrations state) with ms; lia).
  fold range in Hrun.
  pose proof (upLoop_shape env db state (row_name <$> ledger w1) range [] w1)
    as H.
  unfold bind, ret in Hrun. cbn [length resultsOf fmap list_fmap app] in H.
  ospecialize* H; [apply upRange_find|by rewrite app_nil_r|].
  fold (resultsOf Up NotExecuted range) in H.
  assert (NoDup ((row_name <$> ledger w) ++ range)) as Hnd2.
  { rewrite <-executedNames_perm, (prefix_take _ _ Hpre).
    unfold range, upRange. change (migrations state) with ms.
    replace (length (executedNames w))
      with (Z.to_nat (currentIndex state + 1)) by lia.
    rewrite names_upto by lia.
    eapply sublist_NoDup; [exact Hnd|apply sublist_take]. }
  destruct (forEachIndex _ _ _ w1) as [[[e|rs]|l] w2]; [done| |].
  - destruct H as (e & done' & x & later & m & Hr & -> & Hl & Hm & Hwhy).
    destruct (Hrun _ _ eq_refl) as (w' & -> & _ & Hst).
    right. exists e, done', x, later, m. split_and!; [done..| |].
    + destruct Hwhy as [?|[Hx|[n Hn]]]; [done| |by rewrite Hff in Hn].
      exfalso. rewrite Hr, app_assoc in Hnd2. rewrite Hl1 in Hx.
      apply NoDup_app in Hnd2 as (_ & Hnd2 & _). apply (Hnd2 x Hx). by left.
    + cbn [is_inr negb] in Hst. rewrite andb_true_r in Hst.
      destruct (supportsTransactionalDdl env); [done|].
      destruct Hst as [-> _]. by rewrite Hl, Hl1.
  - destruct H as [-> Hl].
    destruct (Hrun _ _ eq_refl) as (w' & -> & _ & Hst).
    left. split; [done|].
    rewrite andb_false_r in Hst. destruct Hst as [-> _]. by rewrite Hl, Hl1.
Qed.

(** X17: the first failing [down] decides the outcome of a run downwards.
    On a ledger that is a prefix of the migration list, with no
    collaborator call faulting and a target below the current index, a
    public operation either returns every migration of the range, latest
    first, marked Success if it has a [down] and NotExecuted if it has
    none, having deleted the records of those with a [down]; or it returns
    the error some [down] rejected with, the results before that migration
    as above, that one marked Error and the later ones NotExecuted.
    Without transactional DDL the ledger has then lost the records of the
    migrations before the failing one that have a [down], and only those;
    with it, ledger and schema are as before the call (the rollback being
    the one the transaction is modelled with). *)
Theorem X17_first_failing_down mode input (w : World U) ms t :
  fault_free env →
  (resolveMigrations env input w).1 = inr ms →
  executedNames w `prefix_of` (name <$> ms) →
  targetOf mode (stateOf ms (executedNames w)) = inr (Some t) →
  t < currentIndex (stateOf ms (executedNames w)) →
  let range := downRange (stateOf ms (executedNames w)) t in
  let '(rs, w') := operation env mode input w in
  (rs = {| error := None; results := Some (downResult ms <$> range) |} ∧
   ledger w' =
     filter (λ row, row_name row ∉ reverted ms range) (ledger w)) ∨
  (∃ e done x later m action,
     range = done ++ x :: later ∧
     rs = {| error := Some e;
             results :=
               Some ((downResult ms <$> done) ++
                     {| migrationName := x; direction := Down;
                        status := Error |} ::
                     resultsOf Down NotExecuted later) |} ∧
     findMigration ms x = Some m ∧ down m = Some action ∧
     (∃ u, (action u).1 = inl e) ∧
     if supportsTransactionalDdl env then untouched w w'
     else ledger w' =
            filter (λ row, row_name row ∉ reverted ms done) (ledger w)).
Proof.
  intros Hff Hres Hpre Hg Hlt range.
  destruct (resolveMigrations_names env input w ms Hres) as [Hnd _].
  pose proof (proj2 (ensureMigrationsNotCorrupted_inr ms _) Hpre) as Hok.
  pose proof (state_bounds ms _ Hnd Hpre) as Hc.
  pose proof (targetOf_bounds mode _ t Hc Hg) as Ht.
  rewrite operation_migrate.
  destruct (migrate_ff env input (targetOf mode) w ms Hff Hres Hok)
    as (db & w1 & _ & [Hl1 _] & _ & Hrun).
  set (state := stateOf ms (executedNames w)) in *.
  change (migrations state) with ms in Hc, Ht.
  rewrite dispatch_eq, Hg in Hrun.
  case_bool_decide as Hempty; [destruct ms; simpl in *; [lia|done]|].
  replace (t <? currentIndex state) with true in Hrun by lia.
  rewrite private_migrateDown_planned in Hrun
    by (change (migrations state) with ms; lia).
  fold range in Hrun.
  pose proof (downLoop_shape env db state w1 range [] w1) as H.
  unfold bind, ret in Hrun. cbn [length fmap list_fmap app] in H.
  ospecialize* H; [apply downRange_find|apply reverted_nil_kept|].
  change (migrations state) with ms in H.
  destruct (forEachIndex _ _ _ w1) as [[[e|rs]|l] w2]; [done| |].
  - destruct H as (e & done' & x & later & m & Hr & -> & Hl & Hm & Hwhy).
    destruct (Hrun _ _ eq_refl) as (w' & -> & _ & Hst).
    destruct Hwhy as [(action & u & Hd & Hu)|[n Hn]]; [|by rewrite Hff in Hn].
    right. exists e, done', x, later, m, action.
    split_and!; [done..|by eauto|].
    cbn [is_inr negb] in Hst. rewrite andb_true_r in Hst.
    destruct (supportsTransactionalDdl env); [done|].
    destruct Hst as [-> _]. by rewrite Hl, Hl1.
  - destruct H as [-> Hl].
    destruct (Hrun _ _ eq_refl) as (w' & -> & _ & Hst).
    left. split; [done|].
    rewrite andb_false_r in Hst. destruct Hst as [-> _]. by rewrite Hl, Hl1.
Qed.

End Failure.

(** * The theorems at work on concrete databases *)

(** The resolved list of two reversible migrations. *)
Lemma resolve_ab (w : World unit) :
  (resolveMigrations (quiet_env false)
     (Migrations {[ "a" := reversible; "b" := reversible ]}) w).1 =
  inr [ {| name := "a"; base := reversible |};
        {| name := "b"; base := reversible |} ].
Proof. vm_compute. reflexivity. Defined.


Ltac in_log := vm_compute; repeat constructor.


Lemma quiet_fault_free {U} transactional :
  fault_free (quiet_env (U:=U) transactional).
Proof. intros n op. reflexivity. Defined.

Lemma C2_witness :
  let input := Migrations {[ "a" := reversible; "b" := reversible ]} in
  let w := world_with ["b"] tt in
  ¬ executedNames w `prefix_of` ["a"; "b"] ∧
  results (operation (quiet_env false) Latest input w).1 = None ∧
  is_Some (error (operation (quiet_env false) Latest input w).1) ∧
  ledger (operation (quiet_env false) Latest input w).2 = ledger w.
Proof.
  intros input w.
  assert (¬ executedNames w `prefix_of`
            (name <$> [ {| name := "a"; base := reversible (U:=unit) |};
                        {| name := "b"; base := reversible |} ])) as Hnp.
  { vm_compute. by intros [k [=]]. }
  split; [exact Hnp|].
  destruct (C2_corrupted_ledger_aborts (quiet_env false) Latest input w _
              (resolve_ab w) Hnp) as [_ H].
  destruct (operation _ _ _ _) as [rs w'].
  destruct H as ((e & -> & _) & _ & [Hl _]). by eauto.
Defined.

(** C3, the claim as stated fails: inside a transaction the insertion of
    the record of ["a"] is rolled back with everything else, and the ledger
    afterwards is empty. *)
Lemma C3_counterexample :
  let '(rs, w') :=
    migrateToLatest (quiet_env true)
      (Migrations {[ "a" := reversible; "b" := broken (Failure "boom");
                     "c" := reversible ]})
      (fresh_world tt) in
  rs = {| error := Some (Failure "boom");
          results :=
            Some [ {| migrationName := "a"; direction := Up;
                      status := Success |};
                   {| migrationName := "b"; direction := Up;
                      status := Error |};
                   {| migrationName := "c"; direction := Up;
                      status := NotExecuted |} ] |} ∧
  ledger w' = [].
Proof. vm_compute. split; reflexivity. Qed.

Lemma C3_witness :
  let r :=
    migrateToLatest (quiet_env false)
      (Migrations {[ "a" := reversible; "b" := broken (Failure "boom");
                     "c" := reversible ]})
      (fresh_world tt) in
  row_name <$> ledger r.2 = ["a"] ∧
  filter (λ ev : Event, is_step ev.1 = true) (new_events (fresh_world tt) r.2) =
    [ (OpUp ConnectionDb "a", true); (OpInsertRecord ConnectionDb "a", true);
      (OpUp ConnectionDb "b", false) ].
Proof.
  intros r.
  pose proof (C3_partial_failure (quiet_env false) reversible
                (broken (Failure "boom")) reversible (fresh_world tt)
                (Failure "boom") tt tt (quiet_fault_free false)
                eq_refl eq_refl eq_refl) as H.
  cbv zeta in H. fold r in H. destruct r as [rs w'].
  destruct H as (_ & Hsteps & Hl & _). by split.
Defined.




Lemma C6_witness :
  let state :=
    {| migrations := [ {| name := "a"; base := reversible (U:=unit) |};
                       {| name := "b"; base := irreversible |} ];
       currentIndex := 1 |} in
  let w := world_with ["a"; "b"] tt in
  let r := private_migrateDown (quiet_env false) ConnectionDb state (-1) w in
  ∃ l, results (toResultSet r.1) = Some l ∧
       l !! 0%nat = Some {| migrationName := "b"; direction := Down;
                            status := NotExecuted |} ∧
       "b" ∈ row_name <$> ledger r.2.
Proof.
  intros state w r.
  assert (NoDup (name <$> migrations state)) as Hnd.
  { apply (bool_decide_unpack _). vm_compute. exact I. }
  pose proof (C6_no_down_is_skipped (quiet_env false) ConnectionDb state (-1)
                w Hnd) as H.
  fold r in H. destruct r as [o w'].
  destruct H as (l & Hl & H); [lia|simpl; lia|].
  exists l. split; [exact Hl|].
  destruct (H 1 {| name := "b"; base := irreversible |}) as (Hk & _ & Hrow);
    [simpl; lia | reflexivity | reflexivity |].
  split; [exact Hk|].
  apply list_elem_of_fmap.
  exists {| row_name := "b"; row_timestamp := "2021-05-01T12:00:00.000Z" |}.
  split; [reflexivity|]. apply Hrow; [|reflexivity]. in_log.
Defined.


Lemma C8_witness :
  let w' :=
    (operation (quiet_env false) Latest (Migrations ∅) (fresh_world tt)).2 in
  let pre :=
    [ (OpGetMetadata, true); (OpCreateTable MIGRATION_TABLE, true);
      (OpGetMetadata, true); (OpCreateTable MIGRATION_LOCK_TABLE, true);
      (OpSelectLockRow, true); (OpInsertLockRow, true);
      (OpAcquireConnection, true) ] in
  let post :=
    [ (OpSelectExecuted ConnectionDb, true);
      (OpReleaseMigrationLock ConnectionDb, true);
      (OpReleaseConnection, true) ] in
  trace w' = pre ++ (OpAcquireMigrationLock ConnectionDb, true) :: post ∧
  ∃ ok, (OpReleaseMigrationLock ConnectionDb, ok) ∈ post.
Proof.
  intros w' pre post.
  assert (trace w' = trace (fresh_world tt) ++
            pre ++ (OpAcquireMigrationLock ConnectionDb, true) :: post) as Ht.
  { vm_compute. reflexivity. }
  split; [exact Ht|].
  exact (C8_release_on_every_exit (quiet_env false) Latest (Migrations ∅)
           (fresh_world tt) pre post ConnectionDb Ht).
Defined.

(** C9, the claim as stated fails: with an empty resolved list and a
    ledger that still names a migration, the corruption check comes first
    and the operation returns its error, not [{results: []}]. *)
Lemma C9_counterexample :
  (resolveMigrations (U:=unit) (quiet_env false) (Migrations ∅)
     (world_with ["x"] tt)).1 = inr [] ∧
  (migrateToLatest (quiet_env false) (Migrations ∅) (world_with ["x"] tt)).1 =
    {| error := Some (CorruptedMissing "x"); results := None |}.
Proof. vm_compute. split; reflexivity. Qed.

Lemma C9_witness :
  (operation (quiet_env false) (To (TargetName "zz")) (Migrations ∅)
     (fresh_world tt)).1 = {| error := None; results := Some [] |}.
Proof.
  assert ((resolveMigrations (U:=unit) (quiet_env false) (Migrations ∅)
             (fresh_world tt)).1 = inr []) as Hres by (vm_compute; reflexivity).
  destruct (C9_empty_list_skips_target (quiet_env false)
              (To (TargetName "zz")) (Migrations ∅) (fresh_world tt) Hres)
    as [_ H].
  destruct (operation _ _ _ _) as [rs w'].
  destruct H as (_ & _ & _ & H). simpl.
  by apply H; [apply quiet_fault_free|].
Defined.


(** * The further properties at work *)

Ltac not_in_log :=
  vm_compute; intros Hin;
  repeat (apply elem_of_cons in Hin as [Hin|Hin]; [discriminate Hin|]);
  by apply elem_of_nil in Hin.

Lemma X1_witness :
  let r := ensureMigrationTablesExists (U:=unit) racing_env (fresh_world tt) in
  r = (inr tt, r.2) ∧
  MIGRATION_TABLE ∈ tables r.2 ∧ MIGRATION_LOCK_TABLE ∈ tables r.2 ∧
  lockRow r.2 = true.
Proof.
  intros r.
  assert (r = (inr tt, r.2)) as H by (vm_compute; reflexivity).
  split; [exact H|].
  destruct (X1_bootstrap_establishes racing_env (fresh_world tt) r.2 H)
    as (H1 & H2 & H3 & _).
  by split_and!.
Defined.

Lemma X2_witness :
  let w := world_with (U:=unit) [] tt in
  MIGRATION_TABLE ∈ tables w ∧ MIGRATION_LOCK_TABLE ∈ tables w ∧
  lockRow w = true ∧
  new_events w (ensureMigrationTablesExists (quiet_env false) w).2 =
    [(OpGetMetadata, true); (OpGetMetadata, true); (OpSelectLockRow, true)].
Proof.
  intros w.
  assert (MIGRATION_TABLE ∈ tables w) as H1 by in_log.
  assert (MIGRATION_LOCK_TABLE ∈ tables w) as H2 by in_log.
  assert (lockRow w = true) as H3 by reflexivity.
  split_and!; [exact H1|exact H2|exact H3|].
  pose proof (X2_bootstrap_reads_only (quiet_env false) w H1 H2 H3) as H.
  destruct (ensureMigrationTablesExists (quiet_env false) w) as [r w'].
  destruct H as (_ & _ & _ & _ & Hn & _ & Hff).
  apply Hn, Hff, quiet_fault_free.
Defined.

Lemma X3_witness :
  let r := ensureTableExists (U:=unit) racing_env MIGRATION_TABLE
             (fresh_world tt) in
  (OpCreateTable MIGRATION_TABLE, false) ∈ new_events (fresh_world tt) r.2 ∧
  r.1 = inr tt.
Proof.
  intros r. split; [in_log|].
  destruct (X3_creation_race_tolerated (U:=unit) racing_env MIGRATION_TABLE
              (fresh_world tt)) as [H _].
  fold r in H. destruct r as [o w'] eqn:Hr. destruct H as [H _].
  apply H.
  - change w' with (o, w').2. rewrite <-Hr. not_in_log.
  - change w' with (o, w').2. rewrite <-Hr. in_log.
Defined.



Lemma X7_witness :
  let r := getState (quiet_env false) ConnectionDb
             (Migrations {[ "a" := reversible; "b" := reversible ]})
             (world_with ["a"] tt) in
  ∃ state, r.1 = inr state ∧ currentIndex state = 0 ∧
           executedNames (world_with (U:=unit) ["a"] tt) = ["a"].
Proof.
  intros r.
  assert (∃ state w', r = (inr state, w')) as (state & w' & Hr)
    by (vm_compute; by eexists _, _).
  exists state. split; [by rewrite Hr|].
  destruct (X7_state_invariant _ _ _ _ _ _ Hr) as (_ & _ & Hc & _).
  split; [exact Hc|reflexivity].
Defined.

Lemma X8_witness :
  let ms := [ {| name := "a"; base := reversible (U:=unit) |};
              {| name := "b"; base := reversible |} ] in
  ensureMigrationsNotCorrupted ms ["b"] = inl (CorruptedOrder "b" 0 "a") ∧
  ensureMigrationsNotCorrupted ms ["a"; "zz"] = inl (CorruptedMissing "zz").
Proof.
  intros ms. destruct (X8_corruption_errors ms) as (_ & Hmiss & Hord). split.
  - apply (Hord 0%nat "b" {| name := "a"; base := reversible |} []);
      [|reflexivity|discriminate].
    intros n Hn. apply list_elem_of_singleton in Hn as ->. in_log.
  - apply (Hmiss ["a"] "zz" []).
    + intros n Hn. apply list_elem_of_singleton in Hn as ->. in_log.
    + not_in_log.
Defined.

Lemma X9_witness :
  let state :=
    {| migrations := [ {| name := "a"; base := reversible (U:=unit) |};
                       {| name := "b"; base := reversible |} ];
       currentIndex := -1 |} in
  let r := private_migrateUp (quiet_env false) ConnectionDb state 1
             (fresh_world tt) in
  r.1 = inr {| error := None;
               results := Some (resultsOf Up Success ["a"; "b"]) |} ∧
  row_name <$> ledger r.2 = ["a"; "b"].
Proof.
  intros state r.
  pose proof (X9_up_run_shape (quiet_env false) ConnectionDb state 1
                (fresh_world tt)) as H.
  ospecialize* H; [simpl; lia..|]. cbv zeta in H. fold r in H.
  assert (is_inr r.1 = true) as Hr by reflexivity.
  destruct r as [[t|rs] w']; [discriminate Hr|].
  destruct H as [-> Hl]. by split.
Defined.

Lemma X10_witness :
  let state :=
    {| migrations := [ {| name := "a"; base := reversible (U:=unit) |};
                       {| name := "b"; base := irreversible |} ];
       currentIndex := 1 |} in
  let r := private_migrateDown (quiet_env false) ConnectionDb state (-1)
             (world_with ["a"; "b"] tt) in
  r.1 = inr {| error := None;
               results :=
                 Some [ {| migrationName := "b"; direction := Down;
                           status := NotExecuted |};
                        {| migrationName := "a"; direction := Down;
                           status := Success |} ] |} ∧
  row_name <$> ledger r.2 = ["b"].
Proof.
  intros state r.
  pose proof (X10_down_run_shape (quiet_env false) ConnectionDb state (-1)
                (world_with ["a"; "b"] tt)) as H.
  ospecialize* H; [simpl; lia..|]. cbv zeta in H. fold r in H.
  assert (is_inr r.1 = true) as Hr by reflexivity.
  destruct r as [[t|rs] w']; [discriminate Hr|]. cbn [fst snd].
  destruct H as [-> ->]. split; reflexivity.
Defined.

Lemma ab_ups_succeed :
  ups_succeed [ {| name := "a"; base := reversible (U:=unit) |};
                {| name := "b"; base := reversible |} ].
Proof.
  intros m u Hm.
  repeat (apply elem_of_cons in Hm as [->|Hm]); try reflexivity.
  by apply elem_of_nil in Hm.
Defined.

Lemma ab_downs_succeed :
  downs_succeed [ {| name := "a"; base := reversible (U:=unit) |};
                  {| name := "b"; base := reversible |} ].
Proof.
  intros m Hm. exists succeed.
  repeat (apply elem_of_cons in Hm as [->|Hm]); try (split; reflexivity).
  by apply elem_of_nil in Hm.
Defined.

Lemma ab_prefix :
  executedNames (world_with (U:=unit) ["a"] tt) `prefix_of` ["a"; "b"].
Proof. by exists ["b"]. Defined.




Lemma resolve_a_broken (w : World unit) :
  (resolveMigrations (quiet_env false)
     (Migrations {[ "a" := reversible; "b" := broken (Failure "boom") ]}) w).1 =
  inr [ {| name := "a"; base := reversible |};
        {| name := "b"; base := broken (Failure "boom") |} ].
Proof. vm_compute. reflexivity. Defined.


Lemma X16_witness :
  let input :=
    Migrations {[ "a" := reversible; "b" := broken (Failure "boom") ]} in
  let r := operation (quiet_env false) Latest input (fresh_world tt) in
  ∃ done x later,
    ["a"; "b"] = done ++ x :: later ∧
    results r.1 = Some (resultsOf Up Success done ++
                        {| migrationName := x; direction := Up;
                           status := Error |} ::
                        resultsOf Up NotExecuted later) ∧
    row_name <$> ledger r.2 = done.
Proof.
  intros input r.
  pose proof (X16_first_failure_decides (quiet_env false) Latest input
                (fresh_world tt) _ 1 (quiet_fault_free false)
                (resolve_a_broken _)) as H.
  ospecialize* H; [by exists ["a"; "b"]|reflexivity|reflexivity|].
  cbv zeta in H. fold r in H.
  assert (is_Some (error r.1)) as [e He] by by eexists.
  destruct r as [rs w']. cbn [fst snd] in *.
  destruct H as [[-> _]|(e' & done & x & later & m & Hr & -> & _ & _ & Hl)];
    [discriminate He|].
  exists done, x, later. split; [exact Hr|]. split; [reflexivity|exact Hl].
Defined.

Lemma X17_witness :
  let input := Migrations {[ "a" := reversible; "b" := irreversible ]} in
  let w := world_with ["a"; "b"] tt in
  let r := operation (quiet_env false) (To NO_MIGRATIONS) input w in
  r.1 = {| error := None;
           results :=
             Some [ {| migrationName := "b"; direction := Down;
                       status := NotExecuted |};
                    {| migrationName := "a"; direction := Down;
                       status := Success |} ] |} ∧
  row_name <$> ledger r.2 = ["b"].
Proof.
  intros input w r.
  assert ((resolveMigrations (quiet_env false) input w).1 =
          inr [ {| name := "a"; base := reversible |};
                {| name := "b"; base := irreversible |} ]) as Hres
    by (vm_compute; reflexivity).
  pose proof (X17_first_failing_down (quiet_env false) (To NO_MIGRATIONS)
                input w _ (-1) (quiet_fault_free false) Hres) as H.
  ospecialize* H; [by exists []|reflexivity|reflexivity|].
  cbv zeta in H. fold r in H.
  assert (error r.1 = None) as He by reflexivity.
  destruct r as [rs w']. cbn [fst snd] in *.
  destruct H as [[-> ->]|(e & done & x & later & m & action & _ & -> & _)];
    [|discriminate He].
  split; reflexivity.
Defined.
